(** * Relay: the safety-gated action core, embedded in Rocq

    A shallow embedding of the parts of the Relay desktop assistant that
    decide what the reasoning backend may run on the user's machine:

    - [CommandExecutor] (command-executor module): the catalog of safe
      queries, the raw-command pattern blocklist, process-name
      sanitisation and the bounded command history;
    - [SolutionEngine] (src/main/modules/solutions.js): solution
      validation, the declared-type blocklist and the dispatch switch;
    - [RelayApp] (renderer): the action-tag parser and the agentic
      diagnose/act/reinterpret loop.

    JavaScript strings are sequences of UTF-16 code units; they are
    modelled as [list N].  Everything outside the process (child
    processes, the chat backend, the clock) is an oracle indexed by the
    number of earlier calls, and every call is recorded in a trace. *)

From Stdlib Require Import ZArith NArith List Bool Lia.
From Stdlib Require Import Strings.String Strings.Ascii Numbers.DecimalString.
From stdpp Require Import base option list gmap.
Import ListNotations.

Set Default Proof Using "Type".
Open Scope N_scope.

(** ** JavaScript strings *)

Abbreviation jsstring := (list N).

Module JS.

(** Decoding of a UTF-8 source literal into code points: [pending] is the
    number of continuation bytes still expected, [acc] the bits read. *)
Fixpoint utf8_decode (pending : nat) (acc : N) (bs : list N) : list N :=
  match bs with
  | [] => []
  | b :: bs' =>
      match pending with
      | O =>
          if b <? 128 then b :: utf8_decode 0 0 bs'
          else if b <? 224 then utf8_decode 1 (b mod 32) bs'
          else if b <? 240 then utf8_decode 2 (b mod 16) bs'
          else utf8_decode 3 (b mod 8) bs'
      | S O => (acc * 64 + b mod 64) :: utf8_decode 0 0 bs'
      | S p => utf8_decode p (acc * 64 + b mod 64) bs'
      end
  end.

(** A code point as one or two UTF-16 code units. *)
Definition utf16_units (cp : N) : list N :=
  if cp <? 65536 then [cp]
  else [55296 + (cp - 65536) / 1024; 56320 + (cp - 65536) mod 1024].

Fixpoint bytes_of (s : string) : list N :=
  match s with
  | EmptyString => []
  | String a s' => N_of_ascii a :: bytes_of s'
  end.

(** The JavaScript string written by a source literal. *)
Definition lit (s : string) : jsstring :=
  concat (map utf16_units (utf8_decode 0 0 (bytes_of s))).

(** [\s], which is also the set removed by [String.prototype.trim]:
    WhiteSpace and LineTerminator code units. *)
Definition isSpace (c : N) : bool :=
  ((9 <=? c) && (c <=? 13)) || (c =? 32) || (c =? 160) || (c =? 5760)
  || ((8192 <=? c) && (c <=? 8202)) || (c =? 8232) || (c =? 8233)
  || (c =? 8239) || (c =? 8287) || (c =? 12288) || (c =? 65279).

Definition isDigit (c : N) : bool := (48 <=? c) && (c <=? 57).
Definition isUpper (c : N) : bool := (65 <=? c) && (c <=? 90).
Definition isLower (c : N) : bool := (97 <=? c) && (c <=? 122).

(** [\w] *)
Definition isWord (c : N) : bool :=
  isUpper c || isLower c || isDigit c || (c =? 95).

Fixpoint trimStart (s : jsstring) : jsstring :=
  match s with
  | c :: s' => if isSpace c then trimStart s' else s
  | [] => []
  end.

Definition trimEnd (s : jsstring) : jsstring := rev (trimStart (rev s)).

(** [String.prototype.trim] *)
Definition trim (s : jsstring) : jsstring := trimEnd (trimStart s).

(** [s.substring(0, n)] for a non-negative integer [n] *)
Definition substring0 (n : nat) (s : jsstring) : jsstring := take n s.

Fixpoint startsWith (p s : jsstring) : bool :=
  match p, s with
  | [], _ => true
  | a :: p', b :: s' => (a =? b) && startsWith p' s'
  | _ :: _, [] => false
  end.

(** [s.replace(pat, repl)] with a string pattern and a replacement that
    holds no [$]: the first occurrence of [pat] is replaced, and [s] is
    returned as it is when [pat] does not occur. *)
Fixpoint replaceFirst (pat repl s : jsstring) : jsstring :=
  match s with
  | [] => match pat with [] => repl | _ => [] end
  | c :: s' =>
      if startsWith pat s then repl ++ drop (length pat) s
      else c :: replaceFirst pat repl s'
  end.

(** [s.includes(pat)] *)
Fixpoint includes (pat s : jsstring) : bool :=
  startsWith pat s ||
  match s with
  | [] => false
  | _ :: s' => includes pat s'
  end.

(** The primitive values a property of a solution object can hold. *)
Inductive prim :=
| Undefined
| Null
| Bool (b : bool)
| Num (z : Z)
| NaN
| Str (s : jsstring).

Definition truthyPrim (v : prim) : bool :=
  match v with
  | Undefined | Null | NaN => false
  | Bool b => b
  | Num z => negb (z =? 0)%Z
  | Str [] => false
  | Str (_ :: _) => true
  end.

(** Truthiness of a string value. *)
Definition truthy (s : jsstring) : bool :=
  match s with [] => false | _ => true end.

(** Truthiness of a possibly undefined string property. *)
Definition truthyOpt (s : option jsstring) : bool :=
  match s with Some s => truthy s | None => false end.

(** A possibly undefined string inside a template literal. *)
Definition show (s : option jsstring) : jsstring :=
  match s with Some s => s | None => lit "undefined" end.

(** A line feed. *)
Definition nl : jsstring := [10].

(** A double quote, and a string between double quotes. *)
Definition dq : jsstring := [34].
Definition quoted (s : jsstring) : jsstring := dq ++ s ++ dq.

(** A number inside a template literal: the decimal digits of an
    integer, which is what JavaScript prints for an integer of absolute
    value below 10^21 (from there on it prints an exponent form; the
    process ids, counts and step numbers printed here are far below). *)
Definition showZ (z : Z) : jsstring :=
  lit (NilZero.string_of_int (Z.to_int z)).

(** A primitive inside a template literal. *)
Definition showPrim (v : prim) : jsstring :=
  match v with
  | Undefined => lit "undefined"
  | Null => lit "null"
  | Bool true => lit "true"
  | Bool false => lit "false"
  | Num z => showZ z
  | NaN => lit "NaN"
  | Str s => s
  end.

(** [v === s] for a string [s] *)
Definition isStr (v : prim) (s : jsstring) : bool :=
  match v with
  | Str t => bool_decide (t = s)
  | _ => false
  end.

End JS.

Arguments JS.lit : simpl never.

Notation "'js' s" := (JS.lit s%string) (at level 9, s at level 0, only parsing).
Notation "'jsq' s" := (JS.quoted (JS.lit s%string))
  (at level 9, s at level 0, only parsing).


(** ** Regular expressions

    Every regular expression of the sources is a sequence of terms, each
    term a set of characters under one of the quantifiers none, [*] and
    [+] (all greedy), possibly wrapped in a capturing group.  The matcher
    is the backtracking one of the language: a quantifier first takes as
    many characters as it can and gives them back one at a time. *)

Module Regex.

Inductive cclass :=
| CChar (c : N)           (* a literal character *)
| CRange (lo hi : N)      (* [lo-hi] inside a class *)
| CSpace                  (* \s *)
| CWord.                  (* \w *)

Inductive cset :=
| Single (c : cclass)
| NotIn (cs : list cclass).   (* [^...] *)

Inductive quant := Once | ZeroOrMore | OneOrMore.

Record term := Term { t_set : cset; t_quant : quant; t_group : bool }.

Record regexp := RegExp { source : list term; ignoreCase : bool; global : bool }.

(** Canonicalize of the non-Unicode [i] flag, on the characters it is
    compared with here: the patterns hold ASCII characters only, and a
    code unit of 128 or more never canonicalizes to an ASCII one. *)
Definition canon (c : N) : N := if JS.isLower c then c - 32 else c.

Definition cclass_mem (ic : bool) (k : cclass) (x : N) : bool :=
  match k with
  | CChar c => if ic then canon x =? canon c else x =? c
  | CRange lo hi => (lo <=? x) && (x <=? hi)
  | CSpace => JS.isSpace x
  | CWord => JS.isWord x
  end.

Definition cset_mem (ic : bool) (s : cset) (x : N) : bool :=
  match s with
  | Single k => cclass_mem ic k x
  | NotIn ks => negb (existsb (fun k => cclass_mem ic k x) ks)
  end.

(** Greedy repetition: [taken] has been consumed already; the longer
    alternatives are tried before the continuation [k] is given the
    characters taken so far. *)
Fixpoint many {R} (ok : N -> bool) (k : jsstring -> jsstring -> option R)
    (taken s : jsstring) : option R :=
  match s with
  | x :: s' =>
      if ok x then
        match many ok k (taken ++ [x]) s' with
        | Some r => Some r
        | None => k taken s
        end
      else k taken s
  | [] => k taken s
  end.

(** A match of the whole pattern at the start of [s]: the matched text,
    the captures in order, and what is left of [s]. *)
Fixpoint match_here (ic : bool) (p : list term) (s : jsstring)
    : option (jsstring * list jsstring * jsstring) :=
  match p with
  | [] => Some ([], [], s)
  | t :: p' =>
      let k := fun taken rest =>
        match match_here ic p' rest with
        | Some (m, caps, r) =>
            Some (taken ++ m, (if t_group t then [taken] else []) ++ caps, r)
        | None => None
        end in
      match t_quant t with
      | Once =>
          match s with
          | x :: s' => if cset_mem ic (t_set t) x then k [x] s' else None
          | [] => None
          end
      | ZeroOrMore => many (cset_mem ic (t_set t)) k [] s
      | OneOrMore =>
          match s with
          | x :: s' =>
              if cset_mem ic (t_set t) x
              then many (cset_mem ic (t_set t)) k [x] s' else None
          | [] => None
          end
      end
  end.

Record match_result := Match {
  m_index : nat;              (* index of the match in the input *)
  m_text : jsstring;          (* element 0: the matched substring *)
  m_groups : list jsstring    (* elements 1, 2, ...: the captures *)
}.

(** The leftmost match starting at index [i] or later; [s] is the input
    from index [i] on. *)
Fixpoint search (ic : bool) (p : list term) (i : nat) (s : jsstring)
    : option match_result :=
  match match_here ic p s with
  | Some (m, caps, _) => Some (Match i m caps)
  | None =>
      match s with
      | [] => None
      | _ :: s' => search ic p (S i) s'
      end
  end.

(** [re.exec(s)] for a regexp object whose [lastIndex] is [lastIndex]:
    the match or null, and the new [lastIndex].  Without the [g] flag the
    search starts at 0 and [lastIndex] is left alone. *)
Definition exec (re : regexp) (lastIndex : nat) (s : jsstring)
    : option match_result * nat :=
  if global re then
    if (length s <? lastIndex)%nat then (None, O)
    else
      match search (ignoreCase re) (source re) lastIndex (drop lastIndex s) with
      | Some m => (Some m, (m_index m + length (m_text m))%nat)
      | None => (None, O)
      end
  else (search (ignoreCase re) (source re) O s, lastIndex).

(** [re.test(s)] for a regexp without the [g] flag. *)
Definition test (re : regexp) (s : jsstring) : bool :=
  match search (ignoreCase re) (source re) O s with
  | Some _ => true
  | None => false
  end.

(** [s.replace(re, '')] for a regexp with the [g] flag whose pattern is
    one character set: every character of the set is removed. *)
Definition removeAll (ic : bool) (cs : cset) (s : jsstring) : jsstring :=
  List.filter (fun x => negb (cset_mem ic cs x)) s.

(** Pattern syntax. *)
Definition chr (c : string) : list term :=
  map (fun x => Term (Single (CChar x)) Once false) (JS.lit c).
Definition ws_plus : list term := [Term (Single CSpace) OneOrMore false].
Definition ws_star : list term := [Term (Single CSpace) ZeroOrMore false].

(** A pattern whose first term takes at least one character. *)
Definition consuming (p : list term) : bool :=
  match p with
  | t :: _ => match t_quant t with ZeroOrMore => false | _ => true end
  | [] => false
  end.
Definition group_plus (cs : cset) : list term := [Term cs OneOrMore true].

(** The language of a pattern, independently of the matcher. *)
Inductive matches (ic : bool) : list term -> jsstring -> Prop :=
| matches_nil : matches ic [] []
| matches_once t p x m :
    t_quant t = Once -> cset_mem ic (t_set t) x = true ->
    matches ic p m -> matches ic (t :: p) (x :: m)
| matches_star t p run m :
    t_quant t = ZeroOrMore -> forallb (cset_mem ic (t_set t)) run = true ->
    matches ic p m -> matches ic (t :: p) (run ++ m)
| matches_plus t p x run m :
    t_quant t = OneOrMore ->
    forallb (cset_mem ic (t_set t)) (x :: run) = true ->
    matches ic p m -> matches ic (t :: p) (x :: run ++ m).

(** Some substring of [s] is in the language of the pattern. *)
Definition occurs (re : regexp) (s : jsstring) : Prop :=
  exists pre m post,
    s = pre ++ m ++ post /\ matches (ignoreCase re) (source re) m.

(** Two strings that differ at most in the case of ASCII letters. *)
Definition sameUpToCase (s t : jsstring) : Prop :=
  Forall2 (fun a b => canon a = canon b) s t.

(** A pattern made of literal characters and [\s] only. *)
Definition caseBlind (p : list term) : bool :=
  forallb (fun t => match t_set t with
                    | Single (CChar _) | Single CSpace => true
                    | _ => false
                    end) p.

End Regex.

(** ** Child processes and the clock

    [execAsync(command, options)] either resolves with the captured
    streams or rejects with an error; a timeout and an overflow of
    [maxBuffer] are rejections.  Which one happens is not decided by the
    program: it is read from an oracle, at the number of earlier calls. *)

Record exec_options := ExecOptions {
  o_timeout : option N;
  o_maxBuffer : option N;
  o_cwd : option jsstring;
  o_shell : bool
}.

Definition no_options : exec_options := ExecOptions None None None false.

Record exec_error := ExecError {
  e_message : jsstring;
  e_stdout : option jsstring
}.

Inductive exec_outcome :=
| Resolved (stdout stderr : jsstring)
| Rejected (e : exec_error).

(** The child process ended without an error. *)
Definition resolved (o : exec_outcome) : bool :=
  match o with Resolved _ _ => true | Rejected _ => false end.

Record spawn := Spawn { sp_command : jsstring; sp_options : exec_options }.

Inductive log_level := DEBUG | INFO | WARN | ERROR.

Record log_line := Log {
  l_level : log_level;
  l_module : jsstring;
  l_message : jsstring;
  l_data : list (jsstring * jsstring)
}.

(** The outcome of one command of a batch. *)
Record command_result := CommandResult {
  c_name : jsstring;
  c_success : bool;
  c_error : option jsstring
}.

Inductive details :=
| ProcessDetails (pid processName : JS.prim)
| ServiceDetails (serviceName : JS.prim)
| CommandResults (results : list command_result)
| Cleaned (lines : list jsstring).

(** The result objects of the main process, as the union of their
    properties; [None] and [false] stand for an absent (or null)
    property. *)
Record result := Result {
  success : bool;
  error : option jsstring;
  output : option jsstring;
  stderr : option jsstring;
  message : option jsstring;
  action : option jsstring;
  r_details : option details;
  userAction : bool;
  blocked : bool;
  requiresApproval : bool;
  requiresSudo : bool
}.

(** [{ success, error, output, stderr }] *)
Definition commandResult (success : bool) (error output stderr : option jsstring)
    : result :=
  Result success error output stderr None None None false false false false.

(** [{ success: false, error }] *)
Definition failure (err : jsstring) : result :=
  commandResult false (Some err) None None.

(** [{ success: true, message }] *)
Definition succeeded (msg : jsstring) : result :=
  Result true None None None (Some msg) None None false false false false.

(** [{ success: false, error, blocked: true }] *)
Definition refusal (err : jsstring) : result :=
  Result false (Some err) None None None None None false true false false.

(** What a result tells its caller about the request: [blocked: true]
    is a refusal, [requiresApproval: true] asks for an approval. *)
Inductive verdict := Allowed | RequiresApproval | Blocked.

Definition verdictOf (r : result) : verdict :=
  if blocked r then Blocked
  else if requiresApproval r then RequiresApproval
  else Allowed.

(** [s?.trim() || null] *)
Definition trimOrNull (s : option jsstring) : option jsstring :=
  match s with
  | Some s => if JS.truthy (JS.trim s) then Some (JS.trim s) else None
  | None => None
  end.

(** ** The command executor *)

Module CommandExecutor.

Record history_entry := Entry {
  h_timestamp : jsstring;
  h_type : jsstring;
  h_command : jsstring;
  h_success : bool;
  h_error : option jsstring
}.

(** [platform] is the value of [os.platform()]: the name of an operating
    system.  The tables indexed by it are read as maps of their own
    properties; no name of an operating system is the name of a
    property that every object inherits. *)
Record t := State {
  platform : jsstring;            (* os.platform() *)
  history : list history_entry;
  spawned : list spawn;           (* every child process started, in order *)
  logged : list log_line;         (* every logger call, in order *)
  clock : nat                     (* number of readings of the clock *)
}.

Definition dangerousPatterns : list Regex.regexp :=
  let i p := Regex.RegExp p true false in
  [ i (Regex.chr "rm" ++ Regex.ws_plus ++ Regex.chr "-rf");
    i (Regex.chr "rmdir");
    i (Regex.chr "del" ++ Regex.ws_plus ++ Regex.chr "/s");
    i (Regex.chr "format");
    i (Regex.chr "mkfs");
    i (Regex.chr "dd" ++ Regex.ws_plus ++ Regex.chr "if=");
    i (Regex.chr ">" ++ Regex.ws_star ++ Regex.chr "/dev/");
    i (Regex.chr "sudo");
    i (Regex.chr "chmod" ++ Regex.ws_plus ++ Regex.chr "777");
    i (Regex.chr "killall");
    i (Regex.chr "shutdown");
    i (Regex.chr "reboot") ].

(** The per-platform command of each safe query. *)
Definition templates (darwin win32 linux : jsstring) : gmap jsstring jsstring :=
  list_to_map [(js "darwin", darwin); (js "win32", win32); (js "linux", linux)].

Definition getSafeCommands : gmap jsstring (gmap jsstring jsstring) :=
  list_to_map [
    (js "system-info", templates
       (js "system_profiler SPHardwareDataType")
       (js "systeminfo")
       (js "lscpu && free -h"));
    (js "disk-usage", templates
       (js "df -h")
       (js "wmic logicaldisk get size,freespace,caption")
       (js "df -h"));
    (js "memory-info", templates
       (js "vm_stat")
       (js "wmic memorychip get capacity")
       (js "free -h"));
    (js "process-list", templates
       (js "ps -ax -o pid,%mem,%cpu,comm | head -20")
       (js "powershell " ++ jsq "Get-Process | Select-Object -First 20")
       (js "ps aux | head -20"));
    (js "top-processes", templates
       (js "ps -amcwwwxo pid,%mem,%cpu,command | head -11")
       (js "powershell " ++ jsq "Get-Process | Sort-Object -Property WS -Descending | Select-Object -First 10")
       (js "ps aux --sort=-%mem | head -10"));
    (js "network-info", templates
       (js "networksetup -listallhardwareports && ifconfig en0")
       (js "ipconfig")
       (js "ip addr"));
    (js "dns-servers", templates
       (js "scutil --dns | grep nameserver | head -5")
       (js "powershell " ++ jsq "(Get-DnsClientServerAddress).ServerAddresses")
       (js "cat /etc/resolv.conf"));
    (js "uptime", templates
       (js "uptime")
       (js "powershell " ++ jsq "(Get-Date) - (Get-CimInstance Win32_OperatingSystem).LastBootUpTime")
       (js "uptime"));
    (js "battery", templates
       (js "pmset -g batt")
       (js "powershell " ++ jsq "(Get-WmiObject Win32_Battery).EstimatedChargeRemaining")
       (js "upower -i /org/freedesktop/UPower/devices/battery_BAT0"));
    (js "startup-apps", templates
       (js "osascript -e 'tell application " ++ jsq "System Events" ++ js " to get name of every login item'")
       (js "powershell " ++ jsq "Get-CimInstance Win32_StartupCommand | Select-Object Name, Command")
       (js "ls ~/.config/autostart"));
    (js "installed-apps", templates
       (js "ls /Applications")
       (js "powershell " ++ jsq "Get-ItemProperty HKLM:\Software\Microsoft\Windows\CurrentVersion\Uninstall\* | Select-Object DisplayName | Select-Object -First 30")
       (js "dpkg --list | head -30"));
    (js "temp-files-size", templates
       (js "du -sh ~/Library/Caches 2>/dev/null || echo " ++ jsq "N/A")
       (js "powershell " ++ jsq "(Get-ChildItem $env:TEMP -Recurse -ErrorAction SilentlyContinue | Measure-Object -Property Length -Sum).Sum / 1MB")
       (js "du -sh /tmp 2>/dev/null || echo " ++ jsq "N/A"));
    (js "browser-processes", templates
       (js "ps aux | grep -iE " ++ jsq "(Chrome|Safari|Firefox)" ++ js " | grep -v grep | head -10")
       (js "powershell " ++ jsq "Get-Process | Where-Object { $_.Name -match 'chrome|firefox|msedge' } | Select-Object -First 10")
       (js "ps aux | grep -E " ++ jsq "(chrome|firefox)" ++ js " | grep -v grep | head -10"));
    (js "printer-status", templates
       (js "lpstat -p")
       (js "powershell " ++ jsq "Get-Printer | Select-Object Name,PrinterStatus,JobCount")
       (js "lpstat -p"));
    (js "printer-queue", templates
       (js "lpstat -o")
       (js "powershell " ++ jsq "Get-PrintJob -PrinterName *")
       (js "lpstat -o")) ].

(** The characters kept in a process or application name: the class of
    [/[^a-zA-Z0-9\s\-_.]/g] is the set of the characters removed. *)
Definition unsafeNameChar : Regex.cset :=
  Regex.NotIn [ Regex.CRange 97 122; Regex.CRange 65 90; Regex.CRange 48 57;
                Regex.CSpace; Regex.CChar 45; Regex.CChar 95; Regex.CChar 46 ].

Definition sanitizeName (name : jsstring) : jsstring :=
  Regex.removeAll false unsafeNameChar name.

(** The characters that are kept: letters, digits, white space, [-],
    [_] and [.]. *)
Definition keptInName (c : N) : bool :=
  JS.isLower c || JS.isUpper c || JS.isDigit c || JS.isSpace c
  || (c =? 45) || (c =? 95) || (c =? 46).

Section Methods.

(** The outcome of the [n]-th child process, and the [n]-th reading of
    [new Date().toISOString()]. *)
Variable execAsync : nat -> jsstring -> exec_options -> exec_outcome.
Variable now : nat -> jsstring.
(** [os.homedir()] and [process.env.TEMP] *)
Variable homedir : jsstring.
Variable envTEMP : option jsstring.
(** [parseInt] of the output of a size command ([None] for NaN), and
    [formatBytes], whose text comes from floating-point arithmetic:
    both are left open. *)
Variable parseInt : jsstring -> option Z.
Variable formatBytes : Z -> jsstring.

Definition safeCommands : gmap jsstring (gmap jsstring jsstring) := getSafeCommands.

Definition logger (lv : log_level) (module msg : jsstring)
    (data : list (jsstring * jsstring)) (st : t) : t :=
  State (platform st) (history st) (spawned st)
    (logged st ++ [Log lv module msg data]) (clock st).

(** Starts a child process and waits for it. *)
Definition run (command : jsstring) (opts : exec_options) (st : t)
    : exec_outcome * t :=
  (execAsync (length (spawned st)) command opts,
   State (platform st) (history st) (spawned st ++ [Spawn command opts])
     (logged st) (clock st)).

Definition isSafeCommand (commandKey : jsstring) : bool :=
  bool_decide (is_Some (safeCommands !! commandKey)).

Definition isDangerous (command : jsstring) : bool :=
  existsb (fun pattern => Regex.test pattern command) dangerousPatterns.

(** [history.slice(-100)] *)
Definition last100 (h : list history_entry) : list history_entry :=
  drop (length h - 100) h.

Definition logCommand (type command : jsstring) (success : bool)
    (error : option jsstring) (st : t) : t :=
  let pushed := history st ++ [Entry (now (clock st)) type command success error] in
  State (platform st)
    (if (100 <? length pushed)%nat then last100 pushed else pushed)
    (spawned st) (logged st) (S (clock st)).

Definition getHistory (st : t) : list history_entry := history st.




Definition runSafeCommand (commandKey : jsstring) (st : t) : result * t :=
  match safeCommands !! commandKey with
  | None => (failure (js "Unknown command: " ++ commandKey), st)
  | Some commandMap =>
      match commandMap !! platform st with
      | Some (c :: cs) =>
          let command := c :: cs in
          let st := logger DEBUG (js "CMD") (js "Running safe command: " ++ commandKey)
                      [(js "command", command)] st in
          match run command (ExecOptions (Some 30000) (Some (1024 * 1024)) None false) st with
          | (Resolved stdout stderr, st) =>
              let st := logCommand commandKey command true None st in
              (commandResult true None (Some (JS.trim stdout))
                 (trimOrNull (Some stderr)), st)
          | (Rejected e, st) =>
              let st := logger ERROR (js "CMD") (js "Command failed: " ++ commandKey)
                          [(js "error", e_message e)] st in
              let st := logCommand commandKey command false (Some (e_message e)) st in
              (commandResult false (Some (e_message e)) (trimOrNull (e_stdout e))
                 None, st)
          end
      | _ => (failure (js "Command not supported on " ++ platform st), st)
      end
  end.

Record custom_options := CustomOptions {
  c_timeout : option N;
  c_cwd : option jsstring
}.

Definition runCustomCommand (command : jsstring) (options : custom_options)
    (st : t) : result * t :=
  if isDangerous command then
    let st := logger WARN (js "CMD") (js "Blocked dangerous command")
                [(js "command", command)] st in
    (refusal (js "This command is not allowed for security reasons."), st)
  else
    let st := logger INFO (js "CMD") (js "Running custom command")
                [(js "command", command)] st in
    let timeout := match c_timeout options with
                   | Some n => if n =? 0 then 60000 else n
                   | None => 60000
                   end in
    let cwd := match c_cwd options with
               | Some (c :: d) => c :: d
               | _ => homedir
               end in
    match run command (ExecOptions (Some timeout) (Some (1024 * 1024)) (Some cwd) false) st with
    | (Resolved stdout stderr, st) =>
        let st := logCommand (js "custom") command true None st in
        (commandResult true None (Some (JS.trim stdout))
           (trimOrNull (Some stderr)), st)
    | (Rejected e, st) =>
        let st := logger ERROR (js "CMD") (js "Custom command failed")
                    [(js "command", command); (js "error", e_message e)] st in
        let st := logCommand (js "custom") command false (Some (e_message e)) st in
        (commandResult false (Some (e_message e)) (trimOrNull (e_stdout e))
           None, st)
    end.

Definition killProcessByName (name : jsstring) (st : t) : result * t :=
  let safeName := sanitizeName name in
  let command :=
    if bool_decide (platform st = js "win32")
    then js "taskkill /F /IM " ++ JS.quoted (safeName ++ js ".exe")
         ++ js " 2>nul || taskkill /F /IM " ++ JS.quoted safeName ++ js " 2>nul"
    else js "pkill -x " ++ JS.quoted safeName ++ js " || pkill " ++ JS.quoted safeName in
  let st := logger INFO (js "CMD") (js "Killing process by name")
                [(js "name", safeName)] st in
  match run command no_options st with
  | (Resolved _ _, st) =>
      let st := logCommand (js "kill-by-name") command true None st in
      (succeeded (safeName ++ js " terminated"), st)
  | (Rejected e, st) =>
      if JS.includes (js "No matching") (e_message e)
      then (succeeded (safeName ++ js " is not running"), st)
      else (failure (e_message e), st)
  end.

Definition openApp (appName : jsstring) (st : t) : result * t :=
  let safeName := sanitizeName appName in
  let command :=
    if bool_decide (platform st = js "darwin") then js "open -a " ++ JS.quoted safeName
    else if bool_decide (platform st = js "win32")
    then js "start " ++ JS.quoted [] ++ js " " ++ JS.quoted safeName
    else safeName in
  let st := logger INFO (js "CMD") (js "Opening App") [(js "app", safeName)] st in
  match run command no_options st with
  | (Resolved _ _, st) =>
      let st := logCommand (js "open-app") command true None st in
      (succeeded (js "Opened " ++ safeName), st)
  | (Rejected e, st) =>
      let st := logger ERROR (js "CMD") (js "Failed to open app")
                  [(js "app", safeName); (js "error", e_message e)] st in
      (failure (js "Could not open " ++ safeName
                ++ js ". It might not be installed or I can't find it."), st)
  end.

(** The pause of one second between the two steps is not modelled. *)
Definition restartApp (appName : jsstring) (st : t) : result * t :=
  let st := logger INFO (js "CMD") (js "Restarting App") [(js "app", appName)] st in
  let '(killResult, st) := killProcessByName appName st in
  let '(openResult, st) := openApp appName st in
  if success openResult then
    let st := logCommand (js "restart-app") appName true None st in
    (succeeded (js "Restarted " ++ appName ++ js " successfully"), st)
  else
    (failure (js "Closed " ++ appName ++ js " but failed to reopen it: "
              ++ JS.show (error openResult)), st).

Definition killProcess (pid : JS.prim) (force : bool) (st : t) : result * t :=
  let command :=
    if bool_decide (platform st = js "win32")
    then js "taskkill " ++ (if force then js "/F" else []) ++ js " /PID " ++ JS.showPrim pid
    else js "kill " ++ (if force then js "-9" else []) ++ js " " ++ JS.showPrim pid in
  let st := logger INFO (js "CMD") (js "Killing process")
              [(js "pid", JS.showPrim pid);
               (js "force", if force then js "true" else js "false")] st in
  match run command no_options st with
  | (Resolved _ _, st) =>
      let st := logCommand (js "kill-process") command true None st in
      (succeeded (js "Process " ++ JS.showPrim pid ++ js " terminated"), st)
  | (Rejected e, st) => (failure (e_message e), st)
  end.

Definition open (target : jsstring) (st : t) : result * t :=
  let command :=
    if bool_decide (platform st = js "darwin") then js "open " ++ JS.quoted target
    else if bool_decide (platform st = js "win32")
    then js "start " ++ JS.quoted [] ++ js " " ++ JS.quoted target
    else js "xdg-open " ++ JS.quoted target in
  let st := logger INFO (js "CMD") (js "Opening") [(js "target", target)] st in
  match run command no_options st with
  | (Resolved _ _, st) => (commandResult true None None None, st)
  | (Rejected e, st) => (failure (e_message e), st)
  end.

Definition emptyTrash (st : t) : result * t :=
  let command :=
    if bool_decide (platform st = js "darwin") then js "rm -rf ~/.Trash/*"
    else if bool_decide (platform st = js "win32")
    then js "PowerShell.exe -Command "
         ++ jsq "Clear-RecycleBin -Force -ErrorAction SilentlyContinue"
    else js "rm -rf ~/.local/share/Trash/*" in
  let st := logger INFO (js "CMD") (js "Emptying trash") [] st in
  match run command no_options st with
  | (Resolved _ _, st) =>
      let st := logCommand (js "empty-trash") command true None st in
      (succeeded (js "Trash emptied successfully"), st)
  | (Rejected e, st) => (failure (e_message e), st)
  end.

(** [getFolderSize(path)]: the size in bytes, 0 when the command fails
    or prints no number. *)
Definition getFolderSize (path : jsstring) (st : t) : Z * t :=
  if bool_decide (platform st = js "darwin") || bool_decide (platform st = js "linux")
  then
    match run (js "du -sk " ++ JS.quoted path ++ js " 2>/dev/null | cut -f1")
            no_options st with
    | (Resolved stdout _, st) => (default 0%Z (parseInt (JS.trim stdout)) * 1024, st)%Z
    | (Rejected _, st) => (0%Z, st)
    end
  else if bool_decide (platform st = js "win32") then
    match run (js "powershell "
               ++ JS.quoted (js "(Get-ChildItem '" ++ path
                             ++ js "' -Recurse -ErrorAction SilentlyContinue | Measure-Object -Property Length -Sum).Sum"))
            no_options st with
    | (Resolved stdout _, st) => (default 0%Z (parseInt (JS.trim stdout)), st)
    | (Rejected _, st) => (0%Z, st)
    end
  else (0%Z, st).

(** One round of the loop of [clearCaches] on macOS; a failure of the
    removal is ignored. *)
Definition clearOne (name path : jsstring) (acc : list jsstring * Z) (st : t)
    : list jsstring * Z * t :=
  let '(cleaned, totalFreed) := acc in
  let '(sizeBefore, st) := getFolderSize path st in
  match run (js "rm -rf " ++ JS.quoted path ++ js "/* 2>/dev/null") no_options st with
  | (Resolved _ _, st) =>
      let '(sizeAfter, st) := getFolderSize path st in
      let freed := (sizeBefore - sizeAfter)%Z in
      if (0 <? freed)%Z
      then (cleaned ++ [name ++ js ": " ++ formatBytes freed], (totalFreed + freed)%Z, st)
      else (cleaned, totalFreed, st)
  | (Rejected _, st) => (cleaned, totalFreed, st)
  end.

Definition clearCaches (st : t) : result * t :=
  if bool_decide (platform st = js "darwin") then
    let '(acc, st) := clearOne (js "User Caches") (homedir ++ js "/Library/Caches")
                        ([], 0%Z) st in
    let '(cleaned, totalFreed, st) :=
      clearOne (js "System Caches") (js "/Library/Caches") acc st in
    let st := logCommand (js "clear-caches") (js "macOS cache clear") true None st in
    match cleaned with
    | [] => (succeeded (js "Caches were already clean! No files to remove."), st)
    | _ :: _ =>
        (Result true None None None
           (Some (js "Cleaned " ++ formatBytes totalFreed ++ js " total"))
           None (Some (Cleaned cleaned)) false false false false, st)
    end
  else if bool_decide (platform st = js "win32") then
    let tempPath := match envTEMP with
                    | Some (c :: d) => c :: d
                    | _ => homedir ++ js "\AppData\Local\Temp"
                    end in
    let '(sizeBefore, st) := getFolderSize tempPath st in
    match run (js "del /q/f/s %TEMP%\* 2>nul") no_options st with
    | (Resolved _ _, st) =>
        let '(sizeAfter, st) := getFolderSize tempPath st in
        let freed := (sizeBefore - sizeAfter)%Z in
        let st := logCommand (js "clear-caches") (js "Windows temp clear") true None st in
        if (0 <? freed)%Z then
          (Result true None None None
             (Some (js "Cleaned " ++ formatBytes freed ++ js " of temp files"))
             None (Some (Cleaned [js "Temp folder: " ++ formatBytes freed]))
             false false false false, st)
        else (succeeded (js "Temp folder was already clean!"), st)
    | (Rejected e, st) => (failure (e_message e), st)
    end
  else (failure (js "Not supported on this platform"), st).

Definition flushDNS (st : t) : result * t :=
  let command :=
    if bool_decide (platform st = js "darwin")
    then js "sudo dscacheutil -flushcache && sudo killall -HUP mDNSResponder"
    else if bool_decide (platform st = js "win32") then js "ipconfig /flushdns"
    else js "sudo systemd-resolve --flush-caches" in
  let st := logger INFO (js "CMD") (js "Flushing DNS") [] st in
  match run command no_options st with
  | (Resolved _ _, st) =>
      let st := logCommand (js "flush-dns") command true None st in
      (succeeded (js "DNS cache flushed"), st)
  | (Rejected e, st) =>
      (Result false (Some (e_message e)) None None None None None false false false
         true, st)
  end.

(** [Object.keys(this.safeCommands)]: the keys of the table, in the
    order in which it lists them. *)
Definition commandKeys : list jsstring :=
  [ js "system-info"; js "disk-usage"; js "memory-info"; js "process-list";
    js "top-processes"; js "network-info"; js "dns-servers"; js "uptime";
    js "battery"; js "startup-apps"; js "installed-apps"; js "temp-files-size";
    js "browser-processes"; js "printer-status"; js "printer-queue" ].

(** [getAvailableCommands()]: each key with
    [!!this.safeCommands[key][this.platform]]. *)
Definition getAvailableCommands (st : t) : list (jsstring * bool) :=
  map (fun key =>
         (key, JS.truthyOpt
                 (safeCommands !! key ≫= fun commandMap => commandMap !! platform st)))
    commandKeys.

(** The methods of the executor that act on the system. *)
Inductive op :=
| RunSafeCommand (commandKey : jsstring)
| RunCustomCommand (command : jsstring) (options : custom_options)
| KillProcess (pid : JS.prim) (force : bool)
| KillProcessByName (name : jsstring)
| Open (target : jsstring)
| OpenApp (appName : jsstring)
| RestartApp (appName : jsstring)
| EmptyTrash
| ClearCaches
| FlushDNS.

Definition step (o : op) (st : t) : result * t :=
  match o with
  | RunSafeCommand k => runSafeCommand k st
  | RunCustomCommand c opts => runCustomCommand c opts st
  | KillProcess pid force => killProcess pid force st
  | KillProcessByName n => killProcessByName n st
  | Open target => open target st
  | OpenApp a => openApp a st
  | RestartApp a => restartApp a st
  | EmptyTrash => emptyTrash st
  | ClearCaches => clearCaches st
  | FlushDNS => flushDNS st
  end.


(** The methods that write a failed attempt into the history (for
    [restartApp], the step that closes the application may have been
    written before the reopening fails). *)
Definition recordsFailures (o : op) : bool :=
  match o with
  | RunSafeCommand _ | RunCustomCommand _ _ | RestartApp _ => true
  | _ => false
  end.

(** [st'] is [st] but for [n] more child processes (and the lines of
    the logger). *)
Definition sameButSpawned (st st' : t) (n : nat) : Prop :=
  platform st' = platform st
  /\ history st' = history st
  /\ clock st' = clock st
  /\ length (spawned st') = (length (spawned st) + n)%nat.

End Methods.

End CommandExecutor.

(** ** The solution engine *)

Module SolutionEngine.

(** A solution as it arrives from the renderer: any value; an object is
    the map of its own properties.  Numbers are integers. *)
Inductive value :=
| Prim (p : JS.prim)
| Obj (o : gmap jsstring JS.prim).

(** [!solution] *)
Definition falsy (v : value) : bool :=
  match v with
  | Prim p => negb (JS.truthyPrim p)
  | Obj _ => false
  end.

(** [solution.key], for a solution that is neither null nor undefined *)
Definition get (v : value) (key : string) : JS.prim :=
  match v with
  | Prim _ => JS.Undefined
  | Obj o => default JS.Undefined (o !! js key)
  end.

(** [{ success, error, message, action, details, userAction,
    requiresApproval }] *)
Definition solutionResult (success : bool) (error message action : option jsstring)
    (d : option details) (userAction requiresApproval : bool) : result :=
  Result success error None None message action d userAction false requiresApproval
    false.

(** What a method does: it returns a result or throws an [Error] with a
    message. *)
Inductive outcome :=
| Return (r : result)
| Throw (msg : jsstring).

Record audit_entry := Audit {
  a_timestamp : jsstring;
  a_action : jsstring;
  a_solution : value;            (* details, or details.solution *)
  a_error : option jsstring;     (* details.error *)
  a_platform : jsstring
}.

Record t := State {
  platform : jsstring;           (* process.platform *)
  auditLog : list audit_entry;
  spawned : list spawn;
  clock : nat
}.

Definition dangerousTypes : list jsstring :=
  [ js "delete-system-file"; js "modify-registry"; js "format-drive";
    js "disable-security" ].

Definition isSafe (solution : value) : bool :=
  negb (existsb (JS.isStr (get solution "type")) dangerousTypes).

Section Methods.

Variable execPromise : nat -> jsstring -> exec_options -> exec_outcome.
Variable now : nat -> jsstring.

Definition run (command : jsstring) (opts : exec_options) (st : t)
    : exec_outcome * t :=
  (execPromise (length (spawned st)) command opts,
   State (platform st) (auditLog st) (spawned st ++ [Spawn command opts]) (clock st)).

Definition log (action : jsstring) (solution : value) (error : option jsstring)
    (st : t) : t :=
  State (platform st)
    (auditLog st ++ [Audit (now (clock st)) action solution error (platform st)])
    (spawned st) (S (clock st)).

Definition getAuditLog (st : t) : list audit_entry := auditLog st.

Definition on (st : t) (p : string) : bool := bool_decide (platform st = js p).

Definition ok (msg : jsstring) (action : option jsstring) (d : option details)
    (userAction : bool) : outcome :=
  Return (solutionResult true None (Some msg) action d userAction false).

Definition killProcess (pid processName : JS.prim) (st : t) : outcome * t :=
  if negb (JS.truthyPrim pid) then (Throw (js "Process ID required"), st)
  else
    let command :=
      if on st "darwin" || on st "linux" then js "kill -9 " ++ JS.showPrim pid
      else js "taskkill /PID " ++ JS.showPrim pid ++ js " /F" in
    match run command no_options st with
    | (Resolved _ _, st) =>
        (ok (js "Successfully closed "
             ++ (if JS.truthyPrim processName then JS.showPrim processName
                 else js "the process"))
            (Some (js "process-killed"))
            (Some (ProcessDetails pid processName)) false, st)
    | (Rejected e, st) =>
        (Throw (js "Failed to close process: " ++ e_message e), st)
    end.

(** The commands of a list run one after the other; a failure is
    recorded and the next one still runs. *)
Fixpoint runAll (opts : exec_options) (commands : list (jsstring * jsstring))
    (st : t) : list command_result * t :=
  match commands with
  | [] => ([], st)
  | (name, cmd) :: rest =>
      let '(out, st) := run cmd opts st in
      let r := match out with
               | Resolved _ _ => CommandResult name true None
               | Rejected e => CommandResult name false (Some (e_message e))
               end in
      let '(rs, st) := runAll opts rest st in
      (r :: rs, st)
  end.

Definition countSuccess (rs : list command_result) : nat :=
  length (List.filter c_success rs).

Definition clearCache (cacheType : JS.prim) (st : t) : outcome * t :=
  let cacheType := match cacheType with JS.Undefined => JS.Str (js "all") | v => v end in
  let wants k := JS.isStr cacheType (js "all") || JS.isStr cacheType k in
  let '(results, st) :=
    if on st "darwin" then
      runAll no_options
        ((if wants (js "system")
          then [(js "System caches",
                 js "sudo purge 2>/dev/null || echo " ++ jsq "Requires admin")]
          else [])
         ++
         (if wants (js "dns")
          then [(js "DNS cache",
                 js "sudo dscacheutil -flushcache 2>/dev/null; sudo killall -HUP mDNSResponder 2>/dev/null || echo "
                 ++ jsq "DNS flushed")]
          else [])) st
    else if on st "win32" then
      runAll (ExecOptions None None None true)
        ((if wants (js "temp")
          then [(js "Temp files", js "del /q/f/s %TEMP%\* 2>nul")] else [])
         ++
         (if wants (js "dns")
          then [(js "DNS cache", js "ipconfig /flushdns")] else [])) st
    else ([], st) in
  (Return (solutionResult (forallb c_success results) None
             (Some (js "Cache clearing complete. "
                    ++ JS.showZ (Z.of_nat (countSuccess results)) ++ js "/"
                    ++ JS.showZ (Z.of_nat (length results)) ++ js " successful"))
             (Some (js "cache-cleared")) (Some (CommandResults results))
             false false), st).

Definition flushDNS (st : t) : outcome * t :=
  let command :=
    if on st "darwin" then js "sudo dscacheutil -flushcache; sudo killall -HUP mDNSResponder"
    else if on st "win32" then js "ipconfig /flushdns"
    else js "sudo systemctl restart systemd-resolved" in
  match run command no_options st with
  | (Resolved _ _, st) =>
      (ok (js "DNS cache has been cleared. This can help fix website loading issues.")
          (Some (js "dns-flushed")) None false, st)
  | (Rejected e, st) => (Throw (js "Failed to flush DNS: " ++ e_message e), st)
  end.

Definition restartService (serviceName : JS.prim) (st : t) : outcome * t :=
  if negb (JS.truthyPrim serviceName) then (Throw (js "Service name required"), st)
  else
    let name := JS.showPrim serviceName in
    let command :=
      if on st "darwin" then js "launchctl kickstart -k system/" ++ name
      else if on st "win32"
      then js "net stop " ++ JS.quoted name ++ js " && net start " ++ JS.quoted name
      else js "sudo systemctl restart " ++ name in
    match run command no_options st with
    | (Resolved _ _, st) =>
        (ok (js "Service " ++ name ++ js " has been restarted")
            (Some (js "service-restarted")) (Some (ServiceDetails serviceName))
            false, st)
    | (Rejected e, st) =>
        (Throw (js "Failed to restart service: " ++ e_message e), st)
    end.

Definition optimizeStartup (st : t) : outcome * t :=
  let opened command :=
    match run command no_options st with
    | (Resolved _ _, st) =>
        (ok (js "I've opened the startup items manager. You can disable programs you don't need at startup from here.")
            (Some (js "startup-manager-opened")) None true, st)
    | (Rejected e, st) =>
        (Throw (js "Failed to open startup manager: " ++ e_message e), st)
    end in
  if on st "darwin"
  then opened (js "open " ++ jsq "x-apple.systempreferences:com.apple.LoginItems-Settings.extension")
  else if on st "win32" then opened (js "taskmgr /7")
  else
    (Return (solutionResult false None
               (Some (js "Startup optimization is not available on this system"))
               (Some (js "startup-not-available")) None false false), st).

Definition diskCleanup (st : t) : outcome * t :=
  if on st "darwin" then
    match run (js "open -a " ++ jsq "System Preferences" ++ js " && sleep 1 && open "
               ++ jsq "x-apple.systempreferences:com.apple.settings.Storage")
              no_options st with
    | (Resolved _ _, st) =>
        (ok (js "I've opened the Storage Management settings. You can see what's taking up space and clean up from here.")
            (Some (js "storage-manager-opened")) None true, st)
    | (Rejected e, st) =>
        (Throw (js "Failed to open storage manager: " ++ e_message e), st)
    end
  else if on st "win32" then
    match run (js "cleanmgr") no_options st with
    | (Resolved _ _, st) =>
        (ok (js "I've opened Windows Disk Cleanup. Select the files you want to remove and click OK.")
            (Some (js "disk-cleanup-opened")) None true, st)
    | (Rejected e, st) =>
        (Throw (js "Failed to open disk cleanup: " ++ e_message e), st)
    end
  else
    (Return (solutionResult false None
               (Some (js "Disk cleanup is not available on this system"))
               None None false false), st).

Definition fixNetwork (action : JS.prim) (st : t) : outcome * t :=
  let commands :=
    if on st "darwin" then
      [ (js "Flush DNS", js "sudo dscacheutil -flushcache; sudo killall -HUP mDNSResponder");
        (js "Renew DHCP", js "sudo ipconfig set en0 DHCP") ]
    else if on st "win32" then
      [ (js "Flush DNS", js "ipconfig /flushdns");
        (js "Release IP", js "ipconfig /release");
        (js "Renew IP", js "ipconfig /renew");
        (js "Reset Winsock", js "netsh winsock reset") ]
    else [] in
  let '(results, st) := runAll no_options commands st in
  (Return (solutionResult (existsb c_success results) None
             (Some (js "Network reset complete. You may need to reconnect to WiFi."))
             (Some (js "network-reset")) (Some (CommandResults results))
             true false), st).

Definition emptyTrash (st : t) : outcome * t :=
  let command :=
    if on st "darwin" then js "rm -rf ~/.Trash/*"
    else if on st "win32" then js "rd /s /q %systemdrive%\$Recycle.Bin"
    else js "rm -rf ~/.local/share/Trash/*" in
  match run command no_options st with
  | (Resolved _ _, st) =>
      (ok (js "Trash has been emptied! This should free up some disk space.")
          (Some (js "trash-emptied")) None false, st)
  | (Rejected e, st) => (Throw (js "Failed to empty trash: " ++ e_message e), st)
  end.

Definition suggestRestart (st : t) : outcome * t :=
  if on st "darwin" then
    (ok (js "To restart your Mac, click the üçé Apple menu in the top-left corner and select 'Restart...'. This will refresh all your system processes.")
        None None true, st)
  else if on st "win32" then
    (ok (js "To restart your PC, click the Start button, select the Power icon, and then choose 'Restart'.")
        None None true, st)
  else (ok (js "Please restart your computer to apply changes.") None None false, st).

Definition suggestCloseApp (st : t) : outcome * t :=
  if on st "darwin" then
    match run (js "osascript -e "
               ++ JS.quoted (js "tell application \" ++ JS.dq ++ js "System Events\"
                             ++ JS.dq ++ js " to key code 53 using {command down, option down}"))
              no_options st with
    | (Resolved _ _, st) =>
        (ok (js "I've opened the 'Force Quit Applications' window. You can select apps that aren't responding or using too much memory and click 'Force Quit'.")
            None None true, st)
    | (Rejected _, st) =>
        (ok (js "You can find heavy apps by opening 'Activity Monitor' from your Applications/Utilities folder.")
            None None false, st)
    end
  else
    (ok (js "I recommend checking your Task Manager (Ctrl+Shift+Esc) to find and close programs that are using too much memory.")
        None None false, st).

(** [v === 'literal'] *)
Definition isLit (v : JS.prim) (literal : string) : bool := JS.isStr v (js literal).

(** The [switch] on the type of the solution. *)
Definition dispatch (solution : value) (st : t) : outcome * t :=
  let type := get solution "type" in
  if isLit type "kill-process"
  then killProcess (get solution "pid") (get solution "processName") st
  else if isLit type "clear-cache" then clearCache (get solution "cacheType") st
  else if isLit type "flush-dns" then flushDNS st
  else if isLit type "suggest-restart" then suggestRestart st
  else if isLit type "suggest-close-app" then suggestCloseApp st
  else if isLit type "suggest-cleanup" then diskCleanup st
  else if isLit type "suggest-diagnostics"
  then (ok (js "Diagnostics suggested") None None false, st)
  else if isLit type "restart-service" then restartService (get solution "serviceName") st
  else if isLit type "optimize-startup" then optimizeStartup st
  else if isLit type "disk-cleanup" then diskCleanup st
  else if isLit type "fix-network" then fixNetwork (get solution "action") st
  else if isLit type "empty-trash" then emptyTrash st
  else
    (Return (solutionResult false (Some (js "Unknown solution type: " ++ JS.showPrim type))
               None None None false false), st).

Definition execute (solution : value) (st : t) : outcome * t :=
  if falsy solution || negb (JS.truthyPrim (get solution "type")) then
    (Throw (js "Invalid solution provided"), st)
  else if negb (isSafe solution) then
    (Return (solutionResult false
               (Some (js "This action requires additional approval due to safety concerns"))
               None None None false true), st)
  else
    let st := log (js "execute") solution None st in
    match dispatch solution st with
    | (Return r, st) => (Return r, st)
    | (Throw msg, st) =>
        let st := log (js "error") solution (Some msg) st in
        (Return (solutionResult false (Some msg) None None None false false), st)
    end.

(** The types that the [switch] of [execute] serves. *)
Definition handledTypes : list jsstring :=
  [ js "kill-process"; js "clear-cache"; js "flush-dns"; js "suggest-restart";
    js "suggest-close-app"; js "suggest-cleanup"; js "suggest-diagnostics";
    js "restart-service"; js "optimize-startup"; js "disk-cleanup"; js "fix-network";
    js "empty-trash" ].

(** The commands of [fixNetwork] on Windows, in order. *)
Definition networkCommandsWindows : list jsstring :=
  [ js "ipconfig /flushdns"; js "ipconfig /release"; js "ipconfig /renew";
    js "netsh winsock reset" ].

(** [st'] is [st] but for the child processes [new], started in this
    order. *)
Definition starts (st st' : t) (new : list spawn) : Prop :=
  platform st' = platform st
  /\ auditLog st' = auditLog st
  /\ clock st' = clock st
  /\ spawned st' = spawned st ++ new.

End Methods.

End SolutionEngine.

(** ** The renderer: action tags and the agentic loop *)

Module RelayApp.

(** An action object: the map of its own properties.  *)
Abbreviation action := (gmap jsstring jsstring).

(** [action[key] = value], on an object created by [{}]: an assignment of
    a string to [__proto__] changes nothing. *)
Definition setProperty (a : action) (key value : jsstring) : action :=
  if bool_decide (key = js "__proto__") then a else <[key := value]> a.

(** [action.key] *)
Definition prop (a : action) (key : string) : option jsstring := a !! js key.

(** [action.type === 'literal'] *)
Definition hasType (a : action) (literal : string) : bool :=
  bool_decide (prop a "type" = Some (js literal)).

(** [/\[ACTION:\s*([^\]]+)\]/g] *)
Definition actionBlockRegex : Regex.regexp :=
  Regex.RegExp
    (Regex.chr "[ACTION:" ++ Regex.ws_star
     ++ Regex.group_plus (Regex.NotIn [Regex.CChar 93]) ++ Regex.chr "]")
    false true.

(** The regexp of one parameter, with the flag [g]: a group [(\w+)], the
    sign [=], a double quote, a group of one or more characters other
    than a double quote, and a double quote. *)
Definition paramRegex : Regex.regexp :=
  Regex.RegExp
    (Regex.group_plus (Regex.Single Regex.CWord) ++ Regex.chr "="
     ++ [Regex.Term (Regex.Single (Regex.CChar 34)) Regex.Once false]
     ++ Regex.group_plus (Regex.NotIn [Regex.CChar 34])
     ++ [Regex.Term (Regex.Single (Regex.CChar 34)) Regex.Once false])
    false true.

(** Capture [i] of a match, counted from 1. *)
Definition group (m : Regex.match_result) (i : nat) : jsstring :=
  nth (pred i) (Regex.m_groups m) [].

(** The inner loop of [parseAIResponse]: the parameters of one block.
    [lastIndex] is the property of [paramRegex]; the loop ends when
    [exec] returns null, and [None] is a run that is out of fuel. *)
Fixpoint readParams (fuel : nat) (actionContent : jsstring) (lastIndex : nat)
    (a : action) : option action :=
  match fuel with
  | O => None
  | S fuel =>
      match Regex.exec paramRegex lastIndex actionContent with
      | (Some paramMatch, lastIndex) =>
          readParams fuel actionContent lastIndex
            (setProperty a (group paramMatch 1) (group paramMatch 2))
      | (None, _) => Some a
      end
  end.

(** The outer loop of [parseAIResponse]. *)
Fixpoint readBlocks (fuel : nat) (responseText : jsstring) (lastIndex : nat)
    (text : jsstring) (actions : list action) : option (jsstring * list action) :=
  match fuel with
  | O => None
  | S fuel =>
      match Regex.exec actionBlockRegex lastIndex responseText with
      | (Some blockMatch, lastIndex) =>
          let actionContent := group blockMatch 1 in
          match readParams (S (length actionContent)) actionContent 0 ∅ with
          | Some a =>
              readBlocks fuel responseText lastIndex
                (JS.replaceFirst (Regex.m_text blockMatch) [] text)
                (if JS.truthyOpt (prop a "type") then actions ++ [a] else actions)
          | None => None
          end
      | (None, _) => Some (JS.trim text, actions)
      end
  end.

(** [parseAIResponse(responseText)] for a string: the text to display
    and the actions. *)
Definition parseAIResponse (responseText : jsstring)
    : option (jsstring * list action) :=
  readBlocks (S (length responseText)) responseText 0 responseText [].

(** The action object read from the content of one block. *)
Definition actionOf (actionContent : jsstring) : action :=
  default ∅ (readParams (S (length actionContent)) actionContent 0 ∅).

(** Texts made of prose and tags.  A tag is [[ACTION:], a body and
    []]; the body is not empty and holds no []]. *)
Definition tag (body : jsstring) : jsstring := js "[ACTION:" ++ body ++ js "]".

Definition isBody (body : jsstring) : Prop := body <> [] /\ 93 ∉ body.

(** Prose holds no [[]. *)
Definition isProse (prose : jsstring) : Prop := 91 ∉ prose.

#[global] Instance isBody_dec body : Decision (isBody body).
Proof. unfold isBody. apply _. Defined.

#[global] Instance isProse_dec prose : Decision (isProse prose).
Proof. unfold isProse. apply _. Defined.

(** [prose], then each tag followed by its prose. *)
Fixpoint render (prose : jsstring) (segments : list (jsstring * jsstring))
    : jsstring :=
  match segments with
  | [] => prose
  | (body, prose') :: rest => prose ++ tag body ++ render prose' rest
  end.

(** The same text without its tags. *)
Fixpoint proseOf (prose : jsstring) (segments : list (jsstring * jsstring))
    : jsstring :=
  match segments with
  | [] => prose
  | (_, prose') :: rest => prose ++ proseOf prose' rest
  end.

(** What the first capturing group holds for a tag: the body without
    its leading white space, or the last character of a body that is
    white space only. *)
Definition contentOf (body : jsstring) : jsstring :=
  match JS.trimStart body with
  | [] => match last body with Some c => [c] | None => [] end
  | core => core
  end.

(** [if (action.type)] *)
Definition typed (a : action) : bool := JS.truthyOpt (prop a "type").

(** Segments of well-formed tags, each followed by prose. *)
Definition segmentsOk (segments : list (jsstring * jsstring)) : Prop :=
  Forall (fun seg => isBody seg.1 /\ isProse seg.2) segments.

(** *** The world of the renderer *)

Record query_result := QueryResult { q_type : option jsstring; q_output : jsstring }.

(** [this.systemContext], as far as the loop writes it. *)
Record context := Context { lastQueryResult : option query_result }.

Record response := Response {
  r_text : option jsstring;
  r_error : bool;
  r_errorMessage : option jsstring;
  r_actions : option (list action)
}.

Inductive chat_outcome :=
| ChatResolved (r : response)
| ChatRejected.

Record scan_result := ScanResult {
  s_errors : option (list jsstring);     (* the message of each error *)
  s_crashes : option (list jsstring)     (* the app of each crash *)
}.

Inductive scan_outcome :=
| ScanResolved (r : scan_result)
| ScanRejected (msg : jsstring).

(** A call of [window.relay]; [Utility] is a call of
    [executeUtilityAction], which asks a utility of [window.relay] or
    answers by itself. *)
Inductive relay_call :=
| Chat (msg : jsstring) (ctx : context)
| RunSafeCommand (commandKey : jsstring)
| RunDeepScan
| Utility (a : action).

Inductive sender := User | Assistant.

Inductive ui_event :=
| ClearInput
| AddMessage (content : jsstring) (from : sender) (actions : list action)
| SetStatus (kind text : jsstring)
| ShowTypingIndicator
| RemoveTypingIndicator.

Record t := State {
  isProcessing : bool;
  systemContext : context;
  ui : list ui_event;             (* what the window was told, in order *)
  calls : list relay_call;        (* the calls of window.relay, in order *)
  main : CommandExecutor.t        (* the command executor of the main process *)
}.

(** The calls that consult the backend, and those that dispatch an
    action to the main process. *)
Definition isChat (c : relay_call) : bool :=
  match c with Chat _ _ => true | _ => false end.

Definition isDispatch (c : relay_call) : bool :=
  match c with RunSafeCommand _ | RunDeepScan => true | _ => false end.

Definition chats (l : list relay_call) : nat := length (List.filter isChat l).
Definition dispatches (l : list relay_call) : nat := length (List.filter isDispatch l).

(** A trace in which consultations and dispatches take turns:
    [expectChat] tells which of the two may come first. *)
Fixpoint alternates (expectChat : bool) (l : list relay_call) : bool :=
  match l with
  | [] => true
  | Chat _ _ :: l' => expectChat && alternates false l'
  | RunSafeCommand _ :: l' | RunDeepScan :: l' => negb expectChat && alternates true l'
  | Utility _ :: _ => false
  end.

Definition MAX_AGENTIC_STEPS : nat := 10.

Definition summaryMessage : jsstring :=
  js "I've run several diagnostics but haven't pinpointed the issue yet. Let me summarize what I found and we can discuss next steps.".

Definition queryLabels : gmap jsstring jsstring :=
  list_to_map [
    (js "system-info", js "Checking system info");
    (js "disk-usage", js "Checking disk usage");
    (js "memory-info", js "Checking memory");
    (js "process-list", js "Getting process list");
    (js "top-processes", js "Finding top memory users");
    (js "network-info", js "Checking network");
    (js "uptime", js "Checking uptime");
    (js "battery", js "Checking battery");
    (js "startup-apps", js "Getting startup apps");
    (js "installed-apps", js "Getting installed apps");
    (js "temp-files-size", js "Checking temp files");
    (js "browser-processes", js "Finding browser processes");
    (js "printer-status", js "Checking printer status");
    (js "printer-queue", js "Checking print queue") ].

Definition typeIn (types : list jsstring) (a : action) : bool :=
  match prop a "type" with
  | Some ty => bool_decide (ty ∈ types)
  | None => false
  end.

Definition autoExecTypes : list jsstring := [js "query-system"; js "run-deep-scan"].

Definition utilityActionTypes : list jsstring :=
  [ js "generate-password"; js "generate-qrcode"; js "file-hash"; js "text-stats";
    js "format-json"; js "base64-encode"; js "base64-decode"; js "convert-case" ].

(** [a.type === 'query-system' && a.queryType] *)
Definition isQuery (a : action) : bool :=
  hasType a "query-system" && JS.truthyOpt (prop a "queryType").

(** The text handed to the backend after a query: the three branches of
    [executeQueryActionAgentic]. *)
Definition systemResult (queryType : option jsstring) (r : result) : jsstring :=
  let head := js "[SYSTEM_RESULT: queryType=" ++ JS.quoted (JS.show queryType) in
  if success r && JS.truthyOpt (output r) then
    head ++ js " output=" ++ JS.quoted (JS.substring0 1500 (default [] (output r))) ++ js "]"
  else if JS.truthyOpt (error r) then
    head ++ js " error=" ++ JS.quoted (default [] (error r)) ++ js "]"
  else head ++ js " output=" ++ jsq "No data returned" ++ js "]".

(** [results.crashes.map(c => c.app).join(', ')] *)
Fixpoint join (sep : jsstring) (l : list jsstring) : jsstring :=
  match l with
  | [] => []
  | [x] => x
  | x :: l' => x ++ sep ++ join sep l'
  end.

Definition scanSummary (r : scan_result) : jsstring :=
  let errorCount := length (default [] (s_errors r)) in
  let crashCount := length (default [] (s_crashes r)) in
  js "Errors: " ++ JS.showZ (Z.of_nat errorCount) ++ js ", Crashes: "
  ++ JS.showZ (Z.of_nat crashCount) ++ js ". "
  ++ (if (0 <? crashCount)%nat
      then js "Crashing apps: " ++ join (js ", ") (default [] (s_crashes r)) ++ js ". "
      else [])
  ++ (if (errorCount =? 0)%nat && (crashCount =? 0)%nat
      then js "System logs are clean." else []).

(** The text of a list of parameters as a tag holds it: [key="value"],
    one space between two parameters. *)
Definition renderParam (kv : jsstring * jsstring) : jsstring :=
  kv.1 ++ js "=" ++ JS.quoted kv.2.

Definition renderParams (kvs : list (jsstring * jsstring)) : jsstring :=
  join (js " ") (map renderParam kvs).

(** The same parameters, each after a space. *)
Definition spaced (kvs : list (jsstring * jsstring)) : jsstring :=
  concat (map (fun kv => 32 :: renderParam kv) kvs).

(** A parameter the parser reads back: the key is a word, the value is
    not empty and holds no double quote. *)
Definition isParam (kv : jsstring * jsstring) : Prop :=
  kv.1 <> [] /\ Forall (fun c => JS.isWord c = true) kv.1
  /\ kv.2 <> [] /\ 34 ∉ kv.2.

(** The object built by assigning the parameters in order. *)
Definition objectOf (kvs : list (jsstring * jsstring)) : action :=
  foldl (fun a kv => setProperty a kv.1 kv.2) ∅ kvs.

(** The text that opens a tag. *)
Definition marker : jsstring := js "[ACTION:".

(** The body of a tag written in the grammar: a space, then the
    parameters. *)
Definition written (kvs : list (jsstring * jsstring)) : jsstring :=
  32 :: renderParams kvs.

(** A parameter of a tag: one the parser reads back, whose value holds
    no []]. *)
Definition isTagParam (kv : jsstring * jsstring) : Prop :=
  isParam kv /\ 93 ∉ kv.2.

(** The parameters as written hold the key [type]. *)
Definition hasTypeKey (kvs : list (jsstring * jsstring)) : bool :=
  bool_decide (js "type" ∈ kvs.*1).

(** What the renderer does not decide: the backend, the log analyzer
    and the utilities answer the [n]-th call of [window.relay]; the
    child processes and the clock are those of the command executor.
    The report of a scan outside the loop states dates in the locale of
    the machine; its text is left open. *)
Record world := World {
  chat : nat -> jsstring -> context -> chat_outcome;
  runDeepScan : nat -> scan_outcome;
  executeUtilityAction : nat -> action -> option jsstring;
  execAsync : nat -> jsstring -> exec_options -> exec_outcome;
  now : nat -> jsstring;
  scanReport : scan_result -> jsstring
}.

Section Loop.

Variable w : world.

Definition emit (e : ui_event) (st : t) : t :=
  State (isProcessing st) (systemContext st) (ui st ++ [e]) (calls st) (main st).

Definition addMessage (content : jsstring) (from : sender) (actions : list action)
    (st : t) : t := emit (AddMessage content from actions) st.

Definition setStatus (kind text : string) (st : t) : t :=
  emit (SetStatus (js kind) (js text)) st.

Definition setProcessing (b : bool) (st : t) : t :=
  State b (systemContext st) (ui st) (calls st) (main st).

Definition called (c : relay_call) (st : t) : t :=
  State (isProcessing st) (systemContext st) (ui st) (calls st ++ [c]) (main st).

(** [window.relay.chat(message, this.systemContext)] *)
Definition relayChat (msg : jsstring) (st : t) : chat_outcome * t :=
  (chat w (length (calls st)) msg (systemContext st),
   called (Chat msg (systemContext st)) st).

(** [window.relay.runSafeCommand(commandKey)]: the handler of the main
    process calls the command executor. *)
Definition relayRunSafeCommand (commandKey : option jsstring) (st : t) : result * t :=
  let key := JS.show commandKey in
  let '(r, m) := CommandExecutor.runSafeCommand (execAsync w) (now w) key (main st) in
  (r, State (isProcessing st) (systemContext st) (ui st)
        (calls st ++ [RunSafeCommand key]) m).

Definition relayRunDeepScan (st : t) : scan_outcome * t :=
  (runDeepScan w (length (calls st)), called RunDeepScan st).

Definition relayUtility (a : action) (st : t) : option jsstring * t :=
  (executeUtilityAction w (length (calls st)) a, called (Utility a) st).

(** The three methods of the loop call each other; [fuel] bounds the
    depth of the calls and [None] is a run that is out of fuel.  The
    label of the status line is read from the own properties of
    [queryLabels]: for a query type that names a property every object
    inherits, such as [constructor], the window would show the text of
    that property, which the status event does not record. *)
Fixpoint processSystemMessage (fuel : nat) (systemMessage : jsstring)
    (stepCount : nat) (st : t) {struct fuel} : option t :=
  match fuel with
  | O => None
  | S fuel =>
      if (stepCount =? 0)%nat && isProcessing st then Some st
      else if (MAX_AGENTIC_STEPS <=? stepCount)%nat then
        Some (setProcessing false (addMessage summaryMessage Assistant [] st))
      else
        let st := setProcessing true st in
        let st := emit (SetStatus (js "busy")
                          (js "Analyzing... (step " ++ JS.showZ (Z.of_nat (stepCount + 1)%nat)
                           ++ js ")")) st in
        let st := emit ShowTypingIndicator st in
        let failed st :=
          setProcessing false (setStatus "error" "Error" (emit RemoveTypingIndicator st)) in
        match relayChat systemMessage st with
        | (ChatRejected, st) => Some (failed st)
        | (ChatResolved response, st) =>
            let st := emit RemoveTypingIndicator st in
            if r_error response then
              Some (setProcessing false (setStatus "error" "Analysis failed" st))
            else
              match r_text response with
              | None => Some (failed st)   (* [undefined.trim()] throws *)
              | Some responseText =>
                  match parseAIResponse responseText with
                  | None => None
                  | Some (text, actions) =>
                      let userActions :=
                        List.filter (fun a => negb (typeIn autoExecTypes a)) actions in
                      let st := addMessage text Assistant
                                  (default [] (r_actions response) ++ userActions) st in
                      let queryActions := List.filter isQuery actions in
                      let deepScanActions :=
                        List.filter (fun a => hasType a "run-deep-scan") actions in
                      let st := setProcessing false st in
                      match queryActions, deepScanActions with
                      | q :: _, _ => executeQueryActionAgentic fuel q (stepCount + 1)%nat st
                      | [], _ :: _ => executeDeepScan fuel (Some (stepCount + 1)%nat) st
                      | [], [] => Some (setStatus "online" "Ready to help" st)
                      end
                  end
              end
        end
  end

with executeQueryActionAgentic (fuel : nat) (a : action) (stepCount : nat)
    (st : t) {struct fuel} : option t :=
  match fuel with
  | O => None
  | S fuel =>
      let queryType := prop a "queryType" in
      let label := default (js "Gathering info") (queryLabels !! JS.show queryType) in
      let st := emit (SetStatus (js "busy") (label ++ js "...")) st in
      let '(r, st) := relayRunSafeCommand queryType st in
      let st :=
        if success r && JS.truthyOpt (output r) then
          State (isProcessing st)
            (Context (Some (QueryResult queryType
                              (JS.substring0 2000 (default [] (output r))))))
            (ui st) (calls st) (main st)
        else st in
      processSystemMessage fuel (systemResult queryType r) stepCount st
  end

with executeDeepScan (fuel : nat) (agenticStepCount : option nat) (st : t)
    {struct fuel} : option t :=
  match fuel with
  | O => None
  | S fuel =>
      let st := setStatus "busy" "Analyzing logs..." st in
      let st := addMessage
                  (js "Running deep system scan... checking logs and crash reports 🩺")
                  Assistant [] st in
      let st := emit ShowTypingIndicator st in
      match relayRunDeepScan st with
      | (ScanResolved results, st) =>
          let st := emit RemoveTypingIndicator st in
          match agenticStepCount with
          | Some stepCount =>
              processSystemMessage fuel
                (js "[SYSTEM_RESULT: queryType=" ++ jsq "deep-scan" ++ js " output="
                 ++ JS.quoted (scanSummary results) ++ js "]") stepCount st
          | None =>
              Some (setStatus "online" "Ready to help"
                      (addMessage (scanReport w results) Assistant [] st))
          end
      | (ScanRejected msg, st) =>
          let st := emit RemoveTypingIndicator st in
          let st := addMessage (js "❌ Scan failed: " ++ msg) Assistant [] st in
          Some (setStatus "error" "Scan error" st)
      end
  end.

(** Fuel for a run of the loop from step 0. *)
Definition enough : nat := (2 * MAX_AGENTIC_STEPS + 2)%nat.

Definition executeQueryAction (a : action) (st : t) : option t :=
  executeQueryActionAgentic enough a 0 st.

Definition openSettings : action := {[ js "type" := js "open-settings" ]}.

(** The [for] loop over the utility actions of [sendMessage]. *)
Fixpoint showUtilityResults (utilityActions : list action) (text : jsstring)
    (otherActions allActions : list action) (st : t) : t :=
  match utilityActions with
  | [] => st
  | a :: rest =>
      let '(r, st) := relayUtility a st in
      let st :=
        if JS.truthyOpt r
        then addMessage (text ++ JS.nl ++ JS.nl ++ default [] r) Assistant otherActions st
        else addMessage text Assistant allActions st in
      showUtilityResults rest text otherActions allActions st
  end.

(** The [for] loop of [sendMessage] that executes the query actions. *)
Fixpoint autoExecute (actions : list action) (st : t) : option t :=
  match actions with
  | [] => Some st
  | a :: rest =>
      if isQuery a then
        match executeQueryAction a st with
        | Some st => autoExecute rest st
        | None => None
        end
      else autoExecute rest st
  end.

(** [sendMessage()], with [input] the value of the message box. *)
Definition sendMessage (input : jsstring) (st : t) : option t :=
  let message := JS.trim input in
  if negb (JS.truthy message) || isProcessing st then Some st
  else
    let st := emit ClearInput st in
    let st := addMessage message User [] st in
    let st := setProcessing true st in
    let st := setStatus "busy" "Thinking..." st in
    let st := emit ShowTypingIndicator st in
    let caught st :=
      let st := emit RemoveTypingIndicator st in
      let st := addMessage
                  (js "I'm having trouble right now. Let me try a fresh start. Can you describe the problem again?")
                  Assistant [] st in
      setStatus "error" "Connection issue" st in
    let finally st := setProcessing false st in
    match relayChat message st with
    | (ChatRejected, st) => Some (finally (caught st))
    | (ChatResolved response, st) =>
        let st := emit RemoveTypingIndicator st in
        if r_error response then
          let errorText :=
            if JS.truthyOpt (r_text response) then default [] (r_text response)
            else js "Sorry, something went wrong." in
          let st :=
            if JS.truthyOpt (r_errorMessage response) then
              let errorMessage := default [] (r_errorMessage response) in
              if JS.includes (js "API key") errorMessage then
                addMessage
                  (js "⚠️ **API Key Issue**" ++ JS.nl ++ JS.nl
                   ++ js "It looks like there's a problem with the API key. Please click the ⚙️ Settings button to configure your Gemini API key.")
                  Assistant [openSettings] st
              else if JS.includes (js "quota") errorMessage
                      || JS.includes (js "429") errorMessage then
                addMessage
                  (js "⚠️ **Rate Limit Reached**" ++ JS.nl ++ JS.nl
                   ++ js "You've hit the API rate limit. Please wait a moment before trying again, or consider upgrading your API plan.")
                  Assistant [] st
              else if JS.includes (js "404") errorMessage then
                addMessage
                  (js "⚠️ **Model Not Found**" ++ JS.nl ++ JS.nl
                   ++ js "The AI model isn't available. Try checking your API settings.")
                  Assistant [openSettings] st
              else
                addMessage
                  (errorText ++ JS.nl ++ JS.nl ++ js "_Error: " ++ errorMessage ++ js "_")
                  Assistant [] st
            else addMessage errorText Assistant [] st in
          Some (finally (setStatus "error" "AI error" st))
        else
          match r_text response with
          | None => Some (finally (caught st))   (* [undefined.trim()] throws *)
          | Some responseText =>
              match parseAIResponse responseText with
              | None => None
              | Some (text, actions) =>
                  let utilityActions := List.filter (typeIn utilityActionTypes) actions in
                  let otherActions :=
                    List.filter (fun a => negb (typeIn utilityActionTypes a)) actions in
                  let allActions := default [] (r_actions response) ++ actions in
                  let st :=
                    match utilityActions with
                    | _ :: _ =>
                        showUtilityResults utilityActions text otherActions allActions st
                    | [] => addMessage text Assistant allActions st
                    end in
                  match autoExecute actions st with
                  | Some st => Some (finally (setStatus "online" "Ready to help" st))
                  | None => None
                  end
              end
          end
    end.

(** What a run adds to the trace of the calls: [new], in which
    consultations and dispatches take turns, with at most [maxChats]
    of the first and [maxDispatches] of the second, and of the shape
    [P]. *)
Definition extends (P : list relay_call -> Prop) (expectChat : bool)
    (maxChats maxDispatches : nat) (st st' : t) : Prop :=
  exists new,
    calls st' = calls st ++ new
    /\ alternates expectChat new = true
    /\ (chats new <= maxChats)%nat
    /\ (dispatches new <= maxDispatches)%nat
    /\ P new.

(** The trace is empty or starts with the call [c]. *)
Definition beginsWith (c : relay_call) (new : list relay_call) : Prop :=
  match new with
  | [] => True
  | c' :: _ => c' = c
  end.

(** The trace of [executeQueryActionAgentic] from the state [st]: the
    command is dispatched, and a consultation that follows carries the
    text built from the result of the command, in a context whose last
    query result is the one of before or holds at most 2000 characters
    of output. *)
Definition queryTrace (queryType : option jsstring) (st : t)
    (new : list relay_call) : Prop :=
  exists r rest,
    new = RunSafeCommand (JS.show queryType) :: rest
    /\ match rest with
       | [] => True
       | c :: _ =>
           exists ctx,
             c = Chat (systemResult queryType r) ctx
             /\ (lastQueryResult ctx = lastQueryResult (systemContext st)
                 \/ exists out,
                      lastQueryResult ctx = Some (QueryResult queryType out)
                      /\ (length out <= 2000)%nat)
       end.

(** The action of a response that [processSystemMessage] dispatches:
    the first query action, or else a deep scan when an action asks for
    one. *)
Definition dispatchedBy (actions : list action) : option relay_call :=
  match List.filter isQuery actions with
  | q :: _ => Some (RunSafeCommand (JS.show (prop q "queryType")))
  | [] =>
      match List.filter (fun a => hasType a "run-deep-scan") actions with
      | _ :: _ => Some RunDeepScan
      | [] => None
      end
  end.

(** A backend that answers every message with a text that holds a
    query action. *)
Definition actionBearing : Prop :=
  forall n msg ctx,
    exists r text display actions q rest,
      chat w n msg ctx = ChatResolved r
      /\ r_error r = false /\ r_text r = Some text
      /\ parseAIResponse text = Some (display, actions)
      /\ List.filter isQuery actions = q :: rest.

End Loop.

(** *** Worlds and states for examples *)

(** The tag of a query action, and the tag of an action without
    parameters. *)
Definition queryTag (queryType : string) : jsstring :=
  js "[ACTION: type=" ++ jsq "query-system" ++ js " queryType="
  ++ JS.quoted (js queryType) ++ js "]".

Definition plainTag (type : string) : jsstring :=
  js "[ACTION: type=" ++ JS.quoted (js type) ++ js "]".

(** The backend always answers [reply]; every command prints [stdout];
    a scan finds nothing. *)
Definition steady (reply stdout : jsstring) : world :=
  World (fun _ _ _ => ChatResolved (Response (Some reply) false None None))
    (fun _ => ScanResolved (ScanResult None None))
    (fun _ _ => None)
    (fun _ _ _ => Resolved stdout [])
    (fun n => JS.showZ (Z.of_nat n))
    (fun _ => []).

(** The renderer at rest, the executor fresh. *)
Definition idle (platform : string) : t :=
  State false (Context None) [] [] (CommandExecutor.State (js platform) [] [] [] 0).

Definition query (queryType : string) : action :=
  {[ js "type" := js "query-system"; js "queryType" := js queryType ]}.

End RelayApp.

(** ** Confirmed actions: the renderer and the main process together

    An action that is not executed by itself waits in the confirmation
    modal; the button of the modal hands it to [executeApprovedAction]
    or to [executeSolution], which call the command executor or the
    solution engine through the handlers of the main process.  The texts
    of the modal are not modelled. *)

Module Desktop.

Record t := State {
  app : RelayApp.t;                 (* the renderer, with the command executor *)
  engine : SolutionEngine.t;        (* the solution engine of the main process *)
  modalActive : bool;               (* the modal is shown *)
  onConfirm : option RelayApp.action  (* the action held by modalConfirm.onclick *)
}.

(** The types that [executeApprovedAction] serves. *)
Definition approvedTypes : list jsstring :=
  [ js "kill-process"; js "clear-caches"; js "empty-trash"; js "flush-dns";
    js "open-app"; js "restart-app" ].

(** An action object as the solution engine receives it. *)
Definition solutionOf (a : RelayApp.action) : SolutionEngine.value :=
  SolutionEngine.Obj (JS.Str <$> a).

(** What [ipcRenderer.invoke] gives: the value the handler returns, or
    a rejection when the handler throws. *)
Inductive invoked :=
| Fulfilled (r : result)
| Failed (msg : jsstring).

(** [result.details.map(d => `• ${d}`)] *)
Definition detailLines (d : option details) : list jsstring :=
  match d with
  | Some (Cleaned lines) => map (fun line => js "• " ++ line) lines
  | Some (CommandResults results) => map (fun _ => js "• [object Object]") results
  | _ => []
  end.

Section Flow.

Variable w : RelayApp.world.
Variable homedir : jsstring.
Variable envTEMP : option jsstring.
Variable parseInt : jsstring -> option Z.
Variable formatBytes : Z -> jsstring.
(** The child processes and the clock of the solution engine. *)
Variable execPromise : nat -> jsstring -> exec_options -> exec_outcome.
Variable engineNow : nat -> jsstring.
(** The message of the error with which [invoke] rejects on a channel
    whose handler throws a [TypeError]: its text is the one of the
    runtime. *)
Variable invokeError : jsstring -> jsstring.

Definition withMain (a : RelayApp.t) (m : CommandExecutor.t) : RelayApp.t :=
  RelayApp.State (RelayApp.isProcessing a) (RelayApp.systemContext a) (RelayApp.ui a)
    (RelayApp.calls a) m.

(** The handler of [execute-solution]: an error thrown by [execute] is
    returned as [{ error }], in which [success] is absent; the renderer
    reads it as false. *)
Definition executeSolutionHandler (solution : SolutionEngine.value)
    (e : SolutionEngine.t) : result * SolutionEngine.t :=
  match SolutionEngine.execute execPromise engineNow solution e with
  | (SolutionEngine.Return r, e) => (r, e)
  | (SolutionEngine.Throw msg, e) => (failure msg, e)
  end.

(** The call of the main process that [executeApprovedAction] makes for
    an action; a name that is undefined makes [name.replace] throw in
    the handler. *)
Definition invoke (a : RelayApp.action) (m : CommandExecutor.t)
    : invoked * CommandExecutor.t :=
  let fulfilled (p : result * CommandExecutor.t) := (Fulfilled p.1, p.2) in
  if RelayApp.hasType a "kill-process" then
    match RelayApp.prop a "processName" with
    | Some name =>
        fulfilled (CommandExecutor.killProcessByName (RelayApp.execAsync w)
                     (RelayApp.now w) name m)
    | None => (Failed (invokeError (js "kill-process-by-name")), m)
    end
  else if RelayApp.hasType a "clear-caches" then
    fulfilled (CommandExecutor.clearCaches (RelayApp.execAsync w) (RelayApp.now w)
                 homedir envTEMP parseInt formatBytes m)
  else if RelayApp.hasType a "empty-trash" then
    fulfilled (CommandExecutor.emptyTrash (RelayApp.execAsync w) (RelayApp.now w) m)
  else if RelayApp.hasType a "flush-dns" then
    fulfilled (CommandExecutor.flushDNS (RelayApp.execAsync w) (RelayApp.now w) m)
  else if RelayApp.hasType a "open-app" then
    match RelayApp.prop a "appName" with
    | Some appName =>
        fulfilled (CommandExecutor.openApp (RelayApp.execAsync w) (RelayApp.now w)
                     appName m)
    | None => (Failed (invokeError (js "open-app")), m)
    end
  else if RelayApp.hasType a "restart-app" then
    match RelayApp.prop a "appName" with
    | Some appName =>
        fulfilled (CommandExecutor.restartApp (RelayApp.execAsync w) (RelayApp.now w)
                     appName m)
    | None =>
        (Failed (invokeError (js "restart-app")),
         CommandExecutor.logger INFO (js "CMD") (js "Restarting App") [] m)
    end
  else (Fulfilled (failure (js "Unknown action type")), m).

Definition executeApprovedAction (a : RelayApp.action) (st : t) : t :=
  let r := RelayApp.setStatus "busy" "Executing..." (app st) in
  let '(outcome, m) := invoke a (RelayApp.main r) in
  let r := withMain r m in
  match outcome with
  | Fulfilled res =>
      let r :=
        if success res then
          let text :=
            js "✅ " ++ (if JS.truthyOpt (message res) then default [] (message res)
                         else js "Done!") in
          let text :=
            match detailLines (r_details res) with
            | [] => text
            | lines =>
                text ++ JS.nl ++ JS.nl ++ js "**Cleaned:**" ++ JS.nl
                ++ RelayApp.join JS.nl lines
            end in
          RelayApp.addMessage text RelayApp.Assistant [] r
        else
          RelayApp.addMessage
            (js "❌ " ++ (if JS.truthyOpt (error res) then default [] (error res)
                          else js "Action failed"))
            RelayApp.Assistant [] r in
      State (RelayApp.setStatus "online" "Ready to help" r) (engine st)
        (modalActive st) (onConfirm st)
  | Failed msg =>
      let r := RelayApp.addMessage (js "❌ Error: " ++ msg) RelayApp.Assistant [] r in
      State (RelayApp.setStatus "error" "Action failed" r) (engine st)
        (modalActive st) (onConfirm st)
  end.

Definition executeSolution (solution : RelayApp.action) (st : t) : t :=
  let r := RelayApp.setStatus "busy" "Working on it..." (app st) in
  let r := RelayApp.addMessage (js "On it! Let me take care of that... ⚙️")
             RelayApp.Assistant [] r in
  let '(res, e) := executeSolutionHandler (solutionOf solution) (engine st) in
  let r :=
    if success res then
      let r := RelayApp.addMessage (js "✅ **Done!** " ++ JS.show (message res))
                 RelayApp.Assistant [] r in
      if userAction res
      then RelayApp.addMessage
             (js "I've opened a window for you. Let me know when you're done!")
             RelayApp.Assistant [] r
      else r
    else if requiresApproval res then
      RelayApp.addMessage
        (js "⚠️ This action requires special permissions. " ++ JS.show (error res))
        RelayApp.Assistant [] r
    else
      RelayApp.addMessage
        (js "❌ Sorry, that didn't work: " ++ JS.show (error res)
         ++ js ". Let's try something else.")
        RelayApp.Assistant [] r in
  State (RelayApp.setStatus "online" "Ready to help" r) e (modalActive st) (onConfirm st).

Definition showActionConfirmation (a : RelayApp.action) (st : t) : t :=
  State (app st) (engine st) true (Some a).

Definition hideModal (st : t) : t :=
  State (app st) (engine st) false (onConfirm st).

(** [modalConfirm.onclick] *)
Definition confirm (st : t) : t :=
  match onConfirm st with
  | Some a =>
      let st := hideModal st in
      if RelayApp.typeIn approvedTypes a then executeApprovedAction a st
      else executeSolution a st
  | None => st
  end.

End Flow.

End Desktop.

(** * Properties *)

(** ** The matcher against the language of a pattern *)

Section RegexFacts.

Context {R : Type}.
Implicit Types (ok : N -> bool) (k : jsstring -> jsstring -> option R).

Lemma many_sound ok k s : forall taken r,
  Regex.many ok k taken s = Some r ->
  exists run rest,
    s = run ++ rest /\ forallb ok run = true /\ k (taken ++ run) rest = Some r.
Proof.
  induction s as [|x s IH]; intros taken r; simpl.
  - intros H. exists [], []. split_and!; [done..|by rewrite app_nil_r].
  - destruct (ok x) eqn:Hx.
    + destruct (Regex.many ok k (taken ++ [x]) s) as [r'|] eqn:Hm.
      * intros [= ->]. destruct (IH _ _ Hm) as (run & rest & -> & Hall & Hk).
        exists (x :: run), rest. simpl. rewrite Hx, Hall.
        by rewrite <- app_assoc in Hk.
      * intros H. exists [], (x :: s). split_and!; [done..|by rewrite app_nil_r].
    + intros H. exists [], (x :: s). split_and!; [done..|by rewrite app_nil_r].
Qed.

Lemma many_fallback ok k taken s :
  is_Some (k taken s) -> is_Some (Regex.many ok k taken s).
Proof.
  destruct s as [|x s]; simpl; [done|].
  destruct (ok x); [|done].
  by destruct (Regex.many ok k (taken ++ [x]) s).
Qed.

Lemma many_complete ok k run : forall taken rest,
  forallb ok run = true ->
  is_Some (k (taken ++ run) rest) ->
  is_Some (Regex.many ok k taken (run ++ rest)).
Proof.
  induction run as [|x run IH]; intros taken rest Hall Hk; simpl in *.
  - rewrite app_nil_r in Hk. by apply many_fallback.
  - apply andb_prop in Hall as [Hx Hall]. rewrite Hx.
    assert (Hrec : is_Some (Regex.many ok k (taken ++ [x]) (run ++ rest))).
    { apply IH; [done|]. by rewrite <- app_assoc. }
    by destruct Hrec as [r ->].
Qed.

(** A greedy repetition stops at the first character outside the set
    when the rest of the pattern accepts what follows. *)
Lemma many_greedy ok k run : forall taken rest r,
  forallb ok run = true ->
  match rest with [] => True | y :: _ => ok y = false end ->
  k (taken ++ run) rest = Some r ->
  Regex.many ok k taken (run ++ rest) = Some r.
Proof.
  induction run as [|x run IH]; intros taken rest r Hall Hstop Hk; simpl in *.
  - rewrite app_nil_r in Hk. destruct rest as [|y rest]; simpl; [done|].
    by rewrite Hstop.
  - apply andb_prop in Hall as [Hx Hall]. rewrite Hx.
    rewrite (IH (taken ++ [x]) rest r); [done..|].
    by rewrite <- app_assoc.
Qed.

(** A greedy repetition gives back its last character when the rest of
    the pattern fails without it. *)
Lemma many_backtrack_one ok k run :
  forall taken y rest r,
  forallb ok run = true -> ok y = true ->
  match rest with [] => True | z :: _ => ok z = false end ->
  k (taken ++ run ++ [y]) rest = None ->
  k (taken ++ run) (y :: rest) = Some r ->
  Regex.many ok k taken (run ++ y :: rest) = Some r.
Proof.
  induction run as [|x run IH]; intros taken y rest r Hall Hy Hstop Hnone Hk;
    simpl in *.
  - rewrite Hy. rewrite app_nil_r in Hk.
    assert (Hm : Regex.many ok k (taken ++ [y]) rest = None).
    { destruct rest as [|z rest]; simpl; [done|]. by rewrite Hstop. }
    by rewrite Hm.
  - apply andb_prop in Hall as [Hx Hall]. rewrite Hx.
    rewrite (IH (taken ++ [x]) y rest r); [done..| |]; by rewrite <- app_assoc.
Qed.

End RegexFacts.

Lemma match_here_sound ic p : forall s m caps rest,
  Regex.match_here ic p s = Some (m, caps, rest) ->
  s = m ++ rest /\ Regex.matches ic p m.
Proof.
  induction p as [|t p IH]; intros s m caps rest; simpl.
  - intros [= <- <- <-]. split; [done|constructor].
  - destruct (Regex.t_quant t) eqn:Hq.
    + destruct s as [|x s]; [done|].
      destruct (Regex.cset_mem ic (Regex.t_set t) x) eqn:Hx; [|done].
      destruct (Regex.match_here ic p s) as [[[m' caps'] r]|] eqn:Hm; [|done].
      intros [= <- <- <-]. destruct (IH _ _ _ _ Hm) as [-> Hmatch].
      split; [done|]. by apply Regex.matches_once.
    + intros H. apply many_sound in H as (run & rest0 & -> & Hall & Hk).
      destruct (Regex.match_here ic p rest0) as [[[m' caps'] r]|] eqn:Hm; [|done].
      injection Hk as <- <- <-. destruct (IH _ _ _ _ Hm) as [-> Hmatch].
      split; [by rewrite app_assoc|]. by apply Regex.matches_star.
    + destruct s as [|x s]; [done|].
      destruct (Regex.cset_mem ic (Regex.t_set t) x) eqn:Hx; [|done].
      intros H. apply many_sound in H as (run & rest0 & -> & Hall & Hk).
      destruct (Regex.match_here ic p rest0) as [[[m' caps'] r]|] eqn:Hm; [|done].
      injection Hk as <- <- <-. destruct (IH _ _ _ _ Hm) as [-> Hmatch].
      split; [by simpl; rewrite app_assoc|].
      apply (Regex.matches_plus ic t p x run m'); [done| |done].
      simpl. by rewrite Hx, Hall.
Qed.

Lemma match_here_complete ic p m :
  Regex.matches ic p m ->
  forall rest, is_Some (Regex.match_here ic p (m ++ rest)).
Proof.
  induction 1 as [|t p x m Hq Hx _ IH|t p run m Hq Hall _ IH
                  |t p x run m Hq Hall _ IH]; intros rest; simpl.
  - done.
  - rewrite Hq, Hx. destruct (IH rest) as [[[m' caps'] r] ->]. done.
  - rewrite Hq, <- app_assoc. apply many_complete; [done|].
    destruct (IH rest) as [[[m' caps'] r] ->]. done.
  - simpl in Hall. apply andb_prop in Hall as [Hx Hall].
    rewrite Hq, Hx, <- app_assoc. apply many_complete; [done|].
    destruct (IH rest) as [[[m' caps'] r] ->]. done.
Qed.

Lemma search_unfold ic p i s :
  Regex.search ic p i s =
  match Regex.match_here ic p s with
  | Some (m, caps, _) => Some (Regex.Match i m caps)
  | None =>
      match s with
      | [] => None
      | _ :: s' => Regex.search ic p (S i) s'
      end
  end.
Proof. by destruct s. Qed.

Lemma search_complete ic p pre : forall i m post,
  Regex.matches ic p m -> is_Some (Regex.search ic p i (pre ++ m ++ post)).
Proof.
  induction pre as [|x pre IH]; intros i m post Hm; rewrite search_unfold.
  - simpl. by destruct (match_here_complete ic p m Hm post) as [[[m' caps'] r] ->].
  - destruct (Regex.match_here ic p ((x :: pre) ++ m ++ post))
      as [[[m' caps'] r]|]; [done|]. simpl. by apply IH.
Qed.

Lemma search_sound ic p s : forall i r,
  Regex.search ic p i s = Some r ->
  exists pre post,
    s = pre ++ Regex.m_text r ++ post /\ Regex.matches ic p (Regex.m_text r)
    /\ Regex.m_index r = (i + length pre)%nat.
Proof.
  induction s as [|x s IH]; intros i r; rewrite search_unfold;
    destruct (Regex.match_here ic p _) as [[[m' caps'] r']|] eqn:Heq.
  - intros [= <-]. apply match_here_sound in Heq as [Hs Hm].
    exists [], r'. simpl. split_and!; [done|done|lia].
  - done.
  - intros [= <-]. apply match_here_sound in Heq as [Hs Hm].
    exists [], r'. simpl. split_and!; [done|done|lia].
  - intros H. apply IH in H as (pre & post & -> & Hm & Hi).
    exists (x :: pre), post. simpl. split_and!; [done|done|lia].
Qed.

(** [test] decides whether a substring is in the language. *)
Lemma test_occurs re s : Regex.test re s = true <-> Regex.occurs re s.
Proof.
  unfold Regex.test, Regex.occurs. split.
  - destruct (Regex.search _ _ _ _) as [r|] eqn:Hs; [|done]. intros _.
    apply search_sound in Hs as (pre & post & -> & Hm & _). eauto.
  - intros (pre & m & post & -> & Hm).
    by destruct (search_complete (Regex.ignoreCase re) (Regex.source re)
                   pre O m post Hm) as [r ->].
Qed.

(** ** The command executor *)

Lemma isDangerous_occurs command :
  CommandExecutor.isDangerous command = true <->
  exists pattern,
    In pattern CommandExecutor.dangerousPatterns /\ Regex.occurs pattern command.
Proof.
  unfold CommandExecutor.isDangerous. rewrite existsb_exists.
  split; intros (pattern & Hin & H); exists pattern; split; try done;
    by apply test_occurs.
Qed.

(** The commands the specification names are dangerous. *)
Example dangerous_examples :
  CommandExecutor.isDangerous (js "sudo rm -rf /") = true
  /\ CommandExecutor.isDangerous (js "format C:") = true
  /\ CommandExecutor.isDangerous (js "shutdown -r now") = true
  /\ CommandExecutor.isDangerous (js "ls -la") = false.
Proof. by vm_compute. Qed.

(** C1. A raw command in which some dangerous pattern occurs is refused
    by [runCustomCommand]: the result is the failure
    [{ success: false, error: 'This command is not allowed for security
    reasons.', blocked: true }], no child process is started and the
    history is left as it was.  This holds in every state, so on every
    platform, and for every behaviour of the outside. *)
Theorem runCustomCommand_blocks_dangerous execAsync now homedir command options st :
  (exists pattern,
     In pattern CommandExecutor.dangerousPatterns /\ Regex.occurs pattern command) ->
  let '(r, st') :=
    CommandExecutor.runCustomCommand execAsync now homedir command options st in
  r = refusal (js "This command is not allowed for security reasons.")
  /\ success r = false /\ blocked r = true /\ verdictOf r = Blocked
  /\ CommandExecutor.spawned st' = CommandExecutor.spawned st
  /\ CommandExecutor.history st' = CommandExecutor.history st
  /\ CommandExecutor.platform st' = CommandExecutor.platform st.
Proof.
  intros H. apply isDangerous_occurs in H.
  unfold CommandExecutor.runCustomCommand. by rewrite H.
Qed.

Lemma runCustomCommand_blocks_sudo_rm :
  verdictOf
    (fst (CommandExecutor.runCustomCommand
            (fun _ _ _ => Resolved [] []) (fun _ => []) (js "/home/user")
            (js "sudo rm -rf /") (CommandExecutor.CustomOptions None None)
            (CommandExecutor.State (js "linux") [] [] [] 0)))
  = Blocked.
Proof.
  pose proof (runCustomCommand_blocks_dangerous
                (fun _ _ _ => Resolved [] []) (fun _ => []) (js "/home/user")
                (js "sudo rm -rf /") (CommandExecutor.CustomOptions None None)
                (CommandExecutor.State (js "linux") [] [] [] 0)) as H.
  destruct (CommandExecutor.runCustomCommand _ _ _ _ _ _) as [r st'].
  apply H. apply isDangerous_occurs. vm_compute. reflexivity.
Defined.

(** C7. A safe command whose template map has no entry for the platform
    of the executor fails with [Command not supported on <platform>];
    the state is the one before the call: no child process, no entry in
    the history, no line in the log. *)
Theorem runSafeCommand_unsupported_platform execAsync now commandKey commandMap st :
  CommandExecutor.safeCommands !! commandKey = Some commandMap ->
  commandMap !! CommandExecutor.platform st = None ->
  CommandExecutor.runSafeCommand execAsync now commandKey st
  = (failure (js "Command not supported on " ++ CommandExecutor.platform st), st).
Proof.
  intros Hkey Hplatform. unfold CommandExecutor.runSafeCommand.
  by rewrite Hkey, Hplatform.
Qed.

Lemma runSafeCommand_uptime_freebsd :
  CommandExecutor.runSafeCommand
    (fun _ _ _ => Resolved [] []) (fun _ => []) (js "uptime")
    (CommandExecutor.State (js "freebsd") [] [] [] 0)
  = (failure (js "Command not supported on freebsd"),
     CommandExecutor.State (js "freebsd") [] [] [] 0).
Proof.
  apply (runSafeCommand_unsupported_platform _ _ (js "uptime")
           (CommandExecutor.templates (js "uptime")
              (js "powershell "
               ++ jsq "(Get-Date) - (Get-CimInstance Win32_OperatingSystem).LastBootUpTime")
              (js "uptime"))).
  - vm_compute. reflexivity.
  - vm_compute. reflexivity.
Defined.

(** *** Names of processes *)

Lemma sanitizeName_filter name :
  CommandExecutor.sanitizeName name = List.filter CommandExecutor.keptInName name.
Proof.
  unfold CommandExecutor.sanitizeName, Regex.removeAll.
  apply filter_ext. intros c. unfold CommandExecutor.keptInName. simpl.
  unfold JS.isLower, JS.isUpper, JS.isDigit.
  rewrite negb_involutive, !orb_false_r, !orb_assoc. reflexivity.
Qed.

(** C6, as the specification states it: the sanitised name would be
    [Chromerm-rf].  The spaces are not removed. *)
Lemma sanitizeName_keeps_spaces :
  CommandExecutor.sanitizeName (js "Chrome;rm -rf ~") <> js "Chromerm-rf".
Proof. by vm_compute. Qed.

(** C6, amended.  Sanitisation keeps, in order, the letters, digits,
    white space, [-], [_] and [.] of the name and drops every other
    character; it never fails.  For [Chrome;rm -rf ~] the semicolon and
    the tilde are dropped and the spaces are kept, and the command that
    is started carries that name. *)
Theorem killProcessByName_sanitizes :
  (forall name,
     CommandExecutor.sanitizeName name
     = List.filter CommandExecutor.keptInName name)
  /\ CommandExecutor.sanitizeName (js "Chrome;rm -rf ~") = js "Chromerm -rf "
  /\ (forall execAsync now st,
        CommandExecutor.spawned
          (snd (CommandExecutor.killProcessByName execAsync now
                  (js "Chrome;rm -rf ~") st))
        = CommandExecutor.spawned st
          ++ [Spawn
                (if bool_decide (CommandExecutor.platform st = js "win32")
                 then js "taskkill /F /IM " ++ jsq "Chromerm -rf .exe"
                      ++ js " 2>nul || taskkill /F /IM " ++ jsq "Chromerm -rf "
                      ++ js " 2>nul"
                 else js "pkill -x " ++ jsq "Chromerm -rf " ++ js " || pkill "
                      ++ jsq "Chromerm -rf ")
                no_options]).
Proof.
  split_and!.
  - apply sanitizeName_filter.
  - by vm_compute.
  - intros execAsync now st. unfold CommandExecutor.killProcessByName.
    change (CommandExecutor.sanitizeName (js "Chrome;rm -rf ~"))
      with (js "Chromerm -rf ").
    destruct st as [platform history spawned logged clock]. simpl.
    destruct (bool_decide (platform = js "win32"));
      unfold CommandExecutor.run; simpl;
      destruct (execAsync _ _ _) as [out err|e]; simpl; try done;
      by destruct (JS.includes _ _).
Qed.

(** *** The history *)



Lemma last100_short (l : list CommandExecutor.history_entry) :
  (length l <= 100)%nat -> CommandExecutor.last100 l = l.
Proof.
  intros H. unfold CommandExecutor.last100.
  by replace (length l - 100)%nat with O by lia.
Qed.

Section HistoryFacts.

Variable execAsync : nat -> jsstring -> exec_options -> exec_outcome.
Variable now : nat -> jsstring.
Variable homedir : jsstring.
Variable envTEMP : option jsstring.
Variable parseInt : jsstring -> option Z.
Variable formatBytes : Z -> jsstring.

Lemma logCommand_history type command ok err st :
  CommandExecutor.history (CommandExecutor.logCommand now type command ok err st)
  = CommandExecutor.last100
      (CommandExecutor.history st
       ++ [CommandExecutor.Entry (now (CommandExecutor.clock st)) type command ok err]).
Proof.
  unfold CommandExecutor.logCommand. simpl.
  destruct (100 <? _)%nat eqn:Hlt; [done|].
  apply Nat.ltb_ge in Hlt. by rewrite last100_short.
Qed.



Lemma logger_history lv module msg data st :
  CommandExecutor.history (CommandExecutor.logger lv module msg data st)
  = CommandExecutor.history st.
Proof. done. Qed.




Lemma getFolderSize_history path st :
  CommandExecutor.history
    (snd (CommandExecutor.getFolderSize execAsync parseInt path st))
  = CommandExecutor.history st.
Proof.
  unfold CommandExecutor.getFolderSize, CommandExecutor.run.
  destruct (_ || _); [by destruct (execAsync _ _ _)|].
  destruct (bool_decide _); [|done]. by destruct (execAsync _ _ _).
Qed.

Lemma clearOne_history name path acc st :
  CommandExecutor.history
    (snd (CommandExecutor.clearOne execAsync parseInt formatBytes name path acc st))
  = CommandExecutor.history st.
Proof.
  unfold CommandExecutor.clearOne. destruct acc as [cleaned totalFreed].
  pose proof (getFolderSize_history path st) as H1.
  destruct (CommandExecutor.getFolderSize _ _ path st) as [sizeBefore st1].
  cbn [snd] in H1. unfold CommandExecutor.run at 1.
  destruct (execAsync _ _ _); cbn [snd CommandExecutor.history]; [|done].
  match goal with
  | |- context [CommandExecutor.getFolderSize _ _ path ?s] =>
      pose proof (getFolderSize_history path s) as H2;
      destruct (CommandExecutor.getFolderSize _ _ path s) as [sizeAfter st2]
  end.
  cbn [snd CommandExecutor.history] in *.
  destruct (0 <? _)%Z; cbn [snd]; congruence.
Qed.




End HistoryFacts.




(** ** The solution engine *)

(** C10. A solution that is null, undefined or an object without a
    [type] makes [execute] throw [Invalid solution provided]; the state
    is the one before the call: nothing is classified, logged or
    started. *)
Theorem execute_rejects_invalid execPromise now solution st :
  solution = SolutionEngine.Prim JS.Null
  \/ solution = SolutionEngine.Prim JS.Undefined
  \/ (exists o, solution = SolutionEngine.Obj o /\ o !! js "type" = None) ->
  SolutionEngine.execute execPromise now solution st
  = (SolutionEngine.Throw (js "Invalid solution provided"), st).
Proof.
  intros [->|[->|(o & -> & Htype)]]; unfold SolutionEngine.execute; simpl;
    [done..|].
  by rewrite Htype.
Qed.

Lemma execute_rejects_untyped :
  SolutionEngine.execute (fun _ _ _ => Resolved [] []) (fun _ => [])
    (SolutionEngine.Obj {[ js "pid" := JS.Num 42 ]})
    (SolutionEngine.State (js "linux") [] [] 0)
  = (SolutionEngine.Throw (js "Invalid solution provided"),
     SolutionEngine.State (js "linux") [] [] 0).
Proof.
  apply execute_rejects_invalid. right. right.
  exists {[ js "pid" := JS.Num 42 ]}. split; [reflexivity|].
  vm_compute. reflexivity.
Defined.

(** C2, as the specification states it: the verdict on a solution of a
    dangerous type would be [Blocked].  The result of [execute] asks for
    an approval instead. *)
Lemma dangerous_type_not_blocked :
  ~ exists r,
      fst (SolutionEngine.execute (fun _ _ _ => Resolved [] []) (fun _ => [])
             (SolutionEngine.Obj {[ js "type" := JS.Str (js "format-drive") ]})
             (SolutionEngine.State (js "linux") [] [] 0))
      = SolutionEngine.Return r
      /\ verdictOf r = Blocked.
Proof. intros (r & Hr & Hv). vm_compute in Hr. by injection Hr as <-. Qed.

(** C2, amended.  A solution whose [type] is one of the four dangerous
    types is not safe, and [execute] answers it with the failure
    [{ success: false, error: 'This action requires additional approval
    due to safety concerns', requiresApproval: true }], whatever its
    other properties, the platform and the state are; the state is the
    one before the call: nothing is logged and no command is started.
    No argument of [execute] carries an approval. *)
Theorem execute_refuses_dangerous_type execPromise now o ty st :
  o !! js "type" = Some (JS.Str ty) ->
  In ty SolutionEngine.dangerousTypes ->
  SolutionEngine.isSafe (SolutionEngine.Obj o) = false
  /\ SolutionEngine.execute execPromise now (SolutionEngine.Obj o) st
     = (SolutionEngine.Return
          (SolutionEngine.solutionResult false
             (Some (js "This action requires additional approval due to safety concerns"))
             None None None false true), st)
  /\ verdictOf
       (SolutionEngine.solutionResult false
          (Some (js "This action requires additional approval due to safety concerns"))
          None None None false true)
     = RequiresApproval.
Proof.
  intros Htype Hin.
  assert (Hunsafe : SolutionEngine.isSafe (SolutionEngine.Obj o) = false).
  { unfold SolutionEngine.isSafe. simpl. rewrite Htype.
    simpl in Hin. by destruct Hin as [<-|[<-|[<-|[<-|[]]]]]. }
  split_and!; [done| |done].
  unfold SolutionEngine.execute. rewrite Hunsafe. simpl. rewrite Htype.
  simpl in Hin. by destruct Hin as [<-|[<-|[<-|[<-|[]]]]].
Qed.

Lemma execute_refuses_format_drive :
  SolutionEngine.execute (fun _ _ _ => Resolved [] []) (fun _ => [])
    (SolutionEngine.Obj {[ js "type" := JS.Str (js "format-drive");
                           js "drive" := JS.Str (js "D:") ]})
    (SolutionEngine.State (js "win32") [] [] 0)
  = (SolutionEngine.Return
       (SolutionEngine.solutionResult false
          (Some (js "This action requires additional approval due to safety concerns"))
          None None None false true),
     SolutionEngine.State (js "win32") [] [] 0).
Proof.
  apply (execute_refuses_dangerous_type _ _ _ (js "format-drive")).
  - vm_compute. reflexivity.
  - vm_compute. tauto.
Defined.

(** ** The action-tag parser *)

Lemma matches_consuming ic p m :
  Regex.consuming p = true -> Regex.matches ic p m -> m <> [].
Proof.
  intros Hc Hm. destruct Hm as [|t p x m Hq|t p run m Hq|t p x run m Hq]; try done.
  simpl in Hc. by rewrite Hq in Hc.
Qed.

(** A successful [exec] of a global regexp moves [lastIndex] forward,
    inside the input. *)
Lemma exec_advance re li s m li' :
  Regex.global re = true -> Regex.consuming (Regex.source re) = true ->
  Regex.exec re li s = (Some m, li') ->
  (li < li' <= length s)%nat
  /\ exists pre post,
       drop li s = pre ++ Regex.m_text m ++ post
       /\ Regex.matches (Regex.ignoreCase re) (Regex.source re) (Regex.m_text m)
       /\ Regex.m_index m = (li + length pre)%nat
       /\ li' = (Regex.m_index m + length (Regex.m_text m))%nat.
Proof.
  intros Hg Hc. unfold Regex.exec. rewrite Hg.
  destruct (length s <? li)%nat eqn:Hlen; [done|]. apply Nat.ltb_ge in Hlen.
  destruct (Regex.search _ _ _ _) as [r|] eqn:Hs; [|done]. intros [= <- <-].
  apply search_sound in Hs as (pre & post & Hdrop & Hm & Hi).
  pose proof (matches_consuming _ _ _ Hc Hm) as Hne.
  assert (Hl : length (drop li s) = length (pre ++ Regex.m_text r ++ post))
    by by rewrite Hdrop.
  rewrite length_drop, !length_app in Hl.
  assert (Hpos : (0 < length (Regex.m_text r))%nat).
  { destruct (Regex.m_text r); [done|simpl; lia]. }
  simpl. split; [lia|]. by exists pre, post.
Qed.

Lemma readParams_total fuel : forall s li a,
  (length s - li < fuel)%nat -> is_Some (RelayApp.readParams fuel s li a).
Proof.
  induction fuel as [|fuel IH]; intros s li a Hfuel; [lia|]. simpl.
  destruct (Regex.exec RelayApp.paramRegex li s) as [[m|] li'] eqn:He; [|done].
  apply exec_advance in He as [Hli _]; [|done..]. apply IH. lia.
Qed.

Lemma actionOf_read content :
  RelayApp.readParams (S (length content)) content 0 ∅
  = Some (RelayApp.actionOf content).
Proof.
  unfold RelayApp.actionOf.
  by destruct (readParams_total (S (length content)) content 0 ∅) as [a ->];
    [lia|].
Qed.

Lemma readBlocks_S fuel s li text actions :
  RelayApp.readBlocks (S fuel) s li text actions =
  match Regex.exec RelayApp.actionBlockRegex li s with
  | (Some blockMatch, li') =>
      let actionContent := RelayApp.group blockMatch 1 in
      match RelayApp.readParams (S (length actionContent)) actionContent 0 ∅ with
      | Some a =>
          RelayApp.readBlocks fuel s li'
            (JS.replaceFirst (Regex.m_text blockMatch) [] text)
            (if JS.truthyOpt (RelayApp.prop a "type")
             then actions ++ [a] else actions)
      | None => None
      end
  | (None, _) => Some (JS.trim text, actions)
  end.
Proof. reflexivity. Qed.

Lemma readBlocks_total fuel : forall s li text actions,
  (length s - li < fuel)%nat ->
  is_Some (RelayApp.readBlocks fuel s li text actions).
Proof.
  induction fuel as [|fuel IH]; intros s li text actions Hfuel; [lia|].
  rewrite readBlocks_S.
  destruct (Regex.exec RelayApp.actionBlockRegex li s) as [[m|] li'] eqn:He;
    [|done].
  apply exec_advance in He as [Hli _]; [|done..].
  cbv zeta. rewrite actionOf_read. apply IH. lia.
Qed.

(** [parseAIResponse] returns for every string. *)
Lemma parseAIResponse_total s : is_Some (RelayApp.parseAIResponse s).
Proof. apply readBlocks_total. lia. Qed.

(** Without a tag the text is trimmed and there is no action. *)
Lemma parseAIResponse_no_tag s :
  ~ Regex.occurs RelayApp.actionBlockRegex s ->
  RelayApp.parseAIResponse s = Some (JS.trim s, []).
Proof.
  intros Hno. apply (not_iff_compat (test_occurs _ _)) in Hno.
  unfold RelayApp.parseAIResponse. rewrite readBlocks_S.
  unfold Regex.exec, Regex.test in *.
  change (Regex.global RelayApp.actionBlockRegex) with true.
  change (drop 0 s) with s. cbv iota.
  replace (length s <? 0)%nat with false by (symmetry; by apply Nat.ltb_ge; lia).
  by destruct (Regex.search _ _ _ s).
Qed.

(** *** Texts made of prose and tags *)

Lemma tag_cons body :
  RelayApp.tag body = 91 :: 65 :: 67 :: 84 :: 73 :: 79 :: 78 :: 58 :: body ++ [93].
Proof. reflexivity. Qed.

Lemma notIn93 c : c <> 93 -> Regex.cset_mem false (Regex.NotIn [Regex.CChar 93]) c = true.
Proof. intros H. simpl. rewrite orb_false_r. apply negb_true_iff. by apply N.eqb_neq. Qed.

Lemma forallb_notIn93 core :
  93 ∉ core -> forallb (Regex.cset_mem false (Regex.NotIn [Regex.CChar 93])) core = true.
Proof.
  induction core as [|c core IH]; [done|]. intros [Hc Hcore]%not_elem_of_cons.
  cbn [forallb]. rewrite notIn93 by done. by rewrite IH.
Qed.

Lemma block_tail core rest :
  core <> [] -> 93 ∉ core ->
  Regex.match_here false
    (Regex.group_plus (Regex.NotIn [Regex.CChar 93]) ++ Regex.chr "]")
    (core ++ 93 :: rest)
  = Some (core ++ [93], [core], rest).
Proof.
  destruct core as [|c core]; [done|]. intros _ [Hc Hcore]%not_elem_of_cons.
  change (Regex.group_plus (Regex.NotIn [Regex.CChar 93]) ++ Regex.chr "]")
    with [Regex.Term (Regex.NotIn [Regex.CChar 93]) Regex.OneOrMore true;
          Regex.Term (Regex.Single (Regex.CChar 93)) Regex.Once false].
  cbn [Regex.match_here Regex.t_quant Regex.t_set Regex.t_group app].
  rewrite notIn93 by done.
  erewrite many_greedy; [reflexivity|by apply forallb_notIn93|done|].
  reflexivity.
Qed.

Lemma match_here_lit c p s :
  Regex.match_here false (Regex.Term (Regex.Single (Regex.CChar c)) Regex.Once false :: p)
    (c :: s)
  = match Regex.match_here false p s with
    | Some (m, caps, r) => Some (c :: m, caps, r)
    | None => None
    end.
Proof.
  cbn. rewrite N.eqb_refl.
  by destruct (Regex.match_here false p s) as [[[m caps] r]|].
Qed.

Lemma match_here_lit_ne c x p s :
  x <> c ->
  Regex.match_here false (Regex.Term (Regex.Single (Regex.CChar c)) Regex.Once false :: p)
    (x :: s) = None.
Proof. intros H. cbn. by apply N.eqb_neq in H as ->. Qed.

Lemma trimStart_split body :
  exists ws,
    body = ws ++ JS.trimStart body /\ forallb JS.isSpace ws = true
    /\ match JS.trimStart body with [] => True | y :: _ => JS.isSpace y = false end.
Proof.
  induction body as [|c body (ws & Hb & Hws & Hstop)]; [by exists []|].
  cbn [JS.trimStart]. destruct (JS.isSpace c) eqn:Hc.
  - exists (c :: ws). cbn [forallb app]. rewrite Hc, Hws. by rewrite <- Hb.
  - by exists [].
Qed.

Lemma block_body body rest :
  RelayApp.isBody body ->
  Regex.match_here false
    (Regex.ws_star ++ Regex.group_plus (Regex.NotIn [Regex.CChar 93]) ++ Regex.chr "]")
    (body ++ 93 :: rest)
  = Some (body ++ [93], [RelayApp.contentOf body], rest).
Proof.
  intros [Hne Hno].
  change (Regex.ws_star ++ ?p) with (Regex.Term (Regex.Single Regex.CSpace) Regex.ZeroOrMore false :: p).
  cbn [Regex.match_here Regex.t_quant Regex.t_set Regex.t_group].
  change (Regex.cset_mem false (Regex.Single Regex.CSpace)) with JS.isSpace.
  destruct (trimStart_split body) as (ws & Hb & Hws & Hstop).
  unfold RelayApp.contentOf.
  destruct (JS.trimStart body) as [|y core] eqn:Hcore.
  - rewrite app_nil_r in Hb. subst ws.
    destruct body as [|y ws _] using rev_ind; [done|].
    rewrite last_snoc, <- app_assoc.
    rewrite forallb_app in Hws. apply andb_prop in Hws as [Hws Hy].
    simpl in Hy. rewrite andb_true_r in Hy.
    apply not_elem_of_app in Hno as [_ Hy93%not_elem_of_cons].
    apply many_backtrack_one; [done|done|done|done|].
    rewrite app_nil_l. change (y :: 93 :: rest) with ([y] ++ 93 :: rest).
    rewrite (block_tail [y] rest); [by rewrite <- app_assoc|done|].
    by apply not_elem_of_cons.
  - rewrite Hb at 1. rewrite <- app_assoc.
    assert (H93 : 93 ∉ y :: core).
    { rewrite Hb in Hno. by apply not_elem_of_app in Hno as [_ ?]. }
    erewrite many_greedy; [reflexivity|done|done|].
    rewrite app_nil_l. rewrite <- app_comm_cons.
    change (y :: core ++ 93 :: rest) with ((y :: core) ++ 93 :: rest).
    rewrite block_tail; [|done..]. cbn [app]. rewrite Hb.
    by rewrite <- app_assoc.
Qed.

Lemma match_here_tag body rest :
  RelayApp.isBody body ->
  Regex.match_here false (Regex.source RelayApp.actionBlockRegex)
    (RelayApp.tag body ++ rest)
  = Some (RelayApp.tag body, [RelayApp.contentOf body], rest).
Proof.
  intros Hbody. rewrite tag_cons.
  change (Regex.source RelayApp.actionBlockRegex)
    with (Regex.chr "[ACTION:"
          ++ (Regex.ws_star ++ Regex.group_plus (Regex.NotIn [Regex.CChar 93])
              ++ Regex.chr "]")).
  change (Regex.chr "[ACTION:")
    with (map (fun x => Regex.Term (Regex.Single (Regex.CChar x)) Regex.Once false)
            [91; 65; 67; 84; 73; 79; 78; 58]).
  cbn [map app]. rewrite !match_here_lit.
  rewrite <- app_assoc. cbn [app]. by rewrite block_body.
Qed.

Lemma startsWith_app p s : JS.startsWith p (p ++ s) = true.
Proof. induction p as [|c p IH]; [done|]. cbn. by rewrite N.eqb_refl. Qed.

Lemma replaceFirst_here pat rest :
  pat <> [] -> JS.replaceFirst pat [] (pat ++ rest) = rest.
Proof.
  destruct pat as [|c pat]; [done|]. intros _.
  change ((c :: pat) ++ rest) with (c :: (pat ++ rest)). cbn [JS.replaceFirst].
  change (c :: (pat ++ rest)) with ((c :: pat) ++ rest).
  by rewrite startsWith_app, drop_app_length.
Qed.

Lemma render_length prose segs :
  (length segs <= length (RelayApp.render prose segs))%nat.
Proof.
  revert prose. induction segs as [|[body prose'] segs IH]; intros prose;
    cbn [RelayApp.render length]; [lia|].
  rewrite !length_app, tag_cons. specialize (IH prose'). cbn [length]. lia.
Qed.

Lemma marker_codes : RelayApp.marker = [91; 65; 67; 84; 73; 79; 78; 58].
Proof. reflexivity. Qed.

Lemma tag_marker body : RelayApp.tag body = RelayApp.marker ++ body ++ js "]".
Proof. reflexivity. Qed.

(** *** Occurrences of a text *)

Lemma startsWith_app_l p s t :
  JS.startsWith p s = true -> JS.startsWith p (s ++ t) = true.
Proof.
  revert s. induction p as [|a p IH]; intros [|b s]; cbn; try done.
  intros [-> H]%andb_prop. by rewrite IH.
Qed.

Lemma startsWith_prefix p q s :
  JS.startsWith (p ++ q) s = true -> JS.startsWith p s = true.
Proof.
  revert s. induction p as [|a p IH]; intros [|b s]; cbn; try done.
  intros [-> H]%andb_prop. by rewrite (IH s).
Qed.

Lemma includes_cons p c s :
  JS.includes p (c :: s) = JS.startsWith p (c :: s) || JS.includes p s.
Proof. reflexivity. Qed.

Lemma includes_app_l p s t :
  JS.includes p (s ++ t) = false -> JS.includes p s = false.
Proof.
  induction s as [|c s IH].
  - destruct p; [by destruct t|done].
  - cbn [app]. rewrite !includes_cons. intros [H1 H2]%orb_false_elim.
    rewrite IH by done. rewrite orb_false_r.
    destruct (JS.startsWith p (c :: s)) eqn:E; [|done].
    apply (startsWith_app_l p (c :: s) t) in E. cbn [app] in E. congruence.
Qed.

Lemma includes_app_r p s t :
  JS.includes p (s ++ t) = false -> JS.includes p t = false.
Proof.
  induction s as [|c s IH]; [done|]. cbn [app]. rewrite includes_cons.
  intros [_ H]%orb_false_elim. by apply IH.
Qed.

Lemma includes_here p s : JS.includes p s = false -> JS.startsWith p s = false.
Proof. destruct s; cbn; [by rewrite orb_false_r|by intros [? _]%orb_false_elim]. Qed.

(** The marker does not begin inside a text in which it does not occur,
    also when a marker follows this text: none of its characters but
    the first is an opening bracket. *)
Lemma marker_straddle g rest :
  g <> [] -> JS.startsWith RelayApp.marker g = false ->
  JS.startsWith RelayApp.marker (g ++ RelayApp.marker ++ rest) = false.
Proof.
  rewrite marker_codes. intros Hne H.
  destruct g as [|c1 [|c2 [|c3 [|c4 [|c5 [|c6 [|c7 [|c8 g]]]]]]]]; [done|..];
    cbn in *; rewrite ?andb_false_r; try done.
Qed.

Lemma marker_not_early g rest : forall p,
  JS.includes RelayApp.marker g = false -> (p < length g)%nat ->
  JS.startsWith RelayApp.marker (drop p (g ++ RelayApp.marker ++ rest)) = false.
Proof.
  induction g as [|c g IH]; intros p Hg Hp; [cbn in Hp; lia|].
  rewrite includes_cons in Hg. apply orb_false_elim in Hg as [Hc Hg].
  destruct p as [|p].
  - by apply marker_straddle.
  - cbn [app drop]. apply IH; [done|cbn in Hp; lia].
Qed.

Lemma match_here_literals lits p : forall s,
  JS.startsWith lits s = false ->
  Regex.match_here false
    (map (fun x => Regex.Term (Regex.Single (Regex.CChar x)) Regex.Once false) lits ++ p) s
  = None.
Proof.
  induction lits as [|a lits IH]; intros [|b s]; cbn [JS.startsWith map app]; try done.
  destruct (a =? b) eqn:E.
  - apply N.eqb_eq in E as ->. cbn [andb]. intros H.
    rewrite match_here_lit. by rewrite IH.
  - intros _. apply match_here_lit_ne. apply N.eqb_neq in E. congruence.
Qed.

Lemma match_here_no_marker s :
  JS.startsWith RelayApp.marker s = false ->
  Regex.match_here false (Regex.source RelayApp.actionBlockRegex) s = None.
Proof.
  intros H.
  change (Regex.source RelayApp.actionBlockRegex)
    with (map (fun x => Regex.Term (Regex.Single (Regex.CChar x)) Regex.Once false)
            [91; 65; 67; 84; 73; 79; 78; 58]
          ++ (Regex.ws_star ++ Regex.group_plus (Regex.NotIn [Regex.CChar 93])
              ++ Regex.chr "]")).
  by apply match_here_literals.
Qed.

Lemma search_no_marker s : forall i,
  JS.includes RelayApp.marker s = false ->
  Regex.search false (Regex.source RelayApp.actionBlockRegex) i s = None.
Proof.
  induction s as [|c s IH]; intros i H; rewrite search_unfold.
  - by rewrite match_here_no_marker by (by apply includes_here).
  - rewrite match_here_no_marker by (by apply includes_here).
    rewrite includes_cons in H. apply orb_false_elim in H as [_ H]. by apply IH.
Qed.

Lemma search_first_tag g : forall i body rest,
  JS.includes RelayApp.marker g = false -> RelayApp.isBody body ->
  Regex.search false (Regex.source RelayApp.actionBlockRegex) i
    (g ++ RelayApp.tag body ++ rest)
  = Some (Regex.Match (i + length g) (RelayApp.tag body) [RelayApp.contentOf body]).
Proof.
  induction g as [|c g IH]; intros i body rest Hg Hb.
  - rewrite search_unfold. cbn [app]. rewrite match_here_tag by done.
    by rewrite Nat.add_0_r.
  - rewrite search_unfold.
    rewrite match_here_no_marker.
    + cbn [app]. rewrite includes_cons in Hg. apply orb_false_elim in Hg as [_ Hg].
      rewrite IH by done. cbn [length]. do 2 f_equal. lia.
    + rewrite tag_marker, <- app_assoc.
      apply (marker_not_early (c :: g) _ 0%nat); [done|cbn; lia].
Qed.

Lemma replaceFirst_first_tag clean : forall body rest,
  JS.includes RelayApp.marker clean = false ->
  JS.replaceFirst (RelayApp.tag body) [] (clean ++ RelayApp.tag body ++ rest)
  = clean ++ rest.
Proof.
  induction clean as [|c clean IH]; intros body rest Hc.
  - cbn [app]. by apply replaceFirst_here.
  - cbn [app JS.replaceFirst].
    assert (Hno : JS.startsWith (RelayApp.tag body)
                    (c :: clean ++ RelayApp.tag body ++ rest) = false).
    { destruct (JS.startsWith _ _) eqn:E; [|done].
      rewrite tag_marker in E at 1. apply startsWith_prefix in E.
      rewrite tag_marker, <- app_assoc in E.
      pose proof (marker_not_early (c :: clean) ((body ++ js "]") ++ rest) 0%nat Hc) as Hm.
      cbn [drop app length] in Hm. rewrite Hm in E by lia. done. }
    rewrite Hno. rewrite includes_cons in Hc. apply orb_false_elim in Hc as [_ Hc].
    by rewrite IH.
Qed.

Lemma readBlocks_tags segs : forall fuel pre prose clean actions,
  Forall (fun seg => RelayApp.isBody seg.1) segs ->
  JS.includes RelayApp.marker (clean ++ RelayApp.proseOf prose segs) = false ->
  (length segs < fuel)%nat ->
  RelayApp.readBlocks fuel (pre ++ RelayApp.render prose segs) (length pre)
    (clean ++ RelayApp.render prose segs) actions
  = Some (JS.trim (clean ++ RelayApp.proseOf prose segs),
          actions
          ++ List.filter RelayApp.typed
               (map (fun seg => RelayApp.actionOf (RelayApp.contentOf seg.1)) segs)).
Proof.
  induction segs as [|[body prose'] segs IH];
    intros fuel pre prose clean actions Hsegs Hfree Hfuel;
    (destruct fuel as [|fuel]; [cbn [length] in Hfuel; lia|]);
    rewrite readBlocks_S; unfold Regex.exec;
    change (Regex.global RelayApp.actionBlockRegex) with true;
    change (Regex.ignoreCase RelayApp.actionBlockRegex) with false; cbv iota;
    rewrite drop_app_length;
    (replace (length (pre ++ _) <? length pre)%nat with false
       by (symmetry; apply Nat.ltb_ge; rewrite length_app; lia)).
  - cbn [RelayApp.render RelayApp.proseOf map List.filter] in *.
    rewrite search_no_marker by (by apply includes_app_r in Hfree).
    by rewrite app_nil_r.
  - apply Forall_cons in Hsegs as [Hbody Hsegs].
    cbn [RelayApp.render RelayApp.proseOf map List.filter fst snd] in *.
    rewrite app_assoc in Hfree.
    pose proof (includes_app_l _ _ _ Hfree) as Hclean.
    rewrite search_first_tag by (by apply includes_app_r in Hclean). cbv zeta.
    change (RelayApp.group (Regex.Match ?i ?t [?c]) 1) with c.
    rewrite actionOf_read. cbn [Regex.m_text Regex.m_index].
    rewrite (app_assoc clean prose), replaceFirst_first_tag by done.
    rewrite (app_assoc prose), (app_assoc pre).
    replace (length pre + length prose + length (RelayApp.tag body))%nat
      with (length (pre ++ prose ++ RelayApp.tag body))
      by (rewrite !length_app; lia).
    rewrite IH; [|done|done|cbn [length] in Hfuel; lia].
    rewrite <- (app_assoc clean).
    fold (RelayApp.typed (RelayApp.actionOf (RelayApp.contentOf body))).
    destruct (RelayApp.typed _); [by rewrite <- app_assoc|done].
Qed.

Lemma parseAIResponse_tags prose segs :
  Forall (fun seg => RelayApp.isBody seg.1) segs ->
  JS.includes RelayApp.marker (RelayApp.proseOf prose segs) = false ->
  RelayApp.parseAIResponse (RelayApp.render prose segs)
  = Some (JS.trim (RelayApp.proseOf prose segs),
          List.filter RelayApp.typed
            (map (fun seg => RelayApp.actionOf (RelayApp.contentOf seg.1)) segs)).
Proof.
  intros Hsegs Hfree. unfold RelayApp.parseAIResponse.
  pose proof (readBlocks_tags segs (S (length (RelayApp.render prose segs)))
                [] prose [] [] Hsegs) as H.
  cbn [app length] in H. apply H; [done|].
  pose proof (render_length prose segs). lia.
Qed.

Lemma no_bracket_no_marker s : 91 ∉ s -> JS.includes RelayApp.marker s = false.
Proof.
  induction s as [|c s IH]; [done|]. intros [Hc Hs]%not_elem_of_cons.
  rewrite includes_cons, IH by done. rewrite orb_false_r, marker_codes.
  cbn [JS.startsWith]. by rewrite (proj2 (N.eqb_neq 91 c)) by done.
Qed.

Lemma proseOf_no_bracket prose segs :
  RelayApp.isProse prose -> RelayApp.segmentsOk segs ->
  91 ∉ RelayApp.proseOf prose segs.
Proof.
  revert prose. induction segs as [|[body prose'] segs IH]; intros prose Hp Hs; [done|].
  apply Forall_cons in Hs as [[_ Hp'] Hs]. cbn [RelayApp.proseOf].
  apply not_elem_of_app. split; [done|by apply IH].
Qed.

Lemma parseAIResponse_render prose segs :
  RelayApp.isProse prose -> RelayApp.segmentsOk segs ->
  RelayApp.parseAIResponse (RelayApp.render prose segs)
  = Some (JS.trim (RelayApp.proseOf prose segs),
          List.filter RelayApp.typed
            (map (fun seg => RelayApp.actionOf (RelayApp.contentOf seg.1)) segs)).
Proof.
  intros Hprose Hsegs. apply parseAIResponse_tags.
  - eapply Forall_impl; [exact Hsegs|]. by intros seg [? _].
  - by apply no_bracket_no_marker, proseOf_no_bracket.
Qed.

(** *** Parameters as they are written *)

Lemma renderParams_cons kv kvs :
  RelayApp.renderParams (kv :: kvs) = RelayApp.renderParam kv ++ RelayApp.spaced kvs.
Proof.
  unfold RelayApp.renderParams, RelayApp.spaced. revert kv.
  induction kvs as [|kv' kvs IH]; intros kv.
  - cbn. by rewrite app_nil_r.
  - change (RelayApp.join (js " ") (map RelayApp.renderParam (kv :: kv' :: kvs)))
      with (RelayApp.renderParam kv ++ js " "
            ++ RelayApp.join (js " ") (map RelayApp.renderParam (kv' :: kvs))).
    rewrite IH. reflexivity.
Qed.

Lemma forallb_word k :
  Forall (fun c => JS.isWord c = true) k -> forallb JS.isWord k = true.
Proof. induction 1 as [|c k Hc _ IH]; [done|]. cbn. by rewrite Hc, IH. Qed.

Lemma forallb_notIn34 v :
  34 ∉ v -> forallb (Regex.cset_mem false (Regex.NotIn [Regex.CChar 34])) v = true.
Proof.
  induction v as [|c v IH]; [done|]. intros [Hc Hv]%not_elem_of_cons.
  cbn [forallb]. rewrite IH by done. rewrite andb_true_r.
  cbn. rewrite orb_false_r. apply negb_true_iff. by apply N.eqb_neq.
Qed.

Lemma param_here kv rest :
  RelayApp.isParam kv ->
  Regex.match_here false (Regex.source RelayApp.paramRegex) (RelayApp.renderParam kv ++ rest)
  = Some (RelayApp.renderParam kv, [kv.1; kv.2], rest).
Proof.
  destruct kv as [k v]. intros (Hk & Hword & Hv & Hq). cbn [fst snd] in *.
  destruct k as [|c k]; [done|]. destruct v as [|d v]; [done|].
  apply Forall_cons in Hword as [Hc Hword].
  apply not_elem_of_cons in Hq as [Hd Hq].
  unfold RelayApp.renderParam, JS.quoted, JS.dq. cbn [fst snd].
  change (js "=") with [61].
  change (Regex.source RelayApp.paramRegex)
    with [Regex.Term (Regex.Single Regex.CWord) Regex.OneOrMore true;
          Regex.Term (Regex.Single (Regex.CChar 61)) Regex.Once false;
          Regex.Term (Regex.Single (Regex.CChar 34)) Regex.Once false;
          Regex.Term (Regex.NotIn [Regex.CChar 34]) Regex.OneOrMore true;
          Regex.Term (Regex.Single (Regex.CChar 34)) Regex.Once false].
  rewrite <- !app_assoc. cbn [app].
  cbn [Regex.match_here Regex.t_quant Regex.t_set Regex.t_group].
  change (Regex.cset_mem false (Regex.Single Regex.CWord)) with JS.isWord.
  rewrite Hc.
  apply many_greedy; [by apply forallb_word|done|].
  cbn [Regex.cset_mem Regex.cclass_mem]. rewrite !N.eqb_refl.
  change (existsb _ [Regex.CChar 34]) with ((d =? 34) || false).
  rewrite (proj2 (N.eqb_neq d 34)) by done. cbn [orb negb].
  match goal with
  | |- context [Regex.many ?ok ?K [d] (v ++ 34 :: rest)] =>
      rewrite (many_greedy ok K v [d] (34 :: rest) (d :: v ++ [34], [d :: v], rest))
  end.
  - done.
  - by apply forallb_notIn34.
  - by cbn.
  - cbn [Regex.cset_mem Regex.cclass_mem app]. rewrite N.eqb_refl.
    done.
Qed.

Lemma param_space kv rest i :
  RelayApp.isParam kv ->
  Regex.search false (Regex.source RelayApp.paramRegex) i (32 :: RelayApp.renderParam kv ++ rest)
  = Some (Regex.Match (S i) (RelayApp.renderParam kv) [kv.1; kv.2]).
Proof.
  intros Hkv. rewrite search_unfold.
  assert (Hno : Regex.match_here false (Regex.source RelayApp.paramRegex)
                  (32 :: RelayApp.renderParam kv ++ rest) = None) by reflexivity.
  rewrite Hno, search_unfold. by rewrite param_here.
Qed.

Lemma readParams_S fuel s li a :
  RelayApp.readParams (S fuel) s li a =
  match Regex.exec RelayApp.paramRegex li s with
  | (Some paramMatch, li') =>
      RelayApp.readParams fuel s li'
        (RelayApp.setProperty a (RelayApp.group paramMatch 1) (RelayApp.group paramMatch 2))
  | (None, _) => Some a
  end.
Proof. reflexivity. Qed.

Lemma exec_at re pre rest :
  Regex.global re = true ->
  Regex.exec re (length pre) (pre ++ rest)
  = match Regex.search (Regex.ignoreCase re) (Regex.source re) (length pre) rest with
    | Some m => (Some m, (Regex.m_index m + length (Regex.m_text m))%nat)
    | None => (None, O)
    end.
Proof.
  intros Hg. unfold Regex.exec. rewrite Hg, drop_app_length.
  by replace (length (pre ++ rest) <? length pre)%nat with false
    by (symmetry; apply Nat.ltb_ge; rewrite length_app; lia).
Qed.

Lemma readParams_spaced kvs : forall fuel pre a,
  Forall RelayApp.isParam kvs -> (length kvs < fuel)%nat ->
  RelayApp.readParams fuel (pre ++ RelayApp.spaced kvs) (length pre) a
  = Some (foldl (fun a kv => RelayApp.setProperty a kv.1 kv.2) a kvs).
Proof.
  induction kvs as [|kv kvs IH]; intros fuel pre a Hkvs Hfuel;
    (destruct fuel as [|fuel]; [cbn [length] in Hfuel; lia|]);
    rewrite readParams_S, exec_at by done.
  - reflexivity.
  - apply Forall_cons in Hkvs as [Hkv Hkvs].
    change (RelayApp.spaced (kv :: kvs)) with ((32 :: RelayApp.renderParam kv) ++ RelayApp.spaced kvs).
    rewrite <- app_comm_cons.
    change (Regex.ignoreCase RelayApp.paramRegex) with false.
    rewrite param_space by done. cbn [Regex.m_index Regex.m_text foldl].
    change (RelayApp.group (Regex.Match ?i ?t [?x; ?y]) 1) with x.
    change (RelayApp.group (Regex.Match ?i ?t [?x; ?y]) 2) with y.
    replace (pre ++ 32 :: RelayApp.renderParam kv ++ RelayApp.spaced kvs)
      with ((pre ++ 32 :: RelayApp.renderParam kv) ++ RelayApp.spaced kvs)
      by (by rewrite <- app_assoc).
    replace (S (length pre) + length (RelayApp.renderParam kv))%nat
      with (length (pre ++ 32 :: RelayApp.renderParam kv))
      by (rewrite length_app; cbn [length]; lia).
    apply IH; [done|cbn [length] in Hfuel; lia].
Qed.

Lemma spaced_length kvs : (length kvs <= length (RelayApp.spaced kvs))%nat.
Proof.
  induction kvs as [|kv kvs IH]; [done|].
  change (RelayApp.spaced (kv :: kvs)) with ((32 :: RelayApp.renderParam kv) ++ RelayApp.spaced kvs).
  rewrite length_app. cbn [length]. lia.
Qed.

Lemma actionOf_renderParams kvs :
  Forall RelayApp.isParam kvs -> RelayApp.actionOf (RelayApp.renderParams kvs) = RelayApp.objectOf kvs.
Proof.
  intros Hkvs. unfold RelayApp.actionOf, RelayApp.objectOf.
  destruct kvs as [|kv kvs]; [reflexivity|].
  apply Forall_cons in Hkvs as [Hkv Hkvs].
  rewrite renderParams_cons, readParams_S.
  pose proof (exec_at RelayApp.paramRegex [] (RelayApp.renderParam kv ++ RelayApp.spaced kvs) eq_refl) as He.
  cbn [app length] in He. rewrite He.
  change (Regex.ignoreCase RelayApp.paramRegex) with false.
  rewrite search_unfold, param_here by done.
  cbn [Regex.m_index Regex.m_text foldl].
  change (RelayApp.group (Regex.Match ?i ?t [?x; ?y]) 1) with x.
  change (RelayApp.group (Regex.Match ?i ?t [?x; ?y]) 2) with y.
  rewrite Nat.add_0_l.
  rewrite readParams_spaced; [done|done|].
  rewrite length_app. pose proof (spaced_length kvs).
  destruct kv as [k v]. destruct Hkv as [Hk _]. unfold RelayApp.renderParam. cbn [fst].
  destruct k; [done|]. cbn [length app]. lia.
Qed.

Lemma objectOf_snoc kvs kv :
  RelayApp.objectOf (kvs ++ [kv]) = RelayApp.setProperty (RelayApp.objectOf kvs) kv.1 kv.2.
Proof. unfold RelayApp.objectOf. by rewrite foldl_app. Qed.

Lemma objectOf_typed kvs :
  Forall RelayApp.isParam kvs -> js "type" ∈ kvs.*1 -> RelayApp.typed (RelayApp.objectOf kvs) = true.
Proof.
  induction kvs as [|[k v] kvs IH] using rev_ind; [by intros _ ?%elem_of_nil|].
  intros [Hkvs [Hkv _]%Forall_cons]%Forall_app Hin.
  rewrite objectOf_snoc. cbn [fst snd].
  unfold RelayApp.typed, RelayApp.prop, RelayApp.setProperty.
  destruct (decide (k = js "type")) as [->|Hk].
  - rewrite bool_decide_eq_false_2 by done. rewrite lookup_insert_eq.
    destruct Hkv as (_ & _ & Hv & _). cbn [snd] in Hv. by destruct v.
  - rewrite fmap_app in Hin. apply elem_of_app in Hin as [Hin|Hin].
    + specialize (IH Hkvs Hin). unfold RelayApp.typed, RelayApp.prop in IH.
      case_bool_decide; [done|]. by rewrite lookup_insert_ne.
    + cbn in Hin. apply list_elem_of_singleton in Hin. done.
Qed.

Lemma renderParam_no93 kv :
  RelayApp.isParam kv -> 93 ∉ kv.2 -> 93 ∉ RelayApp.renderParam kv.
Proof.
  destruct kv as [k v]. intros (_ & Hword & _ & _) Hv. cbn [fst snd] in *.
  unfold RelayApp.renderParam, JS.quoted. cbn [fst snd].
  rewrite !not_elem_of_app. split_and!; try done.
  - intros Hin. rewrite Forall_forall in Hword. by apply Hword in Hin.
  - by vm_compute; intros ?%list_elem_of_In; simpl in *; intuition lia.
  - by vm_compute; intros ?%list_elem_of_In; simpl in *; intuition lia.
  - by vm_compute; intros ?%list_elem_of_In; simpl in *; intuition lia.
Qed.

Lemma spaced_no93 kvs :
  Forall RelayApp.isParam kvs -> Forall (fun kv => 93 ∉ kv.2) kvs -> 93 ∉ RelayApp.spaced kvs.
Proof.
  induction 1 as [|kv kvs Hkv _ IH]; [intros _; apply not_elem_of_nil|].
  intros [Hv Hvs]%Forall_cons.
  change (RelayApp.spaced (kv :: kvs)) with ((32 :: RelayApp.renderParam kv) ++ RelayApp.spaced kvs).
  rewrite not_elem_of_app, not_elem_of_cons. split_and!; [done| |by apply IH].
  by apply renderParam_no93.
Qed.

(** *** Tags written in the grammar *)

Lemma written_body kvs :
  Forall RelayApp.isTagParam kvs -> RelayApp.isBody (RelayApp.written kvs).
Proof.
  intros H. split; [done|]. unfold RelayApp.written.
  apply not_elem_of_cons. split; [done|].
  destruct kvs as [|kv kvs]; [apply not_elem_of_nil|].
  apply Forall_cons in H as [[Hkv Hv] H]. rewrite renderParams_cons.
  apply not_elem_of_app. split; [by apply renderParam_no93|].
  apply spaced_no93.
  - eapply Forall_impl; [exact H|]. by intros ? [? _].
  - eapply Forall_impl; [exact H|]. by intros ? [_ ?].
Qed.

Lemma word_not_space c : JS.isWord c = true -> JS.isSpace c = false.
Proof.
  intros Hc. destruct (JS.isSpace c) eqn:Hs; [|done]. exfalso. revert Hc Hs.
  unfold JS.isWord, JS.isUpper, JS.isLower, JS.isDigit, JS.isSpace.
  rewrite !orb_true_iff, !andb_true_iff, !N.leb_le, !N.eqb_eq. lia.
Qed.

Lemma written_read kvs :
  Forall RelayApp.isParam kvs ->
  RelayApp.actionOf (RelayApp.contentOf (RelayApp.written kvs)) = RelayApp.objectOf kvs.
Proof.
  intros Hkvs. destruct kvs as [|kv kvs]; [reflexivity|].
  rewrite <- actionOf_renderParams by done. f_equal.
  unfold RelayApp.contentOf, RelayApp.written. rewrite renderParams_cons.
  apply Forall_cons in Hkvs as [(Hk & Hword & _) _].
  destruct kv as [[|c k] v]; [done|]. apply Forall_cons in Hword as [Hc _].
  cbn [fst] in *. unfold RelayApp.renderParam. cbn [fst app JS.trimStart].
  change (JS.isSpace 32) with true. cbv iota. cbn [JS.trimStart].
  by rewrite word_not_space.
Qed.

Lemma objectOf_untyped kvs :
  js "type" ∉ kvs.*1 -> RelayApp.objectOf kvs !! js "type" = None.
Proof.
  induction kvs as [|[k v] kvs IH] using rev_ind; [done|].
  rewrite fmap_app. intros [Hkvs Hk]%not_elem_of_app.
  rewrite objectOf_snoc. cbn [fst snd] in *. unfold RelayApp.setProperty.
  case_bool_decide; [by apply IH|].
  rewrite lookup_insert_ne; [by apply IH|].
  intros ->. apply Hk. by apply list_elem_of_singleton.
Qed.

Lemma objectOf_typed_iff kvs :
  Forall RelayApp.isParam kvs ->
  RelayApp.typed (RelayApp.objectOf kvs) = RelayApp.hasTypeKey kvs.
Proof.
  intros H. unfold RelayApp.hasTypeKey. case_bool_decide as Hin.
  - by apply objectOf_typed.
  - unfold RelayApp.typed, RelayApp.prop. by rewrite objectOf_untyped.
Qed.

Lemma written_actions (segs : list (list (jsstring * jsstring) * jsstring)) :
  Forall (fun seg => Forall RelayApp.isTagParam seg.1) segs ->
  List.filter RelayApp.typed
    (map (fun seg => RelayApp.actionOf (RelayApp.contentOf seg.1))
       (map (fun seg => (RelayApp.written seg.1, seg.2)) segs))
  = map RelayApp.objectOf (List.filter RelayApp.hasTypeKey (map fst segs)).
Proof.
  induction 1 as [|[kvs prose] segs Hkvs _ IH]; [done|].
  cbn [map List.filter fst snd] in *.
  assert (Hp : Forall RelayApp.isParam kvs)
    by (eapply Forall_impl; [exact Hkvs|]; by intros ? [? _]).
  rewrite written_read, objectOf_typed_iff by done.
  destruct (RelayApp.hasTypeKey kvs); cbn [map]; by rewrite IH.
Qed.

(** C3, as the specification states it: the text would come back with
    its white space unaltered, unchanged when the input is malformed,
    and without any of the matched tags.  The text is trimmed at both
    ends; and a tag is taken out where its text first occurs, which is
    not the place of the match when taking out the tags before it has
    put the same text together further left. *)
Lemma parseAIResponse_alters_text :
  RelayApp.parseAIResponse (js " [ACTION: type=") <> Some (js " [ACTION: type=", [])
  /\ fst <$> RelayApp.parseAIResponse
               (js "Let me check. " ++ RelayApp.tag (js " type=" ++ jsq "query-system"))
     <> Some (js "Let me check. ")
  /\ RelayApp.parseAIResponse (js "[ACT[ACTION: a]ION: b] x [ACTION: b] y")
     = Some (js "x [ACTION: b] y", []).
Proof. split_and!; by vm_compute. Qed.

(** C3, amended.  [parseAIResponse] returns for every string.  For a
    text in which no tag occurs the text returned is the trimmed input
    and there is no action.  For a text made of prose and of tags
    [[ACTION:body]] whose body is not empty and holds no []], in which
    the marker [[ACTION:] occurs nowhere outside the tags, also not
    where taking out a tag joins two pieces of prose (other brackets
    are allowed), the text returned is the input with every tag taken
    out once, trimmed of the white space at its two ends and otherwise
    unaltered.  When the tags are written in the grammar, a space and
    then parameters (a key of word characters, [=], and between double
    quotes a value that is not empty and holds neither a double quote
    nor []]) separated by single spaces, the actions are, in order, one
    object for each tag that has the key [type], which assigns the
    values to the keys as written, so that their number is the number
    of tags with a [type] key. *)
Theorem parseAIResponse_spec :
  (forall s, is_Some (RelayApp.parseAIResponse s))
  /\ (forall s,
        ~ Regex.occurs RelayApp.actionBlockRegex s ->
        RelayApp.parseAIResponse s = Some (JS.trim s, []))
  /\ (forall prose segments,
        Forall (fun seg => RelayApp.isBody seg.1) segments ->
        JS.includes RelayApp.marker (RelayApp.proseOf prose segments) = false ->
        exists actions,
          RelayApp.parseAIResponse (RelayApp.render prose segments)
          = Some (JS.trim (RelayApp.proseOf prose segments), actions)
          /\ (length actions <= length segments)%nat)
  /\ (forall prose (segments : list (list (jsstring * jsstring) * jsstring)),
        Forall (fun seg => Forall RelayApp.isTagParam seg.1) segments ->
        let texts := map (fun seg => (RelayApp.written seg.1, seg.2)) segments in
        JS.includes RelayApp.marker (RelayApp.proseOf prose texts) = false ->
        exists actions,
          RelayApp.parseAIResponse (RelayApp.render prose texts)
          = Some (JS.trim (RelayApp.proseOf prose texts), actions)
          /\ actions
             = map RelayApp.objectOf
                 (List.filter RelayApp.hasTypeKey (map fst segments))
          /\ length actions
             = length (List.filter (fun seg => RelayApp.hasTypeKey seg.1) segments)).
Proof.
  split_and!.
  - apply parseAIResponse_total.
  - apply parseAIResponse_no_tag.
  - intros prose segments Hsegs Hfree. eexists. split.
    + by apply parseAIResponse_tags.
    + clear. induction segments as [|seg segments IH]; [done|].
      cbn [map List.filter]. destruct (RelayApp.typed _); cbn [length]; lia.
  - intros prose segments Hsegs. cbv zeta. intros Hfree. eexists. split_and!.
    + apply parseAIResponse_tags; [|done].
      apply Forall_map. eapply Forall_impl; [exact Hsegs|].
      intros seg Hseg. by apply written_body.
    + by apply written_actions.
    + rewrite written_actions by done. rewrite length_map.
      clear. induction segments as [|seg segments IH]; [done|].
      cbn [map List.filter].
      destruct (RelayApp.hasTypeKey seg.1); cbn [length]; by rewrite IH.
Qed.

Lemma parseAIResponse_scenario :
  RelayApp.parseAIResponse
    (js "- [ ] Let me check. [ACTION: type=" ++ jsq "query-system" ++ js " queryType="
     ++ jsq "top-processes" ++ js "] Done. ")
  = Some (js "- [ ] Let me check.  Done.",
          [ {[ js "type" := js "query-system";
               js "queryType" := js "top-processes" ]} ]).
Proof.
  destruct parseAIResponse_spec as (_ & _ & _ & H).
  destruct (H (js "- [ ] Let me check. ")
              [([(js "type", js "query-system"); (js "queryType", js "top-processes")],
                js " Done. ")])
    as (actions & Hparse & Hactions & _).
  - constructor; [|constructor].
    constructor; [|constructor; [|constructor]];
      (split; [unfold RelayApp.isParam; cbn [fst snd]; split_and!;
               [by vm_compute
               |apply Forall_forall; intros c Hc%list_elem_of_In; vm_compute in Hc;
                by repeat destruct Hc as [<-|Hc]
               |by vm_compute
               |apply (bool_decide_unpack _); by vm_compute]
              |apply (bool_decide_unpack _); by vm_compute]).
  - by vm_compute.
  - refine (eq_trans _ (eq_trans Hparse _)).
    + by vm_compute.
    + rewrite Hactions. by vm_compute.
Defined.

(** ** The agentic loop *)

Section LoopFacts.
Variable w : RelayApp.world.

Lemma psm_limit fuel msg step st :
  (RelayApp.MAX_AGENTIC_STEPS <= step)%nat ->
  RelayApp.processSystemMessage w (S fuel) msg step st
  = Some (RelayApp.setProcessing false
            (RelayApp.addMessage RelayApp.summaryMessage RelayApp.Assistant [] st)).
Proof.
  intros H. cbn [RelayApp.processSystemMessage].
  replace (step =? 0)%nat with false
    by (symmetry; apply Nat.eqb_neq; unfold RelayApp.MAX_AGENTIC_STEPS in H; lia).
  cbn [andb]. by rewrite (proj2 (Nat.leb_le _ _) H).
Qed.

Lemma relayRunSafeCommand_state queryType st :
  let st' := snd (RelayApp.relayRunSafeCommand w queryType st) in
  RelayApp.calls st' = RelayApp.calls st ++ [RelayApp.RunSafeCommand (JS.show queryType)]
  /\ RelayApp.isProcessing st' = RelayApp.isProcessing st
  /\ RelayApp.ui st' = RelayApp.ui st
  /\ RelayApp.systemContext st' = RelayApp.systemContext st.
Proof.
  unfold RelayApp.relayRunSafeCommand.
  by destruct (CommandExecutor.runSafeCommand _ _ _ _).
Qed.

Lemma extends_refl (P : list RelayApp.relay_call -> Prop) b n m st st' :
  P [] -> RelayApp.calls st' = RelayApp.calls st -> RelayApp.extends P b n m st st'.
Proof.
  intros HP H. exists []. rewrite app_nil_r. split_and!; [done|done|cbn; lia..|done].
Qed.

(** A step of the loop that consults the backend: the consultation, then
    what the dispatched action adds. *)
Lemma extends_chat (P : list RelayApp.relay_call -> Prop) c step st st2 st3 :
  RelayApp.extends P false (RelayApp.MAX_AGENTIC_STEPS - (step + 1))
    (S (RelayApp.MAX_AGENTIC_STEPS - (step + 1))) st2 st3 ->
  RelayApp.isChat c = true ->
  (step < RelayApp.MAX_AGENTIC_STEPS)%nat ->
  RelayApp.calls st2 = RelayApp.calls st ++ [c] ->
  RelayApp.extends (RelayApp.beginsWith c) true (RelayApp.MAX_AGENTIC_STEPS - step)
    (RelayApp.MAX_AGENTIC_STEPS - step) st st3.
Proof.
  intros (new & Hnew & Halt & Hchats & Hdisp & _) Hc Hstep H.
  exists (c :: new). rewrite Hnew, H, <- app_assoc.
  unfold RelayApp.MAX_AGENTIC_STEPS, RelayApp.chats, RelayApp.dispatches in *.
  destruct c; try done. cbn -[Nat.sub]. rewrite Halt. split_and!; [done|done|lia..|done].
Qed.

Lemma extends_chat_only c step st st2 :
  RelayApp.isChat c = true ->
  (step < RelayApp.MAX_AGENTIC_STEPS)%nat ->
  RelayApp.calls st2 = RelayApp.calls st ++ [c] ->
  RelayApp.extends (RelayApp.beginsWith c) true (RelayApp.MAX_AGENTIC_STEPS - step)
    (RelayApp.MAX_AGENTIC_STEPS - step) st st2.
Proof.
  intros Hc Hstep H. exists [c].
  unfold RelayApp.MAX_AGENTIC_STEPS, RelayApp.chats, RelayApp.dispatches in *.
  destruct c; try done. cbn -[Nat.sub]. split_and!; [done|done|lia..|done].
Qed.

Lemma extends_dispatch (P Q : list RelayApp.relay_call -> Prop) c n st st2 st3 :
  RelayApp.extends P true n n st2 st3 ->
  RelayApp.isDispatch c = true ->
  RelayApp.calls st2 = RelayApp.calls st ++ [c] ->
  (forall new, P new -> Q (c :: new)) ->
  RelayApp.extends Q false n (S n) st st3.
Proof.
  intros (new & Hnew & Halt & Hchats & Hdisp & HP) Hc H HPQ.
  exists (c :: new). rewrite Hnew, H, <- app_assoc.
  unfold RelayApp.chats, RelayApp.dispatches in *.
  destruct c; try done; cbn; rewrite Halt; split_and!; try done; try lia; by apply HPQ.
Qed.

Lemma loop_trace fuel :
  (forall msg step st st',
     RelayApp.processSystemMessage w fuel msg step st = Some st' ->
     RelayApp.extends (RelayApp.beginsWith (RelayApp.Chat msg (RelayApp.systemContext st)))
       true (RelayApp.MAX_AGENTIC_STEPS - step)
       (RelayApp.MAX_AGENTIC_STEPS - step) st st')
  /\ (forall a step st st',
        RelayApp.executeQueryActionAgentic w fuel a step st = Some st' ->
        RelayApp.extends (RelayApp.queryTrace (RelayApp.prop a "queryType") st)
          false (RelayApp.MAX_AGENTIC_STEPS - step)
          (S (RelayApp.MAX_AGENTIC_STEPS - step)) st st')
  /\ (forall step st st',
        RelayApp.executeDeepScan w fuel step st = Some st' ->
        RelayApp.extends (fun new => exists rest, new = RelayApp.RunDeepScan :: rest)
          false (RelayApp.MAX_AGENTIC_STEPS - default 0%nat step)
          (S (RelayApp.MAX_AGENTIC_STEPS - default 0%nat step)) st st').
Proof.
  induction fuel as [|fuel (IHp & IHq & IHd)]; [by split_and!|].
  split_and!.
  - intros msg step st st'. cbn [RelayApp.processSystemMessage].
    destruct ((step =? 0)%nat && RelayApp.isProcessing st);
      [intros [= <-]; by apply extends_refl|].
    destruct (RelayApp.MAX_AGENTIC_STEPS <=? step)%nat eqn:Hmax;
      [intros [= <-]; by apply extends_refl|].
    apply Nat.leb_gt in Hmax. unfold RelayApp.relayChat.
    set (st1 := RelayApp.emit _ (RelayApp.emit _ (RelayApp.setProcessing true st))).
    change (RelayApp.systemContext st1) with (RelayApp.systemContext st).
    destruct (RelayApp.chat w _ _ _) as [response|];
      [|intros [= <-]; by apply extends_chat_only].
    destruct (RelayApp.r_error response);
      [intros [= <-]; by apply extends_chat_only|].
    destruct (RelayApp.r_text response) as [responseText|];
      [|intros [= <-]; by apply extends_chat_only].
    destruct (RelayApp.parseAIResponse responseText) as [[text actions]|]; [|done].
    destruct (List.filter RelayApp.isQuery actions) as [|q qs].
    + destruct (List.filter _ actions) as [|d ds].
      * intros [= <-]. by apply extends_chat_only.
      * intros H. apply IHd in H. by eapply extends_chat; [exact H|..].
    + intros H. apply IHq in H. by eapply extends_chat; [exact H|..].
  - intros a step st st'. cbn [RelayApp.executeQueryActionAgentic].
    set (queryType := RelayApp.prop a "queryType").
    set (st1 := RelayApp.emit _ st).
    pose proof (relayRunSafeCommand_state queryType st1) as (Hcalls & _ & _ & Hctx).
    destruct (RelayApp.relayRunSafeCommand w _ st1) as [r st2].
    cbn [snd] in Hcalls, Hctx.
    intros H. apply IHp in H.
    eapply (extends_dispatch _ _ (RelayApp.RunSafeCommand (JS.show queryType)));
      [exact H|done| |clear H].
    + destruct (success r && _); cbn [RelayApp.calls]; by rewrite Hcalls.
    + intros new Hnew. exists r, new. split; [done|].
      destruct new as [|c new]; [done|]. unfold RelayApp.beginsWith in Hnew. subst c.
      eexists. split; [reflexivity|].
      destruct (success r && _); cbn [RelayApp.systemContext RelayApp.lastQueryResult].
      * right. eexists. split; [done|]. unfold JS.substring0. rewrite length_take. lia.
      * left. by rewrite Hctx.
  - intros step st st'. cbn [RelayApp.executeDeepScan]. unfold RelayApp.relayRunDeepScan.
    destruct (RelayApp.runDeepScan w _) as [results|msg].
    + destruct step as [step|].
      * intros H. apply IHp in H.
        eapply (extends_dispatch _ _ RelayApp.RunDeepScan); [exact H|done|done|].
        intros new _. by exists new.
      * intros [= <-]. exists [RelayApp.RunDeepScan].
        cbn -[Nat.sub]. split_and!; [done|done|lia..|by exists []].
    + intros [= <-]. exists [RelayApp.RunDeepScan].
      cbn -[Nat.sub]. split_and!; [done|done|lia..|by exists []].
Qed.

Lemma loop_total fuel :
  (forall msg step st,
     (2 * (RelayApp.MAX_AGENTIC_STEPS - step) < fuel)%nat ->
     is_Some (RelayApp.processSystemMessage w fuel msg step st))
  /\ (forall a step st,
        (2 * (RelayApp.MAX_AGENTIC_STEPS - step) + 1 < fuel)%nat ->
        is_Some (RelayApp.executeQueryActionAgentic w fuel a step st))
  /\ (forall step st,
        (2 * (RelayApp.MAX_AGENTIC_STEPS - default 0%nat step) + 1 < fuel)%nat ->
        is_Some (RelayApp.executeDeepScan w fuel step st)).
Proof.
  induction fuel as [|fuel (IHp & IHq & IHd)]; [split_and!; intros; lia|].
  split_and!.
  - intros msg step st Hfuel. cbn [RelayApp.processSystemMessage].
    destruct (_ && _); [done|].
    destruct (RelayApp.MAX_AGENTIC_STEPS <=? step)%nat eqn:Hmax; [done|].
    apply Nat.leb_gt in Hmax. unfold RelayApp.relayChat.
    destruct (RelayApp.chat w _ _ _) as [response|]; [|done].
    destruct (RelayApp.r_error response); [done|].
    destruct (RelayApp.r_text response) as [responseText|]; [|done].
    destruct (parseAIResponse_total responseText) as [[text actions] ->].
    destruct (List.filter RelayApp.isQuery actions) as [|q qs].
    + destruct (List.filter _ actions) as [|d ds]; [done|].
      apply IHd. change (default 0%nat (Some ?x)) with x. lia.
    + apply IHq. lia.
  - intros a step st Hfuel. cbn [RelayApp.executeQueryActionAgentic].
    destruct (RelayApp.relayRunSafeCommand w _ _) as [r st2].
    apply IHp. lia.
  - intros step st Hfuel. cbn [RelayApp.executeDeepScan].
    destruct (RelayApp.relayRunDeepScan _ _) as [[results|msg] st2]; [|done].
    destruct step as [step|]; [|done]. apply IHp.
    change (default 0%nat (Some ?x)) with x in Hfuel. lia.
Qed.

Lemma executeQueryAction_total a st : is_Some (RelayApp.executeQueryAction w a st).
Proof.
  unfold RelayApp.executeQueryAction.
  assert (H : (2 * (RelayApp.MAX_AGENTIC_STEPS - 0) + 1 < RelayApp.enough)%nat)
    by (unfold RelayApp.enough, RelayApp.MAX_AGENTIC_STEPS; lia).
  revert H. generalize RelayApp.enough. intros fuel H.
  by apply (loop_total fuel).
Qed.

Lemma psm_action_bearing :
  RelayApp.actionBearing w ->
  forall k fuel msg st,
    (k <= RelayApp.MAX_AGENTIC_STEPS)%nat -> (2 * k < fuel)%nat ->
    (k = RelayApp.MAX_AGENTIC_STEPS -> RelayApp.isProcessing st = false) ->
    exists st' new,
      RelayApp.processSystemMessage w fuel msg (RelayApp.MAX_AGENTIC_STEPS - k) st
      = Some st'
      /\ RelayApp.calls st' = RelayApp.calls st ++ new
      /\ RelayApp.chats new = k /\ RelayApp.dispatches new = k
      /\ last (RelayApp.ui st')
         = Some (RelayApp.AddMessage RelayApp.summaryMessage RelayApp.Assistant [])
      /\ RelayApp.isProcessing st' = false.
Proof.
  intros Hw. induction k as [|k IH]; intros fuel msg st Hk Hfuel Hidle.
  - destruct fuel as [|fuel]; [lia|]. rewrite psm_limit by lia.
    eexists _, []. rewrite app_nil_r. split_and!; try done.
    cbn. by rewrite last_snoc.
  - destruct fuel as [|[|fuel]]; [lia..|].
    set (step := (RelayApp.MAX_AGENTIC_STEPS - S k)%nat).
    cbn [RelayApp.processSystemMessage].
    assert (Hearly : (step =? 0)%nat && RelayApp.isProcessing st = false).
    { destruct (step =? 0)%nat eqn:H0; [|done]. apply Nat.eqb_eq in H0.
      rewrite Hidle; [done|]. subst step. lia. }
    rewrite Hearly.
    replace (RelayApp.MAX_AGENTIC_STEPS <=? step)%nat with false
      by (symmetry; apply Nat.leb_gt; subst step;
          unfold RelayApp.MAX_AGENTIC_STEPS in *; lia).
    unfold RelayApp.relayChat.
    set (st1 := RelayApp.emit _ (RelayApp.emit _ (RelayApp.setProcessing true st))).
    destruct (Hw (length (RelayApp.calls st1)) msg (RelayApp.systemContext st1))
      as (r & text & display & actions & q & rest & -> & -> & -> & -> & ->).
    cbn [RelayApp.executeQueryActionAgentic].
    set (st2 := RelayApp.setProcessing false _).
    set (st3 := RelayApp.emit _ st2).
    pose proof (relayRunSafeCommand_state (RelayApp.prop q "queryType") st3)
      as (Hcalls & _).
    destruct (RelayApp.relayRunSafeCommand w _ st3) as [res st4]. cbn [snd] in Hcalls.
    replace (step + 1)%nat with (RelayApp.MAX_AGENTIC_STEPS - k)%nat
      by (subst step; unfold RelayApp.MAX_AGENTIC_STEPS in *; lia).
    match goal with
    | |- context [RelayApp.processSystemMessage w fuel ?m _ ?s] =>
        destruct (IH fuel m s) as (st' & new & Hrun & Hnew & Hc & Hd & Hlast & Hidle');
          [lia|lia|intros ->; unfold RelayApp.MAX_AGENTIC_STEPS in *; lia|]
    end.
    exists st', (RelayApp.Chat msg (RelayApp.systemContext st1)
                 :: RelayApp.RunSafeCommand (JS.show (RelayApp.prop q "queryType"))
                 :: new).
    split_and!; try done.
    + rewrite Hnew. destruct (success res && _); cbn [RelayApp.calls];
        rewrite Hcalls; subst st3 st2 st1; cbn; by rewrite <- !app_assoc.
    + unfold RelayApp.chats in *. cbn. by rewrite Hc.
    + unfold RelayApp.dispatches in *. cbn. by rewrite Hd.
Qed.

End LoopFacts.

Section Steps.
Variable w : RelayApp.world.

Lemma eqa_S fuel a step st :
  RelayApp.executeQueryActionAgentic w (S fuel) a step st =
  let queryType := RelayApp.prop a "queryType" in
  let label := default (js "Gathering info") (RelayApp.queryLabels !! JS.show queryType) in
  let st := RelayApp.emit (RelayApp.SetStatus (js "busy") (label ++ js "...")) st in
  let '(r, st) := RelayApp.relayRunSafeCommand w queryType st in
  let st :=
    if success r && JS.truthyOpt (output r) then
      RelayApp.State (RelayApp.isProcessing st)
        (RelayApp.Context
           (Some (RelayApp.QueryResult queryType
                    (JS.substring0 2000 (default [] (output r))))))
        (RelayApp.ui st) (RelayApp.calls st) (RelayApp.main st)
    else st in
  RelayApp.processSystemMessage w fuel (RelayApp.systemResult queryType r) step st.
Proof. reflexivity. Qed.

Lemma psm_early fuel msg st :
  RelayApp.isProcessing st = true ->
  RelayApp.processSystemMessage w (S fuel) msg 0 st = Some st.
Proof. intros H. cbn [RelayApp.processSystemMessage]. by rewrite H. Qed.

Lemma executeQueryAction_bounded a st :
  exists st' new,
    RelayApp.executeQueryAction w a st = Some st'
    /\ RelayApp.calls st' = RelayApp.calls st ++ new
    /\ RelayApp.alternates false new = true
    /\ (RelayApp.chats new <= RelayApp.MAX_AGENTIC_STEPS)%nat
    /\ (RelayApp.dispatches new <= S RelayApp.MAX_AGENTIC_STEPS)%nat.
Proof.
  destruct (executeQueryAction_total w a st) as [st' Hrun]. exists st'.
  unfold RelayApp.executeQueryAction in *. revert Hrun.
  generalize RelayApp.enough. intros fuel Hrun.
  pose proof Hrun as Htrace.
  apply (loop_trace w fuel) in Htrace as (new & Hnew & Halt & Hc & Hd & _).
  exists new. rewrite Nat.sub_0_r in Hc, Hd. done.
Qed.

Lemma executeQueryAction_action_bearing a st :
  RelayApp.actionBearing w -> RelayApp.isProcessing st = false ->
  exists st' new,
    RelayApp.executeQueryAction w a st = Some st'
    /\ RelayApp.calls st' = RelayApp.calls st ++ new
    /\ RelayApp.chats new = RelayApp.MAX_AGENTIC_STEPS
    /\ RelayApp.dispatches new = S RelayApp.MAX_AGENTIC_STEPS
    /\ last (RelayApp.ui st')
       = Some (RelayApp.AddMessage RelayApp.summaryMessage RelayApp.Assistant [])
    /\ RelayApp.isProcessing st' = false.
Proof.
  intros Hw Hidle. unfold RelayApp.executeQueryAction.
  assert (Hfuel : exists fuel,
            RelayApp.enough = S fuel /\ (2 * RelayApp.MAX_AGENTIC_STEPS < fuel)%nat).
  { exists 21%nat. split; [reflexivity|]. unfold RelayApp.MAX_AGENTIC_STEPS. lia. }
  destruct Hfuel as (fuel & -> & Hfuel). rewrite eqa_S. cbv zeta.
  set (st1 := RelayApp.emit _ st).
  pose proof (relayRunSafeCommand_state w (RelayApp.prop a "queryType") st1)
    as (Hcalls & Hproc & _).
  destruct (RelayApp.relayRunSafeCommand w _ st1) as [r st2].
  cbn [snd] in Hcalls, Hproc.
  match goal with
  | |- context [RelayApp.processSystemMessage w fuel ?m 0%nat ?s] =>
      destruct (psm_action_bearing w Hw RelayApp.MAX_AGENTIC_STEPS fuel m s)
        as (st' & new & Hrun & Hnew & Hc & Hd & Hlast & Hidle');
        [lia|lia
        |intros _; destruct (success r && _); cbn [RelayApp.isProcessing];
         rewrite Hproc; exact Hidle|]
  end.
  rewrite Nat.sub_diag in Hrun.
  exists st', (RelayApp.RunSafeCommand (JS.show (RelayApp.prop a "queryType")) :: new).
  split_and!; try done.
  - rewrite Hnew. destruct (success r && _); cbn [RelayApp.calls]; rewrite Hcalls;
      by rewrite <- app_assoc.
  - unfold RelayApp.dispatches in *. cbn. by rewrite Hd.
Qed.

End Steps.

(** C5, as the specification states it: the summary would take the
    place of an eleventh command.  In a session started by a query, with
    a backend that asks for a further query at every step, the eleventh
    command is dispatched, at step count 10, and the summary follows. *)
Lemma eleventh_command_dispatched :
  exists st',
    RelayApp.executeQueryAction
      (RelayApp.steady (js "Checking. " ++ RelayApp.queryTag "uptime") (js "up 3 days"))
      (RelayApp.query "disk-usage") (RelayApp.idle "linux")
    = Some st'
    /\ last (RelayApp.ui st')
       = Some (RelayApp.AddMessage RelayApp.summaryMessage RelayApp.Assistant [])
    /\ RelayApp.chats (RelayApp.calls st') = 10%nat
    /\ ~ (RelayApp.dispatches (RelayApp.calls st') <= RelayApp.MAX_AGENTIC_STEPS)%nat
    /\ length (CommandExecutor.spawned (RelayApp.main st')) = 11%nat.
Proof.
  eexists. split; [vm_compute; reflexivity|].
  split_and!; [by vm_compute..|vm_compute; lia|by vm_compute].
Qed.

(** C5, amended.  When [processSystemMessage] is entered with a step
    count of 10 or more it emits the fixed summary and returns, without a
    consultation of the backend and without a dispatch.  Every session
    started by a query action ends; the backend is consulted at most 10
    times in it, so that the step count, which grows by one at each
    consultation, does not exceed 10, and at most 11 commands are
    dispatched.  With a backend whose every answer holds a further
    query action, a session started while no message is being processed
    consults the backend 10 times, dispatches 11 commands (the one that
    started it and one for each answer), and ends with the summary.  A
    session started while a message is being processed, as when
    [sendMessage] executes the actions of a response, dispatches its one
    command and stops at the first guard of [processSystemMessage]: the
    backend is not consulted, no summary is shown and [isProcessing]
    stays set. *)
Theorem agentic_loop_bounded :
  (forall w fuel msg step st,
     (RelayApp.MAX_AGENTIC_STEPS <= step)%nat ->
     RelayApp.processSystemMessage w (S fuel) msg step st
     = Some (RelayApp.setProcessing false
               (RelayApp.addMessage RelayApp.summaryMessage RelayApp.Assistant [] st)))
  /\ (forall w a st,
        exists st' new,
          RelayApp.executeQueryAction w a st = Some st'
          /\ RelayApp.calls st' = RelayApp.calls st ++ new
          /\ RelayApp.alternates false new = true
          /\ (RelayApp.chats new <= RelayApp.MAX_AGENTIC_STEPS)%nat
          /\ (RelayApp.dispatches new <= S RelayApp.MAX_AGENTIC_STEPS)%nat)
  /\ (forall w a st,
        RelayApp.actionBearing w -> RelayApp.isProcessing st = false ->
        exists st' new,
          RelayApp.executeQueryAction w a st = Some st'
          /\ RelayApp.calls st' = RelayApp.calls st ++ new
          /\ RelayApp.chats new = RelayApp.MAX_AGENTIC_STEPS
          /\ RelayApp.dispatches new = S RelayApp.MAX_AGENTIC_STEPS
          /\ last (RelayApp.ui st')
             = Some (RelayApp.AddMessage RelayApp.summaryMessage RelayApp.Assistant [])
          /\ RelayApp.isProcessing st' = false)
  /\ (forall w a st,
        RelayApp.isProcessing st = true ->
        exists st' label,
          RelayApp.executeQueryAction w a st = Some st'
          /\ RelayApp.calls st'
             = RelayApp.calls st
               ++ [RelayApp.RunSafeCommand (JS.show (RelayApp.prop a "queryType"))]
          /\ RelayApp.ui st' = RelayApp.ui st ++ [RelayApp.SetStatus (js "busy") label]
          /\ RelayApp.isProcessing st' = true).
Proof.
  split_and!.
  - intros. by apply psm_limit.
  - intros. apply executeQueryAction_bounded.
  - intros. by apply executeQueryAction_action_bearing.
  - intros w a st Hbusy. unfold RelayApp.executeQueryAction.
    change RelayApp.enough with (S (S 20)). rewrite eqa_S. cbv zeta.
    set (st1 := RelayApp.emit _ st).
    pose proof (relayRunSafeCommand_state w (RelayApp.prop a "queryType") st1)
      as (Hcalls & Hproc & Hui & _).
    destruct (RelayApp.relayRunSafeCommand w _ st1) as [r st2].
    cbn [snd] in Hcalls, Hproc, Hui.
    rewrite psm_early.
    + eexists _, _. split; [done|].
      destruct (success r && _);
        cbn [RelayApp.calls RelayApp.isProcessing RelayApp.ui];
        by rewrite Hcalls, Hproc, Hui.
    + destruct (success r && _); cbn [RelayApp.isProcessing]; by rewrite Hproc.
Qed.

Lemma steady_action_bearing stdout :
  RelayApp.actionBearing
    (RelayApp.steady (js "Checking. " ++ RelayApp.queryTag "uptime") stdout).
Proof.
  intros n msg ctx. eexists _, _, _, _, _, _. split_and!; [reflexivity..| |].
  - vm_compute. reflexivity.
  - vm_compute. reflexivity.
Qed.

Lemma agentic_loop_steady :
  exists st' new,
    RelayApp.executeQueryAction
      (RelayApp.steady (js "Checking. " ++ RelayApp.queryTag "uptime") (js "up 3 days"))
      (RelayApp.query "disk-usage") (RelayApp.idle "linux")
    = Some st'
    /\ RelayApp.calls st' = new
    /\ RelayApp.chats new = 10%nat
    /\ RelayApp.dispatches new = 11%nat
    /\ last (RelayApp.ui st')
       = Some (RelayApp.AddMessage RelayApp.summaryMessage RelayApp.Assistant [])
    /\ RelayApp.isProcessing st' = false.
Proof.
  destruct agentic_loop_bounded as (_ & _ & H & _).
  destruct (H (RelayApp.steady (js "Checking. " ++ RelayApp.queryTag "uptime")
                 (js "up 3 days"))
              (RelayApp.query "disk-usage") (RelayApp.idle "linux"))
    as (st' & new & Hrun & Hcalls & Hrest).
  - apply steady_action_bearing.
  - reflexivity.
  - exists st', new. split; [exact Hrun|]. split; [exact Hcalls|]. exact Hrest.
Defined.

(** *** What a response dispatches *)

Section Dispatch.
Variable w : RelayApp.world.

Lemma psm_dispatches_one fuel msg step st st' r text display actions :
  (step =? 0)%nat && RelayApp.isProcessing st = false ->
  (step < RelayApp.MAX_AGENTIC_STEPS)%nat ->
  RelayApp.chat w (length (RelayApp.calls st)) msg (RelayApp.systemContext st)
  = RelayApp.ChatResolved r ->
  RelayApp.r_error r = false -> RelayApp.r_text r = Some text ->
  RelayApp.parseAIResponse text = Some (display, actions) ->
  RelayApp.processSystemMessage w fuel msg step st = Some st' ->
  exists rest,
    RelayApp.calls st'
    = RelayApp.calls st
      ++ RelayApp.Chat msg (RelayApp.systemContext st)
         :: match RelayApp.dispatchedBy actions with
            | Some c => c :: rest
            | None => []
            end
    /\ RelayApp.alternates true rest = true.
Proof.
  intros Hearly Hstep Hchat Herr Htext Hparse.
  destruct fuel as [|fuel]; [done|]. cbn [RelayApp.processSystemMessage].
  rewrite Hearly. rewrite (proj2 (Nat.leb_gt _ _) Hstep).
  unfold RelayApp.relayChat.
  set (st1 := RelayApp.emit _ (RelayApp.emit _ (RelayApp.setProcessing true st))).
  change (RelayApp.calls st1) with (RelayApp.calls st).
  change (RelayApp.systemContext st1) with (RelayApp.systemContext st).
  rewrite Hchat, Herr, Htext, Hparse. unfold RelayApp.dispatchedBy.
  destruct (List.filter RelayApp.isQuery actions) as [|q qs].
  - destruct (List.filter _ actions) as [|d ds].
    + intros [= <-]. by exists [].
    + intros H. apply (loop_trace w fuel) in H as (new & Hnew & Halt & _ & _ & rest & ->).
      exists rest. split; [|done]. rewrite Hnew. cbn. by rewrite <- app_assoc.
  - intros H.
    apply (loop_trace w fuel) in H as (new & Hnew & Halt & _ & _ & res & rest & -> & _).
    exists rest. split; [|done]. rewrite Hnew. cbn. by rewrite <- app_assoc.
Qed.

Lemma executeQueryAction_while_processing a st :
  RelayApp.isProcessing st = true ->
  exists st',
    RelayApp.executeQueryAction w a st = Some st'
    /\ RelayApp.calls st'
       = RelayApp.calls st ++ [RelayApp.RunSafeCommand (JS.show (RelayApp.prop a "queryType"))]
    /\ RelayApp.isProcessing st' = true.
Proof.
  intros Hbusy. unfold RelayApp.executeQueryAction.
  change RelayApp.enough with (S (S 20)). rewrite eqa_S. cbv zeta.
  set (st1 := RelayApp.emit _ st).
  pose proof (relayRunSafeCommand_state w (RelayApp.prop a "queryType") st1)
    as (Hcalls & Hproc & _).
  destruct (RelayApp.relayRunSafeCommand w _ st1) as [r st2].
  cbn [snd] in Hcalls, Hproc.
  rewrite psm_early.
  - eexists. split; [done|].
    destruct (success r && _); cbn [RelayApp.calls RelayApp.isProcessing];
      by rewrite Hcalls, Hproc.
  - destruct (success r && _); cbn [RelayApp.isProcessing]; by rewrite Hproc.
Qed.

Lemma autoExecute_calls actions : forall st,
  RelayApp.isProcessing st = true ->
  exists st',
    RelayApp.autoExecute w actions st = Some st'
    /\ RelayApp.calls st'
       = RelayApp.calls st
         ++ map (fun a => RelayApp.RunSafeCommand (JS.show (RelayApp.prop a "queryType")))
              (List.filter RelayApp.isQuery actions)
    /\ RelayApp.isProcessing st' = true.
Proof.
  induction actions as [|a actions IH]; intros st Hbusy; cbn [RelayApp.autoExecute List.filter].
  - exists st. by rewrite app_nil_r.
  - destruct (RelayApp.isQuery a); [|by apply IH].
    destruct (executeQueryAction_while_processing a st Hbusy) as (st1 & -> & Hcalls & Hbusy1).
    destruct (IH st1 Hbusy1) as (st' & -> & Hcalls' & Hbusy').
    exists st'. split_and!; [done| |done].
    rewrite Hcalls', Hcalls. cbn [map]. by rewrite <- app_assoc.
Qed.

Lemma showUtilityResults_calls utilityActions : forall text others all st,
  let st' := RelayApp.showUtilityResults w utilityActions text others all st in
  RelayApp.calls st' = RelayApp.calls st ++ map RelayApp.Utility utilityActions
  /\ RelayApp.isProcessing st' = RelayApp.isProcessing st.
Proof.
  induction utilityActions as [|a rest IH]; intros text others all st;
    cbn [RelayApp.showUtilityResults map].
  - by rewrite app_nil_r.
  - unfold RelayApp.relayUtility.
    match goal with
    | |- context [RelayApp.showUtilityResults w rest text others all ?s] =>
        destruct (IH text others all s) as [-> ->]
    end.
    destruct (JS.truthyOpt _); cbn; by rewrite <- app_assoc.
Qed.

Lemma sendMessage_dispatches_all input st r text display actions :
  JS.truthy (JS.trim input) = true -> RelayApp.isProcessing st = false ->
  RelayApp.chat w (length (RelayApp.calls st)) (JS.trim input) (RelayApp.systemContext st)
  = RelayApp.ChatResolved r ->
  RelayApp.r_error r = false -> RelayApp.r_text r = Some text ->
  RelayApp.parseAIResponse text = Some (display, actions) ->
  exists st',
    RelayApp.sendMessage w input st = Some st'
    /\ RelayApp.calls st'
       = RelayApp.calls st
         ++ RelayApp.Chat (JS.trim input) (RelayApp.systemContext st)
            :: map RelayApp.Utility
                 (List.filter (RelayApp.typeIn RelayApp.utilityActionTypes) actions)
            ++ map (fun a => RelayApp.RunSafeCommand (JS.show (RelayApp.prop a "queryType")))
                 (List.filter RelayApp.isQuery actions).
Proof.
  intros Hmsg Hidle Hchat Herr Htext Hparse. unfold RelayApp.sendMessage.
  rewrite Hmsg, Hidle. cbn [negb orb]. unfold RelayApp.relayChat.
  set (st1 := RelayApp.emit _ (RelayApp.setStatus _ _ _)).
  change (RelayApp.calls st1) with (RelayApp.calls st).
  change (RelayApp.systemContext st1) with (RelayApp.systemContext st).
  rewrite Hchat, Herr, Htext, Hparse.
  set (shown := match List.filter (RelayApp.typeIn RelayApp.utilityActionTypes) actions with
                | [] => _
                | _ :: _ => _
                end).
  assert (Hshown : RelayApp.calls shown
                   = RelayApp.calls st
                     ++ RelayApp.Chat (JS.trim input) (RelayApp.systemContext st)
                        :: map RelayApp.Utility
                             (List.filter (RelayApp.typeIn RelayApp.utilityActionTypes) actions)
                   /\ RelayApp.isProcessing shown = true).
  { subst shown.
    destruct (List.filter (RelayApp.typeIn RelayApp.utilityActionTypes) actions)
      as [|u us] eqn:Hu.
    - done.
    - match goal with
      | |- context [RelayApp.showUtilityResults w ?l ?t ?o ?a ?s] =>
          destruct (showUtilityResults_calls l t o a s) as [-> ->]
      end.
      cbn. by rewrite <- app_assoc. }
  destruct Hshown as [Hcalls Hbusy].
  destruct (autoExecute_calls actions shown Hbusy) as (st2 & -> & Hcalls2 & _).
  eexists. split; [done|]. cbn [RelayApp.calls RelayApp.setProcessing RelayApp.setStatus RelayApp.emit].
  rewrite Hcalls2, Hcalls. by rewrite <- app_assoc.
Qed.

End Dispatch.

(** C4, as the specification states it: one action at most would be
    dispatched for a response, and the first one.  After the response to
    a message of the user, [sendMessage] dispatches every query action;
    and in a step of the loop a query action is dispatched before a deep
    scan that an earlier tag asks for. *)
Lemma sendMessage_dispatches_two :
  (exists st',
     RelayApp.sendMessage
       (RelayApp.steady (RelayApp.queryTag "uptime" ++ RelayApp.queryTag "disk-usage")
          (js "ok"))
       (js "my computer is slow") (RelayApp.idle "linux")
     = Some st'
     /\ RelayApp.chats (RelayApp.calls st') = 1%nat
     /\ ~ (RelayApp.dispatches (RelayApp.calls st') <= 1)%nat)
  /\ (exists st' msg ctx rest,
        RelayApp.executeQueryAction
          (RelayApp.steady (RelayApp.plainTag "run-deep-scan" ++ RelayApp.queryTag "uptime")
             (js "ok"))
          (RelayApp.query "disk-usage") (RelayApp.idle "linux")
        = Some st'
        /\ RelayApp.calls st'
           = RelayApp.RunSafeCommand (js "disk-usage") :: RelayApp.Chat msg ctx
             :: RelayApp.RunSafeCommand (js "uptime") :: rest).
Proof.
  split.
  - eexists. split; [vm_compute; reflexivity|].
    split; [by vm_compute|]. vm_compute. lia.
  - eexists _, _, _, _. split; vm_compute; reflexivity.
Qed.

(** C4, amended.  In a step of the loop, [processSystemMessage] at a
    step count below 10 with a response that parses into [actions], the
    call returns and the
    consultation is followed by the dispatch of at most one action: the
    first query-system action that has a query type or, when there is
    none, one deep scan when an action asks for it; no other action of
    the response is dispatched, for what follows in the trace starts
    with the next consultation.  After the response to a message of the
    user, [sendMessage] executes the utility actions and then dispatches
    every query-system action that has a query type, in order. *)
Theorem one_dispatch_per_step :
  (forall w fuel msg step st r text display actions,
     (step =? 0)%nat && RelayApp.isProcessing st = false ->
     (step < RelayApp.MAX_AGENTIC_STEPS)%nat ->
     (2 * (RelayApp.MAX_AGENTIC_STEPS - step) < fuel)%nat ->
     RelayApp.chat w (length (RelayApp.calls st)) msg (RelayApp.systemContext st)
     = RelayApp.ChatResolved r ->
     RelayApp.r_error r = false -> RelayApp.r_text r = Some text ->
     RelayApp.parseAIResponse text = Some (display, actions) ->
     exists st' rest,
       RelayApp.processSystemMessage w fuel msg step st = Some st'
       /\ RelayApp.calls st'
          = RelayApp.calls st
            ++ RelayApp.Chat msg (RelayApp.systemContext st)
               :: match RelayApp.dispatchedBy actions with
                  | Some c => c :: rest
                  | None => []
                  end
       /\ RelayApp.alternates true rest = true)
  /\ (forall w input st r text display actions,
        JS.truthy (JS.trim input) = true -> RelayApp.isProcessing st = false ->
        RelayApp.chat w (length (RelayApp.calls st)) (JS.trim input)
          (RelayApp.systemContext st)
        = RelayApp.ChatResolved r ->
        RelayApp.r_error r = false -> RelayApp.r_text r = Some text ->
        RelayApp.parseAIResponse text = Some (display, actions) ->
        exists st',
          RelayApp.sendMessage w input st = Some st'
          /\ RelayApp.calls st'
             = RelayApp.calls st
               ++ RelayApp.Chat (JS.trim input) (RelayApp.systemContext st)
                  :: map RelayApp.Utility
                       (List.filter (RelayApp.typeIn RelayApp.utilityActionTypes) actions)
                  ++ map (fun a =>
                            RelayApp.RunSafeCommand (JS.show (RelayApp.prop a "queryType")))
                       (List.filter RelayApp.isQuery actions)).
Proof.
  split.
  - intros w fuel msg step st r text display actions Hearly Hstep Hfuel Hchat Herr
      Htext Hparse.
    destruct (proj1 (loop_total w fuel) msg step st Hfuel) as [st' Hrun].
    destruct (psm_dispatches_one w fuel msg step st st' r text display actions)
      as (rest & Hcalls & Halt); try done.
    by exists st', rest.
  - intros w. apply sendMessage_dispatches_all.
Qed.

Lemma one_dispatch_after_two_tags :
  exists st' rest,
    RelayApp.processSystemMessage
      (RelayApp.steady (RelayApp.queryTag "uptime" ++ RelayApp.queryTag "disk-usage")
         (js "ok"))
      3 (js "[SYSTEM_RESULT]") 9 (RelayApp.idle "linux")
    = Some st'
    /\ RelayApp.calls st'
       = [] ++ RelayApp.Chat (js "[SYSTEM_RESULT]") (RelayApp.Context None)
               :: RelayApp.RunSafeCommand (js "uptime") :: rest
    /\ RelayApp.alternates true rest = true.
Proof.
  pose (reply := RelayApp.queryTag "uptime" ++ RelayApp.queryTag "disk-usage").
  pose (w := RelayApp.steady reply (js "ok")).
  destruct one_dispatch_per_step as [H _].
  destruct (H w 3%nat (js "[SYSTEM_RESULT]") 9%nat (RelayApp.idle "linux")
              (RelayApp.Response (Some reply) false None None) reply
              [] [RelayApp.query "uptime"; RelayApp.query "disk-usage"])
    as (st' & rest & Hrun & Hcalls & Halt).
  - reflexivity.
  - vm_compute. lia.
  - vm_compute. lia.
  - reflexivity.
  - reflexivity.
  - reflexivity.
  - vm_compute. reflexivity.
  - exists st', rest. split; [exact Hrun|]. split; [exact Hcalls|exact Halt].
Defined.





(** * Further properties *)

(** ** The command executor: what runs, and what is recorded *)

Lemma commandKeys_dom key :
  key ∈ CommandExecutor.commandKeys
  <-> is_Some (CommandExecutor.getSafeCommands !! key).
Proof.
  split.
  - intros H. unfold CommandExecutor.commandKeys in H.
    repeat (apply elem_of_cons in H as [->|H]; [vm_compute; eauto|]).
    by apply elem_of_nil in H.
  - intros [m H]. unfold CommandExecutor.getSafeCommands in H.
    apply elem_of_list_to_map_2 in H.
    apply (list_elem_of_fmap_2 fst) in H. exact H.
Qed.

Lemma available_spec key st :
  (key, true) ∈ CommandExecutor.getAvailableCommands st
  <-> exists commandMap c cs,
        CommandExecutor.getSafeCommands !! key = Some commandMap
        /\ commandMap !! CommandExecutor.platform st = Some (c :: cs).
Proof.
  unfold CommandExecutor.getAvailableCommands. rewrite list_elem_of_fmap. split.
  - intros (k & [= <-Ht] & Hk). unfold CommandExecutor.safeCommands in Ht.
    destruct (CommandExecutor.getSafeCommands !! key) as [m|] eqn:Hm; [|done].
    simpl in Ht.
    destruct (m !! CommandExecutor.platform st) as [[|c cs]|] eqn:Hc; try done.
    by exists m, c, cs.
  - intros (m & c & cs & Hm & Hc). exists key. split.
    + unfold CommandExecutor.safeCommands. rewrite Hm. simpl. by rewrite Hc.
    + apply commandKeys_dom. by exists m.
Qed.

(** X1. [runSafeCommand] starts a child process exactly for the keys
    that [getAvailableCommands] lists as available on the platform: for
    such a key it starts one process, the command of the table for the
    platform, with a timeout of 30 seconds and a buffer of 1 MB, and it
    succeeds exactly when the process ends without an error; for every
    other key it fails and leaves the state as it was. *)
Theorem runSafeCommand_starts_iff_available execAsync now commandKey st :
  let opts := ExecOptions (Some 30000) (Some (1024 * 1024)) None false in
  let '(r, st') := CommandExecutor.runSafeCommand execAsync now commandKey st in
  if bool_decide ((commandKey, true) ∈ CommandExecutor.getAvailableCommands st)
  then
    exists command,
      CommandExecutor.getSafeCommands !! commandKey
        ≫= (fun commandMap => commandMap !! CommandExecutor.platform st)
      = Some command
      /\ CommandExecutor.spawned st' = CommandExecutor.spawned st ++ [Spawn command opts]
      /\ success r
         = resolved (execAsync (length (CommandExecutor.spawned st)) command opts)
  else st' = st /\ success r = false.
Proof.
  intros opts. unfold CommandExecutor.runSafeCommand, CommandExecutor.safeCommands.
  case_bool_decide as Hav.
  - apply available_spec in Hav as (m & c & cs & Hm & Hc). rewrite Hm, Hc.
    unfold CommandExecutor.run. cbn [CommandExecutor.spawned CommandExecutor.logger].
    destruct (execAsync _ _ _) as [out err|e] eqn:He;
      exists (c :: cs); simpl; rewrite Hc; (split_and!; try done);
      unfold opts; by rewrite He.
  - destruct (CommandExecutor.getSafeCommands !! commandKey) as [m|] eqn:Hm; [|done].
    destruct (m !! CommandExecutor.platform st) as [[|c cs]|] eqn:Hc; [done| |done].
    destruct Hav. apply available_spec. by exists m, c, cs.
Qed.

Lemma last_last100_snoc h e :
  last (CommandExecutor.last100 (h ++ [e])) = Some e.
Proof.
  unfold CommandExecutor.last100. rewrite length_app. simpl.
  rewrite drop_app_le by lia. apply last_snoc.
Qed.

Lemma logCommand_last now type command ok err st :
  last (CommandExecutor.history (CommandExecutor.logCommand now type command ok err st))
  = Some (CommandExecutor.Entry (now (CommandExecutor.clock st)) type command ok err).
Proof. rewrite logCommand_history. apply last_last100_snoc. Qed.

(** X2. Every child process that [runSafeCommand] or [runCustomCommand]
    starts is written into the history with its outcome: the last entry
    holds the key (or [custom]), the command that was started, and the
    success and the error of the result that is returned.  A custom
    command always runs under a timeout that is not 0 (60 seconds when
    none is given) and in a working directory (the home directory when
    none is given). *)
Theorem started_commands_are_recorded execAsync now homedir st :
  (forall commandKey,
     let '(r, st') := CommandExecutor.runSafeCommand execAsync now commandKey st in
     st' = st
     \/ exists command opts,
          CommandExecutor.spawned st' = CommandExecutor.spawned st ++ [Spawn command opts]
          /\ last (CommandExecutor.history st')
             = Some (CommandExecutor.Entry (now (CommandExecutor.clock st))
                       commandKey command (success r) (error r)))
  /\ (forall command options,
        let '(r, st') :=
          CommandExecutor.runCustomCommand execAsync now homedir command options st in
        (blocked r = true
         /\ CommandExecutor.spawned st' = CommandExecutor.spawned st
         /\ CommandExecutor.history st' = CommandExecutor.history st)
        \/ exists timeout cwd,
             CommandExecutor.spawned st'
             = CommandExecutor.spawned st
               ++ [Spawn command
                     (ExecOptions (Some timeout) (Some (1024 * 1024)) (Some cwd) false)]
             /\ timeout <> 0
             /\ (cwd = homedir \/ (cwd <> [] /\ CommandExecutor.c_cwd options = Some cwd))
             /\ last (CommandExecutor.history st')
                = Some (CommandExecutor.Entry (now (CommandExecutor.clock st))
                          (js "custom") command (success r) (error r))).
Proof.
  split.
  - intros commandKey. unfold CommandExecutor.runSafeCommand.
    destruct (_ !! commandKey) as [m|]; [|by left].
    destruct (m !! _) as [[|c cs]|]; [by left| |by left].
    unfold CommandExecutor.run.
    destruct (execAsync _ _ _) as [out err|e]; right; eexists _, _;
      (split; [reflexivity|]); by rewrite logCommand_last.
  - intros command options. unfold CommandExecutor.runCustomCommand.
    destruct (CommandExecutor.isDangerous command); [by left|].
    unfold CommandExecutor.run.
    assert (Ht : match CommandExecutor.c_timeout options with
                 | Some n => if n =? 0 then 60000 else n
                 | None => 60000
                 end <> 0).
    { destruct (CommandExecutor.c_timeout options) as [n|]; [|done].
      destruct (n =? 0) eqn:Hn; [done|]. by apply N.eqb_neq. }
    assert (Hcwd : let cwd := match CommandExecutor.c_cwd options with
                              | Some (c :: d) => c :: d
                              | _ => homedir
                              end in
                   cwd = homedir
                   \/ (cwd <> [] /\ CommandExecutor.c_cwd options = Some cwd)).
    { destruct (CommandExecutor.c_cwd options) as [[|c d]|]; cbv zeta; auto. }
    destruct (execAsync _ _ _) as [out err|e]; right; eexists _, _;
      (split; [reflexivity|]); (split; [exact Ht|]); (split; [exact Hcwd|]);
      by rewrite logCommand_last.
Qed.

(** X3. A command that holds a dangerous command holds a dangerous
    pattern: text before or after a refused command does not make it
    pass. *)
Theorem isDangerous_superstring pre command post :
  CommandExecutor.isDangerous command = true ->
  CommandExecutor.isDangerous (pre ++ command ++ post) = true.
Proof.
  rewrite !isDangerous_occurs.
  intros (pattern & Hin & p & m & q & -> & Hm).
  exists pattern. split; [done|]. exists (pre ++ p), m, (q ++ post).
  split; [|done]. by rewrite <- !app_assoc.
Qed.

Lemma isDangerous_wrapped_sudo :
  CommandExecutor.isDangerous (js "echo hi; " ++ js "sudo ls" ++ js " && exit") = true.
Proof. apply isDangerous_superstring. vm_compute. reflexivity. Defined.

Lemma letter_not_space x : 65 <= x <= 122 -> JS.isSpace x = false.
Proof.
  intros H. unfold JS.isSpace.
  rewrite !orb_false_iff, !andb_false_iff, !N.leb_gt, !N.eqb_neq. lia.
Qed.

Lemma canon_cases a b :
  Regex.canon a = Regex.canon b -> a = b \/ (65 <= a <= 122 /\ 65 <= b <= 122).
Proof.
  unfold Regex.canon, JS.isLower.
  destruct (97 <=? a) eqn:Ha1, (a <=? 122) eqn:Ha2, (97 <=? b) eqn:Hb1,
    (b <=? 122) eqn:Hb2; simpl;
    rewrite ?N.leb_le, ?N.leb_gt in *; lia.
Qed.

Lemma canon_space a b :
  Regex.canon a = Regex.canon b -> JS.isSpace a = JS.isSpace b.
Proof.
  intros H. destruct (canon_cases a b H) as [->|[Ha Hb]]; [done|].
  by rewrite !letter_not_space.
Qed.

Lemma cset_mem_canon t a b :
  Regex.caseBlind [t] = true -> Regex.canon a = Regex.canon b ->
  Regex.cset_mem true (Regex.t_set t) a = Regex.cset_mem true (Regex.t_set t) b.
Proof.
  unfold Regex.caseBlind. simpl. destruct (Regex.t_set t) as [[c| | |]|]; try done.
  - intros _ H. simpl. by rewrite H.
  - intros _ H. simpl. by apply canon_space.
Qed.

Lemma forallb_canon t run run' :
  Regex.caseBlind [t] = true -> Regex.sameUpToCase run run' ->
  forallb (Regex.cset_mem true (Regex.t_set t)) run = true ->
  forallb (Regex.cset_mem true (Regex.t_set t)) run' = true.
Proof.
  intros Ht. induction 1 as [|a b run run' Hab _ IH]; [done|]. simpl.
  rewrite (cset_mem_canon t a b Ht Hab). intros [-> H]%andb_prop. by rewrite IH.
Qed.

Lemma matches_canon p m :
  Regex.matches true p m -> Regex.caseBlind p = true ->
  forall m', Regex.sameUpToCase m m' -> Regex.matches true p m'.
Proof.
  induction 1 as [|t p x m Hq Hx _ IH|t p run m Hq Hall _ IH
                  |t p x run m Hq Hall _ IH]; intros Hp m' Hm'.
  - inversion Hm'. constructor.
  - simpl in Hp. apply andb_prop in Hp as [Ht Hp].
    inversion Hm' as [|? y ? m2 Hxy Hrest]; subst.
    apply Regex.matches_once; [done| |by apply IH].
    rewrite <- (cset_mem_canon t x y); [done| |done]. simpl. by rewrite Ht.
  - simpl in Hp. apply andb_prop in Hp as [Ht Hp].
    apply Forall2_app_inv_l in Hm' as (run' & m2 & Hrun & Hm2 & ->).
    apply Regex.matches_star; [done| |by apply IH].
    apply (forallb_canon t run run'); [simpl; by rewrite Ht|done|done].
  - simpl in Hp. apply andb_prop in Hp as [Ht Hp].
    inversion Hm' as [|? y ? m2 Hxy Hrest]; subst.
    apply Forall2_app_inv_l in Hrest as (run' & m3 & Hrun & Hm3 & ->).
    apply Regex.matches_plus; [done| |by apply IH].
    apply (forallb_canon t (x :: run) (y :: run')); [simpl; by rewrite Ht| |done].
    by constructor.
Qed.

Lemma sameUpToCase_sym s t : Regex.sameUpToCase s t -> Regex.sameUpToCase t s.
Proof. induction 1; constructor; done. Qed.

Lemma occurs_canon re s t :
  Regex.ignoreCase re = true -> Regex.caseBlind (Regex.source re) = true ->
  Regex.sameUpToCase s t -> Regex.occurs re s -> Regex.occurs re t.
Proof.
  intros Hic Hp Hst (pre & m & post & -> & Hm).
  apply Forall2_app_inv_l in Hst as (pre' & rest & Hpre & Hrest & ->).
  apply Forall2_app_inv_l in Hrest as (m' & post' & Hmm & Hpost & ->).
  exists pre', m', post'. split; [done|].
  rewrite Hic in *. by apply (matches_canon _ m).
Qed.

Lemma dangerousPatterns_caseBlind :
  forallb (fun re => Regex.ignoreCase re && Regex.caseBlind (Regex.source re))
    CommandExecutor.dangerousPatterns = true.
Proof. vm_compute. reflexivity. Qed.

Lemma isDangerous_canon s t :
  Regex.sameUpToCase s t ->
  CommandExecutor.isDangerous s = true -> CommandExecutor.isDangerous t = true.
Proof.
  intros Hst. rewrite !isDangerous_occurs. intros (pattern & Hin & Hocc).
  exists pattern. split; [done|].
  pose proof dangerousPatterns_caseBlind as H.
  rewrite forallb_forall in H. apply H in Hin. apply andb_prop in Hin as [Hic Hp].
  by apply (occurs_canon pattern s t).
Qed.

(** X4. The verdict of [isDangerous] does not depend on the case of the
    letters: two commands that differ in the case of ASCII letters only
    are both dangerous or both not. *)
Theorem isDangerous_ignores_case s t :
  Regex.sameUpToCase s t ->
  CommandExecutor.isDangerous s = CommandExecutor.isDangerous t.
Proof.
  intros Hst. apply eq_true_iff_eq. split; apply isDangerous_canon;
    [done|by apply sameUpToCase_sym].
Qed.

Lemma isDangerous_mixed_case :
  CommandExecutor.isDangerous (js "SuDo Rm -RF /")
  = CommandExecutor.isDangerous (js "sudo rm -rf /").
Proof.
  apply isDangerous_ignores_case. unfold Regex.sameUpToCase.
  let l := eval vm_compute in (js "SuDo Rm -RF /") in
  change (js "SuDo Rm -RF /") with l.
  let l := eval vm_compute in (js "sudo rm -rf /") in
  change (js "sudo rm -rf /") with l.
  repeat constructor.
Defined.

(** ** The command executor: names, and the operations on applications *)

Lemma sanitizeName_clean name :
  Forall (fun c => CommandExecutor.keptInName c = true) name ->
  CommandExecutor.sanitizeName name = name.
Proof.
  rewrite sanitizeName_filter.
  induction 1 as [|c l Hc _ IH]; simpl; [done|]. by rewrite Hc, IH.
Qed.

(** X5. A sanitised name holds only letters, digits, white space, [-],
    [_] and [.]: no quote, none of the punctuation listed below and no
    slash.  White space stays, line feed and carriage return included,
    so that a sanitised name can still hold several lines.  Sanitising
    again changes nothing; the result is the name with characters left
    out; and the names that sanitisation leaves as they are, are those
    made of the kept characters. *)
Theorem sanitizeName_safe name :
  Forall (fun c => CommandExecutor.keptInName c = true) (CommandExecutor.sanitizeName name)
  /\ Forall (fun c => c ∉ CommandExecutor.sanitizeName name)
       (JS.dq ++ js ";|&$`'<>\(){}[]*?!#~=%^,:/@+")
  /\ (forall c, JS.isSpace c = true ->
                c ∈ name -> c ∈ CommandExecutor.sanitizeName name)
  /\ Forall (fun c => JS.isSpace c = true) [9; 10; 13; 32]
  /\ CommandExecutor.sanitizeName (CommandExecutor.sanitizeName name)
     = CommandExecutor.sanitizeName name
  /\ sublist (CommandExecutor.sanitizeName name) name
  /\ (CommandExecutor.sanitizeName name = name
      <-> Forall (fun c => CommandExecutor.keptInName c = true) name).
Proof.
  assert (Hkept : Forall (fun c => CommandExecutor.keptInName c = true)
                    (CommandExecutor.sanitizeName name)).
  { rewrite sanitizeName_filter. apply Forall_forall. intros c Hc.
    apply list_elem_of_In, filter_In in Hc. tauto. }
  split_and!.
  - done.
  - apply Forall_forall. intros c Hc Hin. rewrite Forall_forall in Hkept.
    apply Hkept in Hin. revert Hin. clear -Hc.
    let l := eval vm_compute in (JS.dq ++ js ";|&$`'<>\(){}[]*?!#~=%^,:/@+") in
    change (JS.dq ++ js ";|&$`'<>\(){}[]*?!#~=%^,:/@+") with l in Hc.
    repeat (apply elem_of_cons in Hc as [->|Hc]; [by vm_compute|]).
    by apply elem_of_nil in Hc.
  - intros c Hsp Hin. rewrite sanitizeName_filter.
    apply list_elem_of_In, filter_In. split; [by apply list_elem_of_In|].
    unfold CommandExecutor.keptInName. by rewrite Hsp, orb_true_r.
  - by repeat constructor.
  - by apply sanitizeName_clean.
  - rewrite sanitizeName_filter. clear.
    induction name as [|c name IH]; simpl; [constructor|].
    destruct (CommandExecutor.keptInName c); by constructor.
  - split; [intros <-; done|apply sanitizeName_clean].
Qed.

(** X6. On a platform other than macOS and Windows [openApp] starts the
    sanitised name itself as the command, without quotes: a name made of
    kept characters is run as it is written. *)
Theorem openApp_runs_bare_name execAsync now appName st :
  CommandExecutor.platform st <> js "darwin" ->
  CommandExecutor.platform st <> js "win32" ->
  Forall (fun c => CommandExecutor.keptInName c = true) appName ->
  CommandExecutor.spawned (snd (CommandExecutor.openApp execAsync now appName st))
  = CommandExecutor.spawned st ++ [Spawn appName no_options].
Proof.
  intros Hd Hw Hname. unfold CommandExecutor.openApp.
  replace (CommandExecutor.sanitizeName appName) with appName
    by (symmetry; by apply sanitizeName_clean).
  rewrite !bool_decide_eq_false_2 by done.
  unfold CommandExecutor.run. by destruct (execAsync _ _ _).
Qed.

Lemma openApp_runs_rm :
  CommandExecutor.isDangerous (js "rm -rf .") = true
  /\ CommandExecutor.spawned
       (snd (CommandExecutor.openApp (fun _ _ _ => Resolved [] []) (fun _ => [])
               (js "rm -rf .") (CommandExecutor.State (js "linux") [] [] [] 0)))
     = [] ++ [Spawn (js "rm -rf .") no_options].
Proof.
  split; [by vm_compute|].
  apply (openApp_runs_bare_name (fun _ _ _ => Resolved [] []) (fun _ => [])
           (js "rm -rf .") (CommandExecutor.State (js "linux") [] [] [] 0)).
  - by vm_compute.
  - by vm_compute.
  - let l := eval vm_compute in (js "rm -rf .") in change (js "rm -rf .") with l.
    repeat constructor.
Defined.

(** X7. For [killProcess], [killProcessByName], [open], [openApp],
    [emptyTrash], [clearCaches] and [flushDNS], a call that does not
    succeed leaves the history as it was: only [runSafeCommand] and
    [runCustomCommand] write a failed attempt into it, and [restartApp]
    may have written the closing before the reopening fails. *)
Theorem failures_leave_no_history execAsync now homedir envTEMP parseInt formatBytes
    o st :
  CommandExecutor.recordsFailures o = false ->
  let '(r, st') :=
    CommandExecutor.step execAsync now homedir envTEMP parseInt formatBytes o st in
  success r = true \/ CommandExecutor.history st' = CommandExecutor.history st.
Proof.
  destruct o as [k|c opts|pid force|n|target|a|a| | |]; try done; intros _;
    cbn [CommandExecutor.step].
  - unfold CommandExecutor.killProcess, CommandExecutor.run.
    destruct (execAsync _ _ _); [by left|by right].
  - unfold CommandExecutor.killProcessByName, CommandExecutor.run.
    destruct (execAsync _ _ _); [by left|]. destruct (JS.includes _ _); by right.
  - unfold CommandExecutor.open, CommandExecutor.run.
    destruct (execAsync _ _ _); by right.
  - unfold CommandExecutor.openApp, CommandExecutor.run.
    destruct (execAsync _ _ _); [by left|by right].
  - unfold CommandExecutor.emptyTrash, CommandExecutor.run.
    destruct (execAsync _ _ _); [by left|by right].
  - unfold CommandExecutor.clearCaches.
    destruct (bool_decide (_ = js "darwin")).
    + destruct (CommandExecutor.clearOne _ _ _ _ _ _ st) as [acc st1].
      destruct (CommandExecutor.clearOne _ _ _ _ _ _ st1) as [[cleaned total] st2].
      destruct cleaned; by left.
    + destruct (bool_decide (_ = js "win32")); [|by right].
      pose proof (getFolderSize_history execAsync parseInt
                    match envTEMP with
                    | Some (c :: d) => c :: d
                    | _ => homedir ++ js "\AppData\Local\Temp"
                    end st) as H1.
      destruct (CommandExecutor.getFolderSize _ _ _ st) as [sizeBefore st1].
      cbn [snd] in H1. unfold CommandExecutor.run at 1.
      destruct (execAsync _ _ _); cbn [snd CommandExecutor.history].
      * destruct (CommandExecutor.getFolderSize _ _ _ _) as [sizeAfter st2].
        destruct (0 <? _)%Z; by left.
      * right. by rewrite H1.
  - unfold CommandExecutor.flushDNS, CommandExecutor.run.
    destruct (execAsync _ _ _); [by left|by right].
Qed.

Lemma failed_emptyTrash_is_not_recorded :
  let '(r, st') :=
    CommandExecutor.step (fun _ _ _ => Rejected (ExecError (js "denied") None))
      (fun _ => []) (js "/home/user") None (fun _ => None) (fun _ => [])
      CommandExecutor.EmptyTrash (CommandExecutor.State (js "linux") [] [] [] 0) in
  success r = true \/ CommandExecutor.history st' = [].
Proof.
  exact (failures_leave_no_history
           (fun _ _ _ => Rejected (ExecError (js "denied") None))
           (fun _ => []) (js "/home/user") None (fun _ => None) (fun _ => [])
           CommandExecutor.EmptyTrash (CommandExecutor.State (js "linux") [] [] [] 0)
           eq_refl).
Defined.

(** X8. [restartApp] starts two processes, whatever the first one does:
    the command that closes the application by its sanitised name, then
    the command that opens it.  The result depends on the second process
    only: success when it ends without an error, and otherwise the
    failure [Closed <name> but failed to reopen it: ...], also when the
    application could not be closed. *)
Theorem restartApp_kills_then_opens execAsync now appName st :
  let safeName := CommandExecutor.sanitizeName appName in
  let win := bool_decide (CommandExecutor.platform st = js "win32") in
  let mac := bool_decide (CommandExecutor.platform st = js "darwin") in
  let killCommand :=
    if win
    then js "taskkill /F /IM " ++ JS.quoted (safeName ++ js ".exe")
         ++ js " 2>nul || taskkill /F /IM " ++ JS.quoted safeName ++ js " 2>nul"
    else js "pkill -x " ++ JS.quoted safeName ++ js " || pkill " ++ JS.quoted safeName in
  let openCommand :=
    if mac then js "open -a " ++ JS.quoted safeName
    else if win then js "start " ++ JS.quoted [] ++ js " " ++ JS.quoted safeName
    else safeName in
  let reopened :=
    resolved (execAsync (S (length (CommandExecutor.spawned st))) openCommand no_options) in
  let '(r, st') := CommandExecutor.restartApp execAsync now appName st in
  CommandExecutor.spawned st'
  = CommandExecutor.spawned st
    ++ [Spawn killCommand no_options; Spawn openCommand no_options]
  /\ r = (if reopened
          then succeeded (js "Restarted " ++ appName ++ js " successfully")
          else failure (js "Closed " ++ appName ++ js " but failed to reopen it: "
                        ++ js "Could not open " ++ safeName
                        ++ js ". It might not be installed or I can't find it.")).
Proof.
  intros safeName win mac killCommand openCommand reopened.
  unfold CommandExecutor.restartApp, CommandExecutor.killProcessByName.
  fold safeName. cbn [CommandExecutor.platform CommandExecutor.logger].
  fold win. fold killCommand.
  unfold CommandExecutor.run at 1.
  cbn [CommandExecutor.spawned CommandExecutor.logger].
  set (o1 := execAsync _ killCommand _).
  assert (Hopen : forall st1,
            CommandExecutor.platform st1 = CommandExecutor.platform st ->
            CommandExecutor.spawned st1
            = CommandExecutor.spawned st ++ [Spawn killCommand no_options] ->
            let '(r, st') :=
              let '(openResult, st2) := CommandExecutor.openApp execAsync now appName st1 in
              if success openResult
              then (succeeded (js "Restarted " ++ appName ++ js " successfully"),
                    CommandExecutor.logCommand now (js "restart-app") appName true None st2)
              else (failure (js "Closed " ++ appName ++ js " but failed to reopen it: "
                             ++ JS.show (error openResult)), st2) in
            CommandExecutor.spawned st'
            = CommandExecutor.spawned st
              ++ [Spawn killCommand no_options; Spawn openCommand no_options]
            /\ r = (if reopened
                    then succeeded (js "Restarted " ++ appName ++ js " successfully")
                    else failure (js "Closed " ++ appName ++ js " but failed to reopen it: "
                                  ++ js "Could not open " ++ safeName
                                  ++ js ". It might not be installed or I can't find it."))).
  { intros st1 Hp Hs. unfold CommandExecutor.openApp. fold safeName.
    cbn [CommandExecutor.platform CommandExecutor.logger]. rewrite Hp.
    fold win mac. fold openCommand. unfold CommandExecutor.run.
    cbn [CommandExecutor.spawned CommandExecutor.logger]. rewrite Hs.
    rewrite length_app. cbn [length]. rewrite Nat.add_1_r.
    unfold reopened.
    destruct (execAsync _ openCommand _) as [out err|e]; cbn.
    - split; [by rewrite <- app_assoc|done].
    - split; [by rewrite <- app_assoc|done]. }
  destruct o1 as [out err|e].
  - apply Hopen; done.
  - destruct (JS.includes _ _); apply Hopen; done.
Qed.

Lemma getFolderSize_state execAsync parseInt path st :
  CommandExecutor.sameButSpawned st
    (snd (CommandExecutor.getFolderSize execAsync parseInt path st))
    (if bool_decide (CommandExecutor.platform st = js "darwin")
        || bool_decide (CommandExecutor.platform st = js "linux")
        || bool_decide (CommandExecutor.platform st = js "win32")
     then 1 else 0).
Proof.
  unfold CommandExecutor.getFolderSize, CommandExecutor.run,
    CommandExecutor.sameButSpawned.
  destruct (bool_decide (_ = js "darwin") || bool_decide (_ = js "linux")) eqn:Hdl.
  - cbn [orb]. destruct (execAsync _ _ _); cbn [snd CommandExecutor.platform
      CommandExecutor.history CommandExecutor.clock CommandExecutor.spawned];
      rewrite length_app; done.
  - cbn [orb]. destruct (bool_decide (_ = js "win32")).
    + destruct (execAsync _ _ _); cbn [snd CommandExecutor.platform
        CommandExecutor.history CommandExecutor.clock CommandExecutor.spawned];
        rewrite length_app; done.
    + cbn [snd]. split_and!; done.
Qed.

Lemma clearOne_state execAsync parseInt formatBytes name path acc st :
  CommandExecutor.platform st = js "darwin" ->
  exists n, (2 <= n <= 3)%nat
    /\ CommandExecutor.sameButSpawned st
         (snd (CommandExecutor.clearOne execAsync parseInt formatBytes name path acc st)) n.
Proof.
  intros Hp. unfold CommandExecutor.clearOne. destruct acc as [cleaned total].
  pose proof (getFolderSize_state execAsync parseInt path st) as H1. rewrite Hp in H1.
  rewrite bool_decide_eq_true_2 in H1 by done. cbn [orb] in H1.
  destruct (CommandExecutor.getFolderSize _ _ path st) as [sizeBefore st1].
  cbn [snd] in H1. destruct H1 as (Hp1 & Hh1 & Hc1 & Hs1).
  unfold CommandExecutor.run at 1.
  destruct (execAsync _ _ _).
  - match goal with
    | |- context [CommandExecutor.getFolderSize _ _ path ?s] =>
        pose proof (getFolderSize_state execAsync parseInt path s) as H2;
        destruct (CommandExecutor.getFolderSize _ _ path s) as [sizeAfter st2]
    end.
    cbn [CommandExecutor.platform] in H2. rewrite Hp1, Hp in H2.
    rewrite bool_decide_eq_true_2 in H2 by done. cbn [orb snd] in H2.
    destruct H2 as (Hp2 & Hh2 & Hc2 & Hs2).
    cbn [CommandExecutor.platform CommandExecutor.history CommandExecutor.clock
         CommandExecutor.spawned] in *.
    rewrite length_app in Hs2. cbn [length] in Hs2.
    exists 3%nat. split; [lia|].
    destruct (0 <? _)%Z; cbn [snd]; unfold CommandExecutor.sameButSpawned;
      split_and!; try congruence; lia.
  - exists 2%nat. split; [lia|]. cbn [snd]. unfold CommandExecutor.sameButSpawned.
    cbn [CommandExecutor.platform CommandExecutor.history CommandExecutor.clock
         CommandExecutor.spawned].
    rewrite length_app. cbn [length]. split_and!; try congruence; lia.
Qed.

(** X9. [clearCaches] by platform.  On macOS it always succeeds, after
    4 to 6 child processes (sizes and removals of the two cache
    folders; a removal that fails is ignored), and writes one entry
    into the history.  On Windows it starts 3 processes, succeeds and
    writes one entry, or the removal fails after 2 processes and nothing
    is written.  On every other platform it fails with [Not supported on
    this platform] and starts nothing. *)
Theorem clearCaches_by_platform execAsync now homedir envTEMP parseInt formatBytes st :
  let '(r, st') :=
    CommandExecutor.clearCaches execAsync now homedir envTEMP parseInt formatBytes st in
  let started :=
    (length (CommandExecutor.spawned st') - length (CommandExecutor.spawned st))%nat in
  if bool_decide (CommandExecutor.platform st = js "darwin") then
    success r = true
    /\ (4 <= started <= 6)%nat
    /\ last (CommandExecutor.history st')
       = Some (CommandExecutor.Entry (now (CommandExecutor.clock st))
                 (js "clear-caches") (js "macOS cache clear") true None)
  else if bool_decide (CommandExecutor.platform st = js "win32") then
    (success r = true /\ started = 3%nat
     /\ last (CommandExecutor.history st')
        = Some (CommandExecutor.Entry (now (CommandExecutor.clock st))
                  (js "clear-caches") (js "Windows temp clear") true None))
    \/ (success r = false /\ started = 2%nat
        /\ CommandExecutor.history st' = CommandExecutor.history st)
  else
    r = failure (js "Not supported on this platform") /\ st' = st.
Proof.
  unfold CommandExecutor.clearCaches.
  case_bool_decide as Hd.
  - destruct (clearOne_state execAsync parseInt formatBytes (js "User Caches")
                (homedir ++ js "/Library/Caches") ([], 0%Z) st Hd)
      as (n1 & Hn1 & Hp1 & Hh1 & Hc1 & Hs1).
    destruct (CommandExecutor.clearOne _ _ _ _ _ _ st) as [acc st1].
    cbn [snd] in *.
    destruct (clearOne_state execAsync parseInt formatBytes (js "System Caches")
                (js "/Library/Caches") acc st1)
      as (n2 & Hn2 & Hp2 & Hh2 & Hc2 & Hs2); [congruence|].
    destruct (CommandExecutor.clearOne _ _ _ _ _ _ st1) as [[cleaned total] st2].
    cbn [snd] in *.
    assert (Hlast : last (CommandExecutor.history
                            (CommandExecutor.logCommand now (js "clear-caches")
                               (js "macOS cache clear") true None st2))
                    = Some (CommandExecutor.Entry (now (CommandExecutor.clock st))
                              (js "clear-caches") (js "macOS cache clear") true None)).
    { rewrite logCommand_last. by rewrite Hc2, Hc1. }
    destruct cleaned; cbn [success succeeded CommandExecutor.logCommand
                           CommandExecutor.spawned] in *;
      (split_and!; [done|lia|lia|exact Hlast]).
  - case_bool_decide as Hw; [|done].
    set (tempPath := match envTEMP with Some (c :: d) => c :: d | _ => _ end).
    pose proof (getFolderSize_state execAsync parseInt tempPath st) as H1.
    rewrite (bool_decide_eq_true_2 (_ = js "win32")) in H1 by done.
    rewrite orb_true_r in H1.
    destruct (CommandExecutor.getFolderSize _ _ tempPath st) as [sizeBefore st1].
    cbn [snd] in H1. destruct H1 as (Hp1 & Hh1 & Hc1 & Hs1).
    unfold CommandExecutor.run at 1.
    destruct (execAsync _ _ _).
    + match goal with
      | |- context [CommandExecutor.getFolderSize _ _ tempPath ?s] =>
          pose proof (getFolderSize_state execAsync parseInt tempPath s) as H2;
          destruct (CommandExecutor.getFolderSize _ _ tempPath s) as [sizeAfter st2]
      end.
      cbn [CommandExecutor.platform] in H2. rewrite Hp1 in H2.
      rewrite (bool_decide_eq_true_2 (_ = js "win32")) in H2 by done.
      rewrite orb_true_r in H2. cbn [snd] in H2.
      destruct H2 as (Hp2 & Hh2 & Hc2 & Hs2).
      cbn [CommandExecutor.platform CommandExecutor.history CommandExecutor.clock
           CommandExecutor.spawned] in *.
      rewrite length_app in Hs2. cbn [length] in Hs2.
      assert (Hlast : last (CommandExecutor.history
                              (CommandExecutor.logCommand now (js "clear-caches")
                                 (js "Windows temp clear") true None st2))
                      = Some (CommandExecutor.Entry (now (CommandExecutor.clock st))
                                (js "clear-caches") (js "Windows temp clear") true None)).
      { rewrite logCommand_last. by rewrite Hc2, Hc1. }
      destruct (0 <? _)%Z; left;
        cbn [success succeeded CommandExecutor.logCommand CommandExecutor.spawned];
        (split_and!; [done|lia|exact Hlast]).
    + right. cbn [success failure commandResult CommandExecutor.spawned
                  CommandExecutor.history].
      rewrite length_app. cbn [length]. split_and!; [done|lia|done].
Qed.

(** ** The solution engine: one call of [execute] *)

Lemma get_lookup o key v :
  o !! js key = Some v -> SolutionEngine.get (SolutionEngine.Obj o) key = v.
Proof. intros H. unfold SolutionEngine.get. by rewrite H. Qed.


Ltac decide_types :=
  repeat match goal with
         | |- context [SolutionEngine.isLit (JS.Str (JS.lit ?s)) ?l] =>
             let b := eval vm_compute in (SolutionEngine.isLit (JS.Str (JS.lit s)) l) in
             change (SolutionEngine.isLit (JS.Str (JS.lit s)) l) with b
         end;
  cbv iota.

Ltac enter_execute Htype :=
  unfold SolutionEngine.execute, SolutionEngine.isSafe;
  rewrite (get_lookup _ "type" _ Htype);
  cbn [SolutionEngine.falsy orb];
  match goal with
  | |- context [JS.truthyPrim (JS.Str (JS.lit ?s))] =>
      change (JS.truthyPrim (JS.Str (JS.lit s))) with true
  end;
  match goal with
  | |- context [existsb ?f SolutionEngine.dangerousTypes] =>
      change (existsb f SolutionEngine.dangerousTypes) with false
  end;
  cbn [negb];
  unfold SolutionEngine.dispatch;
  rewrite (get_lookup _ "type" _ Htype);
  decide_types.


Section EngineFacts.

Variable execPromise : nat -> jsstring -> exec_options -> exec_outcome.
Variable now : nat -> jsstring.

Lemma starts_nothing st : SolutionEngine.starts st st [].
Proof. unfold SolutionEngine.starts. by rewrite app_nil_r. Qed.

Lemma run_starts command opts st :
  SolutionEngine.starts st (snd (SolutionEngine.run execPromise command opts st)) [Spawn command opts].
Proof. done. Qed.

Lemma runAll_starts opts commands : forall st,
  let '(rs, st') := SolutionEngine.runAll execPromise opts commands st in
  SolutionEngine.starts st st' (map (fun c => Spawn c.2 opts) commands)
  /\ map c_name rs = map fst commands
  /\ map c_success rs
     = imap (fun i c =>
               resolved (execPromise (length (SolutionEngine.spawned st) + i)%nat c.2 opts))
         commands.
Proof.
  induction commands as [|[name cmd] commands IH]; intros st.
  - simpl. split; [apply starts_nothing|done].
  - cbn [SolutionEngine.runAll]. unfold SolutionEngine.run at 1.
    set (st1 := SolutionEngine.State _ _ _ _).
    specialize (IH st1).
    destruct (SolutionEngine.runAll execPromise opts commands st1) as [rs st2].
    destruct IH as ((Hp & Ha & Hc & Hs) & Hn & Hok).
    split_and!.
    + unfold SolutionEngine.starts. rewrite Hp, Ha, Hc, Hs. subst st1. simpl.
      by rewrite <- app_assoc.
    + simpl. f_equal; [by destruct (execPromise _ _ _)|done].
    + simpl. rewrite Nat.add_0_r. f_equal; [by destruct (execPromise _ _ _)|].
      rewrite Hok. subst st1. simpl. rewrite length_app. simpl.
      apply imap_ext. intros i c _. simpl. do 2 f_equal. lia.
Qed.

Lemma dispatch_starts solution st :
  exists new,
    SolutionEngine.starts st (snd (SolutionEngine.dispatch execPromise solution st)) new
    /\ (length new <= 4)%nat.
Proof.
  unfold SolutionEngine.dispatch.
  repeat match goal with
         | |- context [if SolutionEngine.isLit ?v ?l then _ else _] =>
             destruct (SolutionEngine.isLit v l)
         end.
  - unfold SolutionEngine.killProcess. destruct (negb _); [by exists []; split; [apply starts_nothing|simpl; lia]|].
    unfold SolutionEngine.run. destruct (execPromise _ _ _); eexists; (split; [done|simpl; lia]).
  - unfold SolutionEngine.clearCache.
    cbv zeta.
    destruct (SolutionEngine.on st "darwin").
    + match goal with
      | |- context [SolutionEngine.runAll _ ?o ?cs st] =>
          pose proof (runAll_starts o cs st) as H;
          destruct (SolutionEngine.runAll execPromise o cs st) as [rs st'];
          assert (length cs <= 2)%nat
            by (rewrite length_app;
                repeat match goal with
                       | |- context [if ?b then [_] else []] => destruct b
                       end; simpl; lia)
      end.
      destruct H as (H & _). eexists. split; [exact H|]. rewrite length_map. lia.
    + destruct (SolutionEngine.on st "win32").
      * match goal with
        | |- context [SolutionEngine.runAll _ ?o ?cs st] =>
            pose proof (runAll_starts o cs st) as H;
            destruct (SolutionEngine.runAll execPromise o cs st) as [rs st'];
            assert (length cs <= 2)%nat
              by (rewrite length_app;
                  repeat match goal with
                         | |- context [if ?b then [_] else []] => destruct b
                         end; simpl; lia)
        end.
        destruct H as (H & _). eexists. split; [exact H|]. rewrite length_map. lia.
      * exists []. split; [apply starts_nothing|simpl; lia].
  - unfold SolutionEngine.flushDNS, SolutionEngine.run.
    destruct (execPromise _ _ _); eexists; (split; [done|simpl; lia]).
  - unfold SolutionEngine.suggestRestart.
    destruct (SolutionEngine.on st "darwin"); [|destruct (SolutionEngine.on st "win32")];
      exists []; (split; [apply starts_nothing|simpl; lia]).
  - unfold SolutionEngine.suggestCloseApp.
    destruct (SolutionEngine.on st "darwin");
      [|exists []; split; [apply starts_nothing|simpl; lia]].
    unfold SolutionEngine.run. destruct (execPromise _ _ _); eexists; (split; [done|simpl; lia]).
  - unfold SolutionEngine.diskCleanup.
    destruct (SolutionEngine.on st "darwin"); [|destruct (SolutionEngine.on st "win32")];
      [| |exists []; split; [apply starts_nothing|simpl; lia]];
      unfold SolutionEngine.run; destruct (execPromise _ _ _); eexists;
      (split; [done|simpl; lia]).
  - exists []. split; [apply starts_nothing|simpl; lia].
  - unfold SolutionEngine.restartService. destruct (negb _);
      [by exists []; split; [apply starts_nothing|simpl; lia]|].
    unfold SolutionEngine.run. destruct (execPromise _ _ _); eexists; (split; [done|simpl; lia]).
  - unfold SolutionEngine.optimizeStartup.
    destruct (SolutionEngine.on st "darwin"); [|destruct (SolutionEngine.on st "win32")];
      [| |exists []; split; [apply starts_nothing|simpl; lia]];
      unfold SolutionEngine.run; destruct (execPromise _ _ _); eexists;
      (split; [done|simpl; lia]).
  - unfold SolutionEngine.diskCleanup.
    destruct (SolutionEngine.on st "darwin"); [|destruct (SolutionEngine.on st "win32")];
      [| |exists []; split; [apply starts_nothing|simpl; lia]];
      unfold SolutionEngine.run; destruct (execPromise _ _ _); eexists;
      (split; [done|simpl; lia]).
  - unfold SolutionEngine.fixNetwork.
    match goal with
    | |- context [SolutionEngine.runAll _ ?o ?cs st] =>
        pose proof (runAll_starts o cs st) as H;
        destruct (SolutionEngine.runAll execPromise o cs st) as [rs st'];
        assert (length cs <= 4)%nat
          by (destruct (SolutionEngine.on st "darwin");
              [|destruct (SolutionEngine.on st "win32")]; simpl; lia)
    end.
    destruct H as (H & _). eexists. split; [exact H|]. rewrite length_map. lia.
  - unfold SolutionEngine.emptyTrash, SolutionEngine.run.
    destruct (execPromise _ _ _); eexists; (split; [done|simpl; lia]).
  - exists []. split; [apply starts_nothing|simpl; lia].
Qed.



(** X10. [execute] never throws for a solution that passes its two
    checks: it writes the [execute] entry into the audit log and returns
    what the handler returns, or, when the handler throws, writes an
    [error] entry with the message after it and returns the failure
    with that message. *)
Theorem execute_catches_handler_errors solution st :
  SolutionEngine.falsy solution = false ->
  JS.truthyPrim (SolutionEngine.get solution "type") = true ->
  SolutionEngine.isSafe solution = true ->
  let '(out, st') := SolutionEngine.execute execPromise now solution st in
  let executed :=
    SolutionEngine.Audit (now (SolutionEngine.clock st)) (js "execute") solution None
      (SolutionEngine.platform st) in
  exists r,
    out = SolutionEngine.Return r
    /\ (SolutionEngine.auditLog st' = SolutionEngine.auditLog st ++ [executed]
        \/ exists msg,
             r = SolutionEngine.solutionResult false (Some msg) None None None false false
             /\ SolutionEngine.auditLog st'
                = SolutionEngine.auditLog st
                  ++ [executed;
                      SolutionEngine.Audit (now (S (SolutionEngine.clock st))) (js "error")
                        solution (Some msg) (SolutionEngine.platform st)]).
Proof.
  intros Hobj Htype Hsafe. unfold SolutionEngine.execute.
  rewrite Hobj, Htype, Hsafe. cbn [orb negb].
  set (st1 := SolutionEngine.log now (js "execute") solution None st).
  destruct (dispatch_starts solution st1) as (new & (Hp & Ha & Hc & Hs) & _).
  destruct (SolutionEngine.dispatch execPromise solution st1) as [[r|msg] st2];
    cbn [snd] in *.
  - exists r. split; [done|]. left. by rewrite Ha.
  - eexists. split; [done|]. right. exists msg. split; [done|].
    cbn [SolutionEngine.log SolutionEngine.auditLog]. rewrite Ha, Hc, Hp.
    subst st1. cbn. by rewrite <- app_assoc.
Qed.

(** X11. Whatever the solution, one call of [execute] starts at most
    four child processes, writes at most two entries at the end of the
    audit log, keeps the entries that were there and leaves the platform
    as it is. *)
Theorem execute_bounded_effects solution st :
  let st' := snd (SolutionEngine.execute execPromise now solution st) in
  exists started recorded,
    SolutionEngine.spawned st' = SolutionEngine.spawned st ++ started
    /\ (length started <= 4)%nat
    /\ SolutionEngine.auditLog st' = SolutionEngine.auditLog st ++ recorded
    /\ (length recorded <= 2)%nat
    /\ SolutionEngine.platform st' = SolutionEngine.platform st.
Proof.
  unfold SolutionEngine.execute.
  destruct (_ || _); [exists [], []; by rewrite !app_nil_r; simpl; split_and!; try lia|].
  destruct (negb _); [exists [], []; by rewrite !app_nil_r; simpl; split_and!; try lia|].
  set (st1 := SolutionEngine.log now (js "execute") solution None st).
  destruct (dispatch_starts solution st1) as (new & (Hp & Ha & Hc & Hs) & Hlen).
  destruct (SolutionEngine.dispatch execPromise solution st1) as [[r|msg] st2];
    cbn [snd] in *.
  - exists new, [SolutionEngine.Audit (now (SolutionEngine.clock st)) (js "execute")
                   solution None (SolutionEngine.platform st)].
    rewrite Hs, Ha, Hp. simpl. split_and!; try done; lia.
  - exists new, [SolutionEngine.Audit (now (SolutionEngine.clock st)) (js "execute")
                   solution None (SolutionEngine.platform st);
                 SolutionEngine.Audit (now (S (SolutionEngine.clock st))) (js "error")
                   solution (Some msg) (SolutionEngine.platform st)].
    cbn [SolutionEngine.log SolutionEngine.auditLog SolutionEngine.spawned
         SolutionEngine.platform].
    rewrite Hs, Ha, Hp, Hc. subst st1. cbn. rewrite <- app_assoc.
    split_and!; try done; lia.
Qed.

(** X12. A solution whose type is a non-empty string that is neither
    one of the twelve cases of the [switch] nor a dangerous type is
    answered with the failure [Unknown solution type: <type>]; the
    attempt is in the audit log and no process is started.  The
    comparison is exact: a type that differs in case from a dangerous
    one is answered this way too. *)
Theorem execute_unknown_type o ty st :
  o !! js "type" = Some (JS.Str ty) -> ty <> [] ->
  ty ∉ SolutionEngine.handledTypes -> ty ∉ SolutionEngine.dangerousTypes ->
  SolutionEngine.execute execPromise now (SolutionEngine.Obj o) st
  = (SolutionEngine.Return
       (SolutionEngine.solutionResult false (Some (js "Unknown solution type: " ++ ty))
          None None None false false),
     SolutionEngine.log now (js "execute") (SolutionEngine.Obj o) None st).
Proof.
  intros Htype Hne Hh Hd.
  assert (Hget : SolutionEngine.get (SolutionEngine.Obj o) "type" = JS.Str ty)
    by (unfold SolutionEngine.get; by rewrite Htype).
  unfold SolutionEngine.execute, SolutionEngine.isSafe. rewrite Hget.
  cbn [SolutionEngine.falsy orb].
  destruct ty as [|c ty]; [done|]. cbn [JS.truthyPrim negb].
  assert (Hsafe : existsb (JS.isStr (JS.Str (c :: ty))) SolutionEngine.dangerousTypes
                  = false).
  { apply not_true_is_false. intros (d & Hin & Hd')%existsb_exists.
    apply bool_decide_eq_true in Hd' as <-. by apply Hd, list_elem_of_In. }
  rewrite Hsafe. cbn [negb].
  unfold SolutionEngine.dispatch, SolutionEngine.isLit. rewrite Hget.
  cbn [JS.isStr JS.showPrim].
  unfold SolutionEngine.handledTypes in Hh.
  repeat (apply not_elem_of_cons in Hh as [? Hh]).
  by rewrite !bool_decide_eq_false_2 by done.
Qed.

(** X13. The solutions [suggest-restart] and [suggest-diagnostics]
    only advise: [execute] succeeds, starts no process and names no
    action; the one trace is the [execute] entry of the audit log. *)
Theorem advice_starts_no_process o ty st :
  o !! js "type" = Some (JS.Str ty) ->
  ty = js "suggest-restart" \/ ty = js "suggest-diagnostics" ->
  exists r,
    SolutionEngine.execute execPromise now (SolutionEngine.Obj o) st
    = (SolutionEngine.Return r,
       SolutionEngine.log now (js "execute") (SolutionEngine.Obj o) None st)
    /\ success r = true /\ action r = None.
Proof.
  intros Htype [->| ->]; enter_execute Htype.
  - unfold SolutionEngine.suggestRestart.
    destruct (SolutionEngine.on _ "darwin"); [|destruct (SolutionEngine.on _ "win32")];
      by eexists.
  - by eexists.
Qed.

(** X14. [kill-process] without a process id, or with one that
    JavaScript counts as false (0, the empty string, null), starts no
    process: the handler throws [Process ID required], which [execute]
    returns as a failure and writes into the audit log. *)
Theorem kill_process_requires_pid o st :
  o !! js "type" = Some (JS.Str (js "kill-process")) ->
  JS.truthyPrim (default JS.Undefined (o !! js "pid")) = false ->
  SolutionEngine.execute execPromise now (SolutionEngine.Obj o) st
  = (SolutionEngine.Return
       (SolutionEngine.solutionResult false (Some (js "Process ID required"))
          None None None false false),
     SolutionEngine.log now (js "error") (SolutionEngine.Obj o)
       (Some (js "Process ID required"))
       (SolutionEngine.log now (js "execute") (SolutionEngine.Obj o) None st)).
Proof.
  intros Htype Hpid. enter_execute Htype.
  unfold SolutionEngine.killProcess.
  change (SolutionEngine.get (SolutionEngine.Obj o) "pid")
    with (default JS.Undefined (o !! js "pid")).
  by rewrite Hpid.
Qed.

(** X15. On a platform other than macOS and Windows, [clear-cache]
    and [fix-network] run no command at all.  [clear-cache] still
    reports success (0/0 successful), and [fix-network] reports a
    failure under the message [Network reset complete. ...]. *)
Theorem nothing_to_do_elsewhere o st :
  SolutionEngine.platform st <> js "darwin" ->
  SolutionEngine.platform st <> js "win32" ->
  let logged := SolutionEngine.log now (js "execute") (SolutionEngine.Obj o) None st in
  (o !! js "type" = Some (JS.Str (js "clear-cache")) ->
   SolutionEngine.execute execPromise now (SolutionEngine.Obj o) st
   = (SolutionEngine.Return
        (SolutionEngine.solutionResult true None
           (Some (js "Cache clearing complete. 0/0 successful"))
           (Some (js "cache-cleared")) (Some (CommandResults [])) false false),
      logged))
  /\ (o !! js "type" = Some (JS.Str (js "fix-network")) ->
      SolutionEngine.execute execPromise now (SolutionEngine.Obj o) st
      = (SolutionEngine.Return
           (SolutionEngine.solutionResult false None
              (Some (js "Network reset complete. You may need to reconnect to WiFi."))
              (Some (js "network-reset")) (Some (CommandResults [])) true false),
         logged)).
Proof.
  intros Hd Hw logged. split; intros Htype; enter_execute Htype.
  - unfold SolutionEngine.clearCache, SolutionEngine.on.
    cbn [SolutionEngine.log SolutionEngine.platform].
    rewrite !bool_decide_eq_false_2 by done. cbv zeta. cbn [forallb].
    do 3 f_equal; by vm_compute.
  - unfold SolutionEngine.fixNetwork, SolutionEngine.on.
    cbn [SolutionEngine.log SolutionEngine.platform].
    by rewrite !bool_decide_eq_false_2 by done.
Qed.


(** X16. On Windows [fix-network] runs its four commands in order,
    each one whether or not the ones before it failed, and succeeds
    exactly when at least one of them did. *)
Theorem fixNetwork_runs_every_command o st :
  o !! js "type" = Some (JS.Str (js "fix-network")) ->
  SolutionEngine.platform st = js "win32" ->
  let '(out, st') := SolutionEngine.execute execPromise now (SolutionEngine.Obj o) st in
  let n := length (SolutionEngine.spawned st) in
  SolutionEngine.spawned st'
  = SolutionEngine.spawned st
    ++ map (fun c => Spawn c no_options) SolutionEngine.networkCommandsWindows
  /\ exists r,
       out = SolutionEngine.Return r
       /\ success r
          = existsb id
              (imap (fun i c => resolved (execPromise (n + i)%nat c no_options))
                 SolutionEngine.networkCommandsWindows).
Proof.
  intros Htype Hw. enter_execute Htype.
  unfold SolutionEngine.fixNetwork, SolutionEngine.on.
  cbn [SolutionEngine.log SolutionEngine.platform]. rewrite Hw.
  change (bool_decide (js "win32" = js "darwin")) with false.
  change (bool_decide (js "win32" = js "win32")) with true. cbv iota.
  match goal with
  | |- context [SolutionEngine.runAll _ ?op ?cs ?s] =>
      pose proof (runAll_starts op cs s) as H;
      destruct (SolutionEngine.runAll execPromise op cs s) as [rs st']
  end.
  destruct H as ((Hp & Ha & Hc & Hs) & Hn & Hok). cbn [SolutionEngine.spawned] in *.
  split; [exact Hs|]. eexists. split; [done|].
  cbn [success SolutionEngine.solutionResult].
  replace (existsb c_success rs) with (existsb id (map c_success rs))
    by (clear; induction rs as [|x rs IH]; simpl; [done|by rewrite IH]).
  rewrite Hok. done.
Qed.

End EngineFacts.

Lemma flush_dns_never_throws :
  let '(out, st') :=
    SolutionEngine.execute (fun _ _ _ => Rejected (ExecError (js "denied") None))
      (fun _ => [])
      (SolutionEngine.Obj {[ js "type" := JS.Str (js "flush-dns") ]})
      (SolutionEngine.State (js "linux") [] [] 0) in
  let executed :=
    SolutionEngine.Audit [] (js "execute")
      (SolutionEngine.Obj {[ js "type" := JS.Str (js "flush-dns") ]}) None (js "linux") in
  exists r,
    out = SolutionEngine.Return r
    /\ (SolutionEngine.auditLog st' = [] ++ [executed]
        \/ exists msg,
             r = SolutionEngine.solutionResult false (Some msg) None None None false false
             /\ SolutionEngine.auditLog st'
                = [] ++ [executed;
                         SolutionEngine.Audit [] (js "error")
                           (SolutionEngine.Obj {[ js "type" := JS.Str (js "flush-dns") ]})
                           (Some msg) (js "linux")]).
Proof.
  refine (execute_catches_handler_errors
            (fun _ _ _ => Rejected (ExecError (js "denied") None)) (fun _ => [])
            (SolutionEngine.Obj {[ js "type" := JS.Str (js "flush-dns") ]})
            (SolutionEngine.State (js "linux") [] [] 0) _ _ _);
    by vm_compute.
Defined.

Lemma execute_capitalised_dangerous_type :
  SolutionEngine.execute (fun _ _ _ => Resolved [] []) (fun _ => [])
    (SolutionEngine.Obj {[ js "type" := JS.Str (js "Format-Drive") ]})
    (SolutionEngine.State (js "linux") [] [] 0)
  = (SolutionEngine.Return
       (SolutionEngine.solutionResult false
          (Some (js "Unknown solution type: " ++ js "Format-Drive"))
          None None None false false),
     SolutionEngine.log (fun _ => []) (js "execute")
       (SolutionEngine.Obj {[ js "type" := JS.Str (js "Format-Drive") ]}) None
       (SolutionEngine.State (js "linux") [] [] 0)).
Proof.
  apply (execute_unknown_type (fun _ _ _ => Resolved [] []) (fun _ => [])
           {[ js "type" := JS.Str (js "Format-Drive") ]} (js "Format-Drive")).
  - by vm_compute.
  - by vm_compute.
  - unfold SolutionEngine.handledTypes.
    repeat (apply not_elem_of_cons; split; [by vm_compute|]). apply not_elem_of_nil.
  - unfold SolutionEngine.dangerousTypes.
    repeat (apply not_elem_of_cons; split; [by vm_compute|]). apply not_elem_of_nil.
Defined.

Lemma suggest_restart_only_advises :
  exists r,
    SolutionEngine.execute (fun _ _ _ => Resolved [] []) (fun _ => [])
      (SolutionEngine.Obj {[ js "type" := JS.Str (js "suggest-restart") ]})
      (SolutionEngine.State (js "darwin") [] [] 0)
    = (SolutionEngine.Return r,
       SolutionEngine.log (fun _ => []) (js "execute")
         (SolutionEngine.Obj {[ js "type" := JS.Str (js "suggest-restart") ]}) None
         (SolutionEngine.State (js "darwin") [] [] 0))
    /\ success r = true /\ action r = None.
Proof.
  apply (advice_starts_no_process (fun _ _ _ => Resolved [] []) (fun _ => [])
           {[ js "type" := JS.Str (js "suggest-restart") ]} (js "suggest-restart")).
  - by vm_compute.
  - by left.
Defined.

Lemma kill_process_pid_zero :
  SolutionEngine.execute (fun _ _ _ => Resolved [] []) (fun _ => [])
    (SolutionEngine.Obj
       (<[ js "pid" := JS.Num 0 ]> {[ js "type" := JS.Str (js "kill-process") ]}))
    (SolutionEngine.State (js "linux") [] [] 0)
  = (SolutionEngine.Return
       (SolutionEngine.solutionResult false (Some (js "Process ID required"))
          None None None false false),
     SolutionEngine.log (fun _ => []) (js "error")
       (SolutionEngine.Obj
          (<[ js "pid" := JS.Num 0 ]> {[ js "type" := JS.Str (js "kill-process") ]}))
       (Some (js "Process ID required"))
       (SolutionEngine.log (fun _ => []) (js "execute")
          (SolutionEngine.Obj
             (<[ js "pid" := JS.Num 0 ]> {[ js "type" := JS.Str (js "kill-process") ]}))
          None (SolutionEngine.State (js "linux") [] [] 0))).
Proof.
  apply (kill_process_requires_pid (fun _ _ _ => Resolved [] []) (fun _ => [])
           (<[ js "pid" := JS.Num 0 ]> {[ js "type" := JS.Str (js "kill-process") ]}));
    by vm_compute.
Defined.

Lemma fix_network_on_linux :
  SolutionEngine.execute (fun _ _ _ => Resolved [] []) (fun _ => [])
    (SolutionEngine.Obj {[ js "type" := JS.Str (js "fix-network") ]})
    (SolutionEngine.State (js "linux") [] [] 0)
  = (SolutionEngine.Return
       (SolutionEngine.solutionResult false None
          (Some (js "Network reset complete. You may need to reconnect to WiFi."))
          (Some (js "network-reset")) (Some (CommandResults [])) true false),
     SolutionEngine.log (fun _ => []) (js "execute")
       (SolutionEngine.Obj {[ js "type" := JS.Str (js "fix-network") ]}) None
       (SolutionEngine.State (js "linux") [] [] 0)).
Proof.
  apply (nothing_to_do_elsewhere (fun _ _ _ => Resolved [] []) (fun _ => [])
           {[ js "type" := JS.Str (js "fix-network") ]}
           (SolutionEngine.State (js "linux") [] [] 0));
    by vm_compute.
Defined.

Lemma fix_network_on_windows :
  let '(out, st') :=
    SolutionEngine.execute
      (fun n _ _ => if Nat.eqb n 2 then Resolved [] []
                    else Rejected (ExecError (js "denied") None))
      (fun _ => [])
      (SolutionEngine.Obj {[ js "type" := JS.Str (js "fix-network") ]})
      (SolutionEngine.State (js "win32") [] [] 0) in
  SolutionEngine.spawned st'
  = [] ++ map (fun c => Spawn c no_options) SolutionEngine.networkCommandsWindows
  /\ exists r, out = SolutionEngine.Return r /\ success r = true.
Proof.
  exact (fixNetwork_runs_every_command
           (fun n _ _ => if Nat.eqb n 2 then Resolved [] []
                         else Rejected (ExecError (js "denied") None))
           (fun _ => [])
           {[ js "type" := JS.Str (js "fix-network") ]}
           (SolutionEngine.State (js "win32") [] [] 0) eq_refl eq_refl).
Defined.

(** ** The renderer: reading a response, and sending a message *)

Lemma trimStart_length s : (length (JS.trimStart s) <= length s)%nat.
Proof.
  induction s as [|c s IH]; [done|]. cbn [JS.trimStart].
  destruct (JS.isSpace c); cbn [length]; lia.
Qed.

Lemma trim_length s : (length (JS.trim s) <= length s)%nat.
Proof.
  unfold JS.trim, JS.trimEnd. rewrite length_rev.
  etransitivity; [apply trimStart_length|]. rewrite length_rev.
  apply trimStart_length.
Qed.

Lemma trim_ends s c :
  head (JS.trim s) = Some c \/ last (JS.trim s) = Some c -> JS.isSpace c = false.
Proof.
  unfold JS.trim, JS.trimEnd.
  destruct (trimStart_split s) as (ws1 & _ & _ & Hhead).
  set (u := JS.trimStart s) in *.
  destruct (trimStart_split (rev u)) as (ws2 & Hu & _ & Hlast).
  set (T := JS.trimStart (rev u)) in *.
  assert (Hu' : u = rev T ++ rev ws2).
  { rewrite <- (rev_involutive u), Hu. by rewrite rev_app_distr. }
  intros [H|H].
  - destruct (rev T) as [|x r] eqn:Hr; [done|]. injection H as ->.
    rewrite Hu' in Hhead. exact Hhead.
  - destruct T as [|y T']; [done|]. cbn [rev] in H. rewrite last_snoc in H.
    injection H as ->. exact Hlast.
Qed.

Lemma replaceFirst_length pat s :
  (length (JS.replaceFirst pat [] s) <= length s)%nat.
Proof.
  induction s as [|c s IH]; cbn [JS.replaceFirst].
  - by destruct pat.
  - destruct (JS.startsWith pat (c :: s)).
    + cbn [app]. rewrite length_drop. lia.
    + cbn [length]. lia.
Qed.

Lemma readBlocks_shape fuel : forall s li text actions t acts,
  RelayApp.readBlocks fuel s li text actions = Some (t, acts) ->
  Forall (fun a => RelayApp.typed a = true) actions ->
  Forall (fun a => RelayApp.typed a = true) acts
  /\ exists u, t = JS.trim u /\ (length u <= length text)%nat.
Proof.
  induction fuel as [|fuel IH]; intros s li text actions t acts; [done|].
  rewrite readBlocks_S.
  destruct (Regex.exec RelayApp.actionBlockRegex li s) as [[m|] li'].
  - cbv zeta. rewrite actionOf_read. intros H Hall.
    apply IH in H as (Hacts & u & -> & Hu).
    + split; [done|]. exists u. split; [done|].
      etransitivity; [exact Hu|apply replaceFirst_length].
    + fold (RelayApp.typed (RelayApp.actionOf (RelayApp.group m 1))).
      destruct (RelayApp.typed _) eqn:Ht; [|done].
      apply Forall_app. split; [done|]. by constructor.
  - intros [= <- <-] Hall. split; [done|]. by exists text.
Qed.

(** X17. [parseAIResponse] returns for every text.  Each action it
    returns has a non-empty [type]; the text it returns is no longer
    than the response and neither begins nor ends with white space. *)
Theorem parseAIResponse_result_shape s :
  exists text actions,
    RelayApp.parseAIResponse s = Some (text, actions)
    /\ Forall (fun a => exists ty, a !! js "type" = Some ty /\ ty <> []) actions
    /\ (length text <= length s)%nat
    /\ (forall c, head text = Some c \/ last text = Some c -> JS.isSpace c = false).
Proof.
  destruct (parseAIResponse_total s) as [[text actions] Hparse].
  exists text, actions. split; [done|].
  apply readBlocks_shape in Hparse as (Hacts & u & -> & Hu); [|done].
  split_and!.
  - eapply Forall_impl; [exact Hacts|]. intros a Ha.
    unfold RelayApp.typed, RelayApp.prop in Ha.
    destruct (a !! js "type") as [[|c ty]|]; try done. by eexists.
  - etransitivity; [apply trim_length|done].
  - apply trim_ends.
Qed.

(** X18. Round trip of an action block.  Parameters written as
    a key, [=] and the value between double quotes, and separated by
    single spaces (keys of word characters; values non-empty, without
    a double quote and without a closing square bracket), inside one
    action block between two texts without an opening square bracket,
    are read back as the object that assigns the values to the keys in
    order, a later key overwriting an earlier one; the text returned is
    the two texts joined and trimmed. *)
Theorem parseAIResponse_params_roundtrip prose kvs prose' :
  RelayApp.isProse prose -> RelayApp.isProse prose' ->
  Forall RelayApp.isParam kvs -> Forall (fun kv => 93 ∉ kv.2) kvs ->
  js "type" ∈ kvs.*1 ->
  RelayApp.parseAIResponse
    (prose ++ js "[ACTION: " ++ RelayApp.renderParams kvs ++ js "]" ++ prose')
  = Some (JS.trim (prose ++ prose'), [RelayApp.objectOf kvs]).
Proof.
  intros Hprose Hprose' Hkvs H93 Htype.
  pose proof (parseAIResponse_render prose [(32 :: RelayApp.renderParams kvs, prose')] Hprose)
    as H.
  cbn [RelayApp.render RelayApp.proseOf map List.filter fst] in H.
  destruct kvs as [|kv kvs]; [by apply elem_of_nil in Htype|].
  assert (Hbody : RelayApp.isBody (32 :: RelayApp.renderParams (kv :: kvs))).
  { split; [done|]. rewrite renderParams_cons.
    apply Forall_cons in Hkvs as [Hkv Hkvs]. apply Forall_cons in H93 as [Hv Hvs].
    rewrite not_elem_of_cons, not_elem_of_app. split_and!; [done| |].
    - by apply renderParam_no93.
    - by apply spaced_no93. }
  assert (Hcontent : RelayApp.contentOf (32 :: RelayApp.renderParams (kv :: kvs))
                     = RelayApp.renderParams (kv :: kvs)).
  { unfold RelayApp.contentOf. rewrite renderParams_cons.
    apply Forall_cons in Hkvs as [(Hk & Hword & _) _].
    destruct kv as [[|c k] v]; [done|]. apply Forall_cons in Hword as [Hc _].
    cbn [fst] in *. unfold RelayApp.renderParam. cbn [fst app JS.trimStart].
    change (JS.isSpace 32) with true. cbv iota. cbn [JS.trimStart].
    assert (Hsp : JS.isSpace c = false).
    { destruct (JS.isSpace c) eqn:Hs; [|done]. exfalso. revert Hc Hs.
      unfold JS.isWord, JS.isUpper, JS.isLower, JS.isDigit, JS.isSpace.
      rewrite !orb_true_iff, !andb_true_iff, !N.leb_le, !N.eqb_eq. lia. }
    by rewrite Hsp. }
  rewrite Hcontent, actionOf_renderParams, objectOf_typed in H by done.
  rewrite <- H.
  - f_equal. rewrite tag_cons. cbn [app]. by rewrite <- !app_assoc.
  - apply Forall_cons. split; [done|apply Forall_nil]. done.
Qed.

Lemma trimStart_spaces s :
  Forall (fun c => JS.isSpace c = true) s -> JS.trimStart s = [].
Proof. induction 1 as [|c s Hc _ IH]; [done|]. cbn. by rewrite Hc. Qed.

Lemma trim_spaces s :
  Forall (fun c => JS.isSpace c = true) s -> JS.trim s = [].
Proof. intros H. unfold JS.trim. by rewrite trimStart_spaces. Qed.

Section RendererFacts.

Variable w : RelayApp.world.

(** X19. [sendMessage] does nothing at all, not even clearing the
    input, when the input is blank or while a message is being
    processed. *)
Theorem sendMessage_ignores_blank_or_busy input st :
  Forall (fun c => JS.isSpace c = true) input \/ RelayApp.isProcessing st = true ->
  RelayApp.sendMessage w input st = Some st.
Proof.
  intros [H|H]; unfold RelayApp.sendMessage.
  - by rewrite trim_spaces.
  - rewrite H. by rewrite orb_true_r.
Qed.

(** X20. A message that is not blank, sent while idle, makes exactly
    one call of the backend, the first call of the run and with the
    trimmed input, whatever the backend answers (also when the call is
    rejected or the response is an error or has no text); and the run
    ends with [isProcessing] false again. *)
Theorem sendMessage_consults_once input st :
  JS.truthy (JS.trim input) = true -> RelayApp.isProcessing st = false ->
  exists st' rest,
    RelayApp.sendMessage w input st = Some st'
    /\ RelayApp.isProcessing st' = false
    /\ RelayApp.calls st'
       = RelayApp.calls st
         ++ RelayApp.Chat (JS.trim input) (RelayApp.systemContext st) :: rest
    /\ Forall (fun c => RelayApp.isChat c = false) rest.
Proof.
  intros Hmsg Hidle. unfold RelayApp.sendMessage.
  rewrite Hmsg, Hidle. cbn [negb orb]. unfold RelayApp.relayChat.
  set (st1 := RelayApp.emit _ (RelayApp.setStatus _ _ _)).
  change (RelayApp.calls st1) with (RelayApp.calls st).
  change (RelayApp.systemContext st1) with (RelayApp.systemContext st).
  destruct (RelayApp.chat w _ _ _) as [r|]; [|by eexists _, []].
  destruct (RelayApp.r_error r).
  { eexists _, []. split; [done|].
    destruct (JS.truthyOpt (RelayApp.r_errorMessage r)); [|done].
    destruct (JS.includes (js "API key") _); [done|].
    destruct (JS.includes (js "quota") _ || _); [done|].
    by destruct (JS.includes (js "404") _). }
  destruct (RelayApp.r_text r) as [text|]; [|by eexists _, []].
  destruct (parseAIResponse_total text) as [[display actions] ->].
  set (shown := match List.filter (RelayApp.typeIn RelayApp.utilityActionTypes) actions with
                | [] => _
                | _ :: _ => _
                end).
  assert (Hshown : RelayApp.calls shown
                   = RelayApp.calls st
                     ++ RelayApp.Chat (JS.trim input) (RelayApp.systemContext st)
                        :: map RelayApp.Utility
                             (List.filter (RelayApp.typeIn RelayApp.utilityActionTypes) actions)
                   /\ RelayApp.isProcessing shown = true).
  { subst shown.
    destruct (List.filter (RelayApp.typeIn RelayApp.utilityActionTypes) actions)
      as [|u us] eqn:Hu.
    - done.
    - match goal with
      | |- context [RelayApp.showUtilityResults w ?l ?t ?o ?a ?s] =>
          destruct (showUtilityResults_calls w l t o a s) as [-> ->]
      end.
      cbn. by rewrite <- app_assoc. }
  destruct Hshown as [Hcalls Hbusy].
  destruct (autoExecute_calls w actions shown Hbusy) as (st2 & -> & Hcalls2 & _).
  eexists _, _. split; [done|]. split; [done|].
  cbn [RelayApp.calls RelayApp.setProcessing RelayApp.setStatus RelayApp.emit].
  rewrite Hcalls2, Hcalls. rewrite <- app_assoc. split; [done|].
  apply Forall_app. split; apply Forall_forall; intros c (a & -> & _)%list_elem_of_fmap; done.
Qed.

Lemma loop_flag fuel :
  (forall msg step st st',
     RelayApp.processSystemMessage w fuel msg step st = Some st' ->
     if (step =? 0)%nat && RelayApp.isProcessing st then st' = st
     else RelayApp.isProcessing st' = false)
  /\ (forall a step st st',
        RelayApp.executeQueryActionAgentic w fuel a step st = Some st' ->
        RelayApp.isProcessing st'
        = (step =? 0)%nat && RelayApp.isProcessing st)
  /\ (forall step st st',
        RelayApp.isProcessing st = false ->
        RelayApp.executeDeepScan w fuel step st = Some st' ->
        RelayApp.isProcessing st' = false).
Proof.
  induction fuel as [|fuel (IHp & IHq & IHd)]; [by split_and!|].
  split_and!.
  - intros msg step st st'. cbn [RelayApp.processSystemMessage].
    destruct ((step =? 0)%nat && RelayApp.isProcessing st); [by intros [= <-]|].
    destruct (RelayApp.MAX_AGENTIC_STEPS <=? step)%nat; [by intros [= <-]|].
    unfold RelayApp.relayChat.
    destruct (RelayApp.chat w _ _ _) as [response|]; [|by intros [= <-]].
    destruct (RelayApp.r_error response); [by intros [= <-]|].
    destruct (RelayApp.r_text response) as [responseText|]; [|by intros [= <-]].
    destruct (RelayApp.parseAIResponse responseText) as [[text actions]|]; [|done].
    destruct (List.filter RelayApp.isQuery actions) as [|q qs].
    + destruct (List.filter _ actions) as [|d ds]; [by intros [= <-]|].
      by apply IHd.
    + intros H. apply IHq in H. rewrite H.
      by replace (step + 1 =? 0)%nat with false by (symmetry; apply Nat.eqb_neq; lia).
  - intros a step st st'. cbn [RelayApp.executeQueryActionAgentic].
    set (st1 := RelayApp.emit _ st).
    pose proof (relayRunSafeCommand_state w (RelayApp.prop a "queryType") st1)
      as (_ & Hproc & _).
    destruct (RelayApp.relayRunSafeCommand w _ st1) as [r st2].
    cbn [snd] in Hproc. intros H. apply IHp in H.
    assert (Hflag : forall b : bool,
              RelayApp.isProcessing
                (if b
                 then RelayApp.State (RelayApp.isProcessing st2)
                        (RelayApp.Context
                           (Some (RelayApp.QueryResult (RelayApp.prop a "queryType")
                                    (JS.substring0 2000 (default [] (output r))))))
                        (RelayApp.ui st2) (RelayApp.calls st2) (RelayApp.main st2)
                 else st2)
              = RelayApp.isProcessing st) by (by intros []).
    rewrite Hflag in H.
    destruct ((step =? 0)%nat && RelayApp.isProcessing st) eqn:Hc.
    + subst st'. rewrite Hflag. by apply andb_prop in Hc as [_ ->].
    + done.
  - intros step st st' Hidle. cbn [RelayApp.executeDeepScan].
    unfold RelayApp.relayRunDeepScan.
    destruct (RelayApp.runDeepScan w _) as [results|msg]; [|by intros [= <-]].
    destruct step as [step|]; [|by intros [= <-]].
    intros H. apply IHp in H. cbn [RelayApp.isProcessing RelayApp.emit
      RelayApp.called RelayApp.addMessage RelayApp.setStatus] in H.
    rewrite Hidle, andb_false_r in H. done.
Qed.

(** X21. [executeQueryAction] returns, and leaves [isProcessing] as
    it found it: called while a message is being processed, it runs the
    command and then stops at the guard of [processSystemMessage]
    without releasing the flag. *)
Theorem executeQueryAction_keeps_flag a st :
  exists st',
    RelayApp.executeQueryAction w a st = Some st'
    /\ RelayApp.isProcessing st' = RelayApp.isProcessing st.
Proof.
  destruct (executeQueryAction_total w a st) as [st' Hrun]. exists st'.
  split; [done|]. unfold RelayApp.executeQueryAction in Hrun. revert Hrun.
  generalize RelayApp.enough. intros fuel Hrun.
  by apply (loop_flag fuel) in Hrun.
Qed.

End RendererFacts.

Lemma parseAIResponse_reads_query :
  RelayApp.parseAIResponse
    (js "Checking. " ++ js "[ACTION: "
     ++ RelayApp.renderParams
          [(js "type", js "query-system"); (js "queryType", js "uptime")]
     ++ js "]" ++ [])
  = Some (JS.trim (js "Checking. " ++ []),
          [RelayApp.objectOf
             [(js "type", js "query-system"); (js "queryType", js "uptime")]]).
Proof.
  apply (parseAIResponse_params_roundtrip (js "Checking. ")
           [(js "type", js "query-system"); (js "queryType", js "uptime")] []).
  - apply (bool_decide_unpack _); by vm_compute.
  - apply not_elem_of_nil.
  - constructor; [|constructor; [|constructor]];
      (unfold RelayApp.isParam; cbn [fst snd]; split_and!;
       [by vm_compute
       |apply Forall_forall; intros c Hc%list_elem_of_In; vm_compute in Hc;
        by repeat destruct Hc as [<-|Hc]
       |by vm_compute
       |apply (bool_decide_unpack _); by vm_compute]).
  - constructor; [|constructor; [|constructor]];
      apply (bool_decide_unpack _); by vm_compute.
  - apply (bool_decide_unpack _); by vm_compute.
Defined.

Lemma sendMessage_blank_input :
  RelayApp.sendMessage (RelayApp.steady (js "ok") (js "ok")) [32; 32; 9]
    (RelayApp.idle "linux")
  = Some (RelayApp.idle "linux").
Proof.
  apply (sendMessage_ignores_blank_or_busy (RelayApp.steady (js "ok") (js "ok"))
           [32; 32; 9] (RelayApp.idle "linux")).
  left. by repeat constructor.
Defined.

Lemma sendMessage_hello_consults_once :
  exists st' rest,
    RelayApp.sendMessage (RelayApp.steady (js "ok") (js "ok")) (js " hello ")
      (RelayApp.idle "linux")
    = Some st'
    /\ RelayApp.isProcessing st' = false
    /\ RelayApp.calls st'
       = RelayApp.calls (RelayApp.idle "linux")
         ++ RelayApp.Chat (JS.trim (js " hello "))
              (RelayApp.systemContext (RelayApp.idle "linux")) :: rest
    /\ Forall (fun c => RelayApp.isChat c = false) rest.
Proof.
  apply (sendMessage_consults_once (RelayApp.steady (js "ok") (js "ok")) (js " hello ")
           (RelayApp.idle "linux")); by vm_compute.
Defined.

(** ** Confirmed actions *)

Section DesktopFacts.

Variable w : RelayApp.world.
Variable homedir : jsstring.
Variable envTEMP : option jsstring.
Variable parseInt : jsstring -> option Z.
Variable formatBytes : Z -> jsstring.
Variable execPromise : nat -> jsstring -> exec_options -> exec_outcome.
Variable engineNow : nat -> jsstring.
Variable invokeError : jsstring -> jsstring.

Lemma solutionOf_get a key :
  SolutionEngine.get (Desktop.solutionOf a) key
  = match a !! js key with Some s => JS.Str s | None => JS.Undefined end.
Proof.
  unfold SolutionEngine.get, Desktop.solutionOf. rewrite lookup_fmap.
  by destruct (a !! js key).
Qed.

(** X22. Confirming an action of a dangerous type in the modal does
    not run it: the action goes to the solution engine, which refuses
    it, and the window shows the warning that the action needs special
    permissions.  The solution engine is left as it was, without an
    entry in its audit log, and no process is started. *)
Theorem confirmed_dangerous_type_is_refused a ty st :
  Desktop.onConfirm st = Some a ->
  a !! js "type" = Some ty -> ty ∈ SolutionEngine.dangerousTypes ->
  Desktop.confirm w homedir envTEMP parseInt formatBytes execPromise engineNow
    invokeError st
  = Desktop.State
      (RelayApp.setStatus "online" "Ready to help"
         (RelayApp.addMessage
            (js "⚠️ This action requires special permissions. "
             ++ js "This action requires additional approval due to safety concerns")
            RelayApp.Assistant []
            (RelayApp.addMessage (js "On it! Let me take care of that... ⚙️")
               RelayApp.Assistant []
               (RelayApp.setStatus "busy" "Working on it..." (Desktop.app st)))))
      (Desktop.engine st) false (Some a).
Proof.
  intros Hc Htype Hin. unfold Desktop.confirm. rewrite Hc.
  assert (Hnot : RelayApp.typeIn Desktop.approvedTypes a = false).
  { unfold RelayApp.typeIn, RelayApp.prop. rewrite Htype.
    unfold SolutionEngine.dangerousTypes in Hin.
    repeat (apply elem_of_cons in Hin as [->|Hin]; [by vm_compute|]).
    by apply elem_of_nil in Hin. }
  rewrite Hnot. unfold Desktop.executeSolution, Desktop.executeSolutionHandler.
  unfold SolutionEngine.execute, SolutionEngine.isSafe.
  rewrite solutionOf_get, Htype. cbn [SolutionEngine.falsy Desktop.solutionOf orb].
  assert (Hty : JS.truthyPrim (JS.Str ty) = true
                /\ existsb (JS.isStr (JS.Str ty)) SolutionEngine.dangerousTypes = true).
  { unfold SolutionEngine.dangerousTypes in Hin.
    repeat (apply elem_of_cons in Hin as [->|Hin]; [by vm_compute|]).
    by apply elem_of_nil in Hin. }
  destruct Hty as [-> ->]. cbn [negb]. cbv iota.
  cbn [success requiresApproval error SolutionEngine.solutionResult JS.show
       Desktop.hideModal Desktop.app Desktop.engine Desktop.modalActive
       Desktop.onConfirm].
  rewrite Hc. reflexivity.
Qed.

(** X23. The button of the modal closes the modal, keeps the action
    it holds and leaves [isProcessing] alone; and it reaches one side of
    the main process only: an action of one of the six types of
    [executeApprovedAction] leaves the solution engine and its audit log
    as they were, every other action leaves the command executor and its
    history as they were. *)
Theorem confirm_separation a st :
  Desktop.onConfirm st = Some a ->
  let st' :=
    Desktop.confirm w homedir envTEMP parseInt formatBytes execPromise engineNow
      invokeError st in
  Desktop.modalActive st' = false
  /\ Desktop.onConfirm st' = Some a
  /\ RelayApp.isProcessing (Desktop.app st') = RelayApp.isProcessing (Desktop.app st)
  /\ (if RelayApp.typeIn Desktop.approvedTypes a
      then Desktop.engine st' = Desktop.engine st
      else RelayApp.main (Desktop.app st') = RelayApp.main (Desktop.app st)).
Proof.
  intros Hc. unfold Desktop.confirm. rewrite Hc.
  destruct (RelayApp.typeIn Desktop.approvedTypes a).
  - unfold Desktop.executeApprovedAction.
    destruct (Desktop.invoke _ _ _ _ _ _ _ _) as [[res|msg] m].
    + cbn [Desktop.hideModal Desktop.app Desktop.engine Desktop.modalActive
           Desktop.onConfirm].
      destruct (success res); [destruct (Desktop.detailLines _)|]; done.
    + done.
  - unfold Desktop.executeSolution.
    destruct (Desktop.executeSolutionHandler _ _ _ _) as [res e].
    cbn [Desktop.hideModal Desktop.app Desktop.engine Desktop.modalActive
         Desktop.onConfirm].
    destruct (success res); [destruct (userAction res)|destruct (requiresApproval res)];
      done.
Qed.

(** X24. Confirming [kill-process] starts exactly one process, the
    kill command for the sanitised process name; the [pid] of the action
    is not used.  Without a process name nothing is started and the
    window ends in the state [Action failed]. *)
Theorem confirmed_kill_is_sanitized a st :
  Desktop.onConfirm st = Some a ->
  a !! js "type" = Some (js "kill-process") ->
  let m := RelayApp.main (Desktop.app st) in
  let st' :=
    Desktop.confirm w homedir envTEMP parseInt formatBytes execPromise engineNow
      invokeError st in
  let m' := RelayApp.main (Desktop.app st') in
  match a !! js "processName" with
  | Some name =>
      let safeName := CommandExecutor.sanitizeName name in
      CommandExecutor.spawned m'
      = CommandExecutor.spawned m
        ++ [Spawn
              (if bool_decide (CommandExecutor.platform m = js "win32")
               then js "taskkill /F /IM " ++ JS.quoted (safeName ++ js ".exe")
                    ++ js " 2>nul || taskkill /F /IM " ++ JS.quoted safeName
                    ++ js " 2>nul"
               else js "pkill -x " ++ JS.quoted safeName ++ js " || pkill "
                    ++ JS.quoted safeName)
              no_options]
  | None =>
      m' = m
      /\ last (RelayApp.ui (Desktop.app st'))
         = Some (RelayApp.SetStatus (js "error") (js "Action failed"))
  end.
Proof.
  intros Hc Htype m st' m'. subst m' st'. unfold Desktop.confirm. rewrite Hc.
  assert (Hin : RelayApp.typeIn Desktop.approvedTypes a = true).
  { unfold RelayApp.typeIn, RelayApp.prop. rewrite Htype. by vm_compute. }
  rewrite Hin. unfold Desktop.executeApprovedAction, Desktop.invoke.
  assert (Hkill : RelayApp.hasType a "kill-process" = true).
  { unfold RelayApp.hasType, RelayApp.prop. rewrite Htype. by apply bool_decide_eq_true. }
  rewrite Hkill. unfold RelayApp.prop.
  destruct (a !! js "processName") as [name|].
  - cbn [fst snd]. unfold CommandExecutor.killProcessByName, CommandExecutor.run.
    cbn [Desktop.hideModal Desktop.app RelayApp.main RelayApp.setStatus RelayApp.emit
         CommandExecutor.platform CommandExecutor.logger CommandExecutor.spawned].
    fold m.
    destruct (RelayApp.execAsync w _ _ _) as [out err|e]; cbn [fst snd].
    + by destruct (success _); [destruct (Desktop.detailLines _)|].
    + destruct (JS.includes _ _); cbn [fst snd];
        by destruct (success _); [destruct (Desktop.detailLines _)|].
  - cbn. split; [done|]. by rewrite last_snoc.
Qed.

End DesktopFacts.

Lemma confirmed_format_drive_is_refused :
  Desktop.confirm (RelayApp.steady (js "ok") (js "ok")) (js "/home/user") None
    (fun _ => None) (fun _ => []) (fun _ _ _ => Resolved [] []) (fun _ => [])
    (fun _ => [])
    (Desktop.State (RelayApp.idle "linux") (SolutionEngine.State (js "linux") [] [] 0)
       true (Some {[ js "type" := js "format-drive" ]}))
  = Desktop.State
      (RelayApp.setStatus "online" "Ready to help"
         (RelayApp.addMessage
            (js "⚠️ This action requires special permissions. "
             ++ js "This action requires additional approval due to safety concerns")
            RelayApp.Assistant []
            (RelayApp.addMessage (js "On it! Let me take care of that... ⚙️")
               RelayApp.Assistant []
               (RelayApp.setStatus "busy" "Working on it..."
                  (Desktop.app
                     (Desktop.State (RelayApp.idle "linux")
                        (SolutionEngine.State (js "linux") [] [] 0)
                        true (Some {[ js "type" := js "format-drive" ]})))))))
      (Desktop.engine
         (Desktop.State (RelayApp.idle "linux")
            (SolutionEngine.State (js "linux") [] [] 0)
            true (Some {[ js "type" := js "format-drive" ]})))
      false (Some {[ js "type" := js "format-drive" ]}).
Proof.
  apply (confirmed_dangerous_type_is_refused (RelayApp.steady (js "ok") (js "ok"))
           (js "/home/user") None (fun _ => None) (fun _ => [])
           (fun _ _ _ => Resolved [] []) (fun _ => []) (fun _ => [])
           {[ js "type" := js "format-drive" ]} (js "format-drive")).
  - reflexivity.
  - by vm_compute.
  - unfold SolutionEngine.dangerousTypes.
    apply elem_of_cons. right. apply elem_of_cons. right. apply elem_of_cons. by left.
Defined.

Lemma confirmed_flush_dns_spares_engine :
  let st :=
    Desktop.State (RelayApp.idle "linux") (SolutionEngine.State (js "linux") [] [] 0)
      true (Some {[ js "type" := js "flush-dns" ]}) in
  let st' :=
    Desktop.confirm (RelayApp.steady (js "ok") (js "ok")) (js "/home/user") None
      (fun _ => None) (fun _ => []) (fun _ _ _ => Resolved [] []) (fun _ => [])
      (fun _ => []) st in
  Desktop.modalActive st' = false
  /\ Desktop.onConfirm st' = Some {[ js "type" := js "flush-dns" ]}
  /\ RelayApp.isProcessing (Desktop.app st') = false
  /\ Desktop.engine st' = SolutionEngine.State (js "linux") [] [] 0.
Proof.
  exact (confirm_separation (RelayApp.steady (js "ok") (js "ok"))
           (js "/home/user") None (fun _ => None) (fun _ => [])
           (fun _ _ _ => Resolved [] []) (fun _ => []) (fun _ => [])
           {[ js "type" := js "flush-dns" ]}
           (Desktop.State (RelayApp.idle "linux")
              (SolutionEngine.State (js "linux") [] [] 0)
              true (Some {[ js "type" := js "flush-dns" ]}))
           eq_refl).
Defined.

Lemma confirmed_kill_quotes_name :
  CommandExecutor.spawned
    (RelayApp.main
       (Desktop.app
          (Desktop.confirm (RelayApp.steady (js "ok") (js "ok")) (js "/home/user") None
             (fun _ => None) (fun _ => []) (fun _ _ _ => Resolved [] []) (fun _ => [])
             (fun _ => [])
             (Desktop.State (RelayApp.idle "linux")
                (SolutionEngine.State (js "linux") [] [] 0) true
                (Some {[ js "type" := js "kill-process";
                         js "processName" := js "a;b" ]})))))
  = [Spawn (js "pkill -x " ++ jsq "ab" ++ js " || pkill " ++ jsq "ab") no_options].
Proof.
  pose proof (confirmed_kill_is_sanitized (RelayApp.steady (js "ok") (js "ok"))
                (js "/home/user") None (fun _ => None) (fun _ => [])
                (fun _ _ _ => Resolved [] []) (fun _ => []) (fun _ => [])
                {[ js "type" := js "kill-process"; js "processName" := js "a;b" ]}
                (Desktop.State (RelayApp.idle "linux")
                   (SolutionEngine.State (js "linux") [] [] 0) true
                   (Some {[ js "type" := js "kill-process";
                            js "processName" := js "a;b" ]}))
                eq_refl eq_refl) as H.
  exact H.
Defined.
